(** * Decision tree (CART, Gini) and random forest: a shallow embedding of
    [actual.py] and the properties of its specification.

    Conventions of the embedding.

    - Python.  The source is Python 3 ([score] returns [correct / n] as a
      fraction), so [/] is true division.
    - Numbers.  The cells of the numpy matrices and the stopping criterion
      are Python floats; a finite float is a rational number, and they are
      modelled by [Q].  Comparisons ([>=], [<], [==], [!=]) are the exact
      ones, written with [Qle_bool] and [Qeq_bool].  The Gini impurity and
      the gains are computed in binary64, as the code computes them: every
      operation of [gini] and [info_gain] is the exact operation followed
      by [round64], the rounding to the nearest number with 53 significant
      bits, ties to even ([label_p ** 2] is the rounded product).  The
      exponent range is taken as unbounded: these values stay far from the
      overflow and underflow of binary64, and a division by zero raises
      before it could give an infinity or a NaN.  The quotients
      [len(merged_train) / 10] and [correct / n], which the code stores,
      compares with row counts or returns, are kept as the exact quotients
      that the code's values round.  Row counts and histogram counts are
      Python ints, modelled by [nat].
    - Exceptions.  A function that can raise returns a [result]: [Ok v], or
      [Raise e] for the built-in exception the interpreter (or numpy) raises.
      [Timeout] is not a Python outcome: it is the answer of the fuel-indexed
      [build] when its fuel runs out, and the theorems show it is never
      reached with fuel [length rows].
    - Rows.  A row of the merged training matrix is the list of its cells,
      the label last, as in the source ([row[-1]]).  A matrix is the list of
      its rows.
    - Dictionaries.  [class_counts] builds a Python dict; it is modelled by an
      association list in insertion order, keys compared with [==].
    - Sets.  [find_best_split] iterates over [set(...)], whose order Python
      leaves unspecified: the development is parametric in the iteration
      order ([set_order]), and [first_seen] is one lawful order, used by the
      examples.
    - State.  [Tree.fit] returns the tree after the call together with the
      outcome, so that the state left by an exception can be stated;
      [RandomForest.fit] returns the forest of a call that returns.
    - Randomness.  The results of [np.random.shuffle] and [np.random.choice]
      are arguments ([random_draws]). *)

From Stdlib Require Import List Bool Arith ZArith QArith Qpower Qround Qabs.
From Stdlib Require Import Lia Lqa Psatz.
From Stdlib Require Import SetoidList Sorted Permutation.
Import ListNotations.

(** ** Exceptions and the error monad *)

Inductive exn : Type :=
| IndexError
| ValueError
| AttributeError
| ZeroDivisionError
| TypeError.

Inductive result (A : Type) : Type :=
| Ok (a : A)
| Raise (e : exn)
| Timeout.

Arguments Ok {A} a.
Arguments Raise {A} e.
Arguments Timeout {A}.

Definition bind {A B : Type} (m : result A) (k : A -> result B) : result B :=
  match m with
  | Ok a => k a
  | Raise e => Raise e
  | Timeout => Timeout
  end.

Declare Scope result_scope.
Delimit Scope result_scope with result.
Notation "x <- m ;; k" := (bind m (fun x => k))
  (at level 61, m at next level, right associativity) : result_scope.
Notation "' p <- m ;; k" := (bind m (fun x => match x with p => k end))
  (at level 61, p pattern, m at next level, right associativity) : result_scope.
Open Scope result_scope.

(** A [for] loop over [xs] that threads the loop state [s] and stops at the
    first exception. *)
Fixpoint for_each {A S : Type} (xs : list A) (body : S -> A -> result S) (s : S)
  : result S :=
  match xs with
  | [] => Ok s
  | x :: xs' => s' <- body s x ;; for_each xs' body s'
  end.

(** [[f(x) for x in xs]] where [f] can raise. *)
Fixpoint map_each {A B : Type} (f : A -> result B) (xs : list A) : result (list B) :=
  match xs with
  | [] => Ok []
  | x :: xs' => y <- f x ;; ys <- map_each f xs' ;; Ok (y :: ys)
  end.

(** [xs[i]] for [0 <= i]. *)
Definition getitem {A : Type} (xs : list A) (i : nat) : result A :=
  match nth_error xs i with
  | Some x => Ok x
  | None => Raise IndexError
  end.

(** ** Numbers *)

Open Scope Q_scope.

(** [len(xs)], as the float or int it is used as. *)
Definition len {A : Type} (xs : list A) : Q := inject_Z (Z.of_nat (length xs)).

Definition count_Q (c : nat) : Q := inject_Z (Z.of_nat c).

(** [a < b] on numbers. *)
Definition Qlt_bool (a b : Q) : bool := negb (Qle_bool b a).

(** [a / b] as the exact quotient; it raises on a zero divisor. *)
Definition pydiv (a b : Q) : result Q :=
  if Qeq_bool b 0 then Raise ZeroDivisionError else Ok (a / b).

(** ** Binary64 arithmetic *)

(** The power of two [2^e], for any integer [e]. *)
Definition pow2 (e : Z) : Q := 2 ^ e.

(** The integer nearest to [q], a tie going to the even one. *)
Definition round_half_even (q : Q) : Z :=
  let f := Qfloor q in
  match Qcompare (q - inject_Z f) (1 # 2) with
  | Lt => f
  | Gt => (f + 1)%Z
  | Eq => if Z.even f then f else (f + 1)%Z
  end.

(** For [0 < a], the exponent [e] with [2^e <= a < 2^(e+1)]. *)
Definition binade (a : Q) : Z :=
  let k := (Z.log2 (Qnum a) - Z.log2 (Z.pos (Qden a)))%Z in
  if Qle_bool (pow2 k) a then k else (k - 1)%Z.

(** The binary64 number nearest to [x] (53 significant bits, ties to even),
    the exponent range taken as unbounded. *)
Definition round64 (x : Q) : Q :=
  let q := Qred x in
  if Qeq_bool q 0 then 0
  else
    let a := Qabs q in
    let e := (binade a - 52)%Z in
    let m := round_half_even (a / pow2 e) in
    Qred ((if Qle_bool 0 q then 1 else -1) * inject_Z m * pow2 e).

(** [a - b] and [a * b] on floats. *)
Definition fsub (a b : Q) : Q := round64 (a - b).
Definition fmul (a b : Q) : Q := round64 (a * b).

(** [a / b] on floats, which raises on a zero divisor. *)
Definition fdiv (a b : Q) : result Q :=
  if Qeq_bool b 0 then Raise ZeroDivisionError else Ok (round64 (a / b)).

(** ** Rows and label histograms *)

Definition row : Type := list Q.

(** [row[-1]] *)
Definition label (r : row) : result Q :=
  match rev r with
  | [] => Raise IndexError
  | l :: _ => Ok l
  end.

Definition dict : Type := list (Q * nat).

(** [if label not in counts: counts[label] = 0] followed by
    [counts[label] += 1]: an existing key keeps its place (and its key
    object), a new key goes last. *)
Fixpoint dict_incr (l : Q) (counts : dict) : dict :=
  match counts with
  | [] => [(l, 1%nat)]
  | (k, c) :: rest =>
      if Qeq_bool k l then (k, S c) :: rest else (k, c) :: dict_incr l rest
  end.

Fixpoint class_counts_from (counts : dict) (data : list row) : result dict :=
  match data with
  | [] => Ok counts
  | r :: data' => l <- label r ;; class_counts_from (dict_incr l counts) data'
  end.

Definition class_counts (data : list row) : result dict :=
  class_counts_from [] data.

(** ** Question *)

Record Question : Type := mkQuestion { feature : nat; value : Q }.

(** [Question.match]: [against[self.feature] >= self.value]. *)
Definition match_ (self : Question) (against : row) : result bool :=
  v <- getitem against (feature self) ;;
  Ok (Qle_bool (value self) v).

(** ** Node *)

#[warnings="-register-all"]
Inductive Node : Type :=
| Leaf (predictions : dict)
| Decision (question : option Question) (true_branch false_branch : option Node).

(** [Node.__init__(is_decision, rows, question, true_branch, false_branch)];
    [None] for [rows] cannot be iterated by [class_counts]. *)
Definition Node_init (is_decision : Z) (rows : option (list row))
  (question : option Question) (true_branch false_branch : option Node)
  : result Node :=
  if (is_decision =? 1)%Z then Ok (Decision question true_branch false_branch)
  else match rows with
       | None => Raise TypeError
       | Some rs => p <- class_counts rs ;; Ok (Leaf p)
       end.

(** [Node.top_pick]: the loop state is [(best_class, best_number)]. *)
Fixpoint top_pick_loop (items : dict) (best_class : Q) (best_number : nat) : Q :=
  match items with
  | [] => best_class
  | (pred_class, pred_number) :: rest =>
      if (best_number <? pred_number)%nat
      then top_pick_loop rest pred_class pred_number
      else top_pick_loop rest best_class best_number
  end.

Definition top_pick (predictions : dict) : Q := top_pick_loop predictions 0 0%nat.

(** ** The iteration order of a Python set *)

(** [order l] lists the values [set(l)] yields, in the order of the
    iteration. *)

Definition set_order : Type := list Q -> list Q.

(** What Python guarantees of the iteration: the values are elements of the
    list, every element is represented, and no value comes twice. *)
Definition set_order_lawful (order : set_order) : Prop :=
  (forall l y, In y (order l) -> In y l) /\
  (forall l x, In x l -> exists y, In y (order l) /\ y == x) /\
  (forall l, NoDupA Qeq (order l)).

Definition mem_Q (x : Q) (l : list Q) : bool := existsb (fun y => Qeq_bool y x) l.

(** Distinct values in order of first occurrence. *)
Fixpoint first_seen_from (seen l : list Q) : list Q :=
  match l with
  | [] => []
  | x :: l' =>
      if mem_Q x seen then first_seen_from seen l'
      else x :: first_seen_from (x :: seen) l'
  end.

Definition first_seen_list (l : list Q) : list Q := first_seen_from [] l.

Definition first_seen : set_order := first_seen_list.

(** ** Tree *)

Record Tree : Type := mkTree {
  stopping_criteria : Q;
  root_node : option Node;
  (** set by [RandomForest.fit] only; [None] while the attribute is absent *)
  feature_indices : option (list nat)
}.

(** [Tree.__init__(stopping_criteria = 0, root_node = None)] *)
Definition Tree_init (stopping_criteria : Q) : Tree :=
  mkTree stopping_criteria None None.

(** [Tree.partition] *)
Fixpoint partition (rows : list row) (question : Question)
  : result (list row * list row) :=
  match rows with
  | [] => Ok ([], [])
  | r :: rows' =>
      m <- match_ question r ;;
      '(true_rows, false_rows) <- partition rows' question ;;
      if m then Ok (r :: true_rows, false_rows)
      else Ok (true_rows, r :: false_rows)
  end.

(** [Tree.gini]: the loop over the histogram, state [impurity].
    [counts[label] / samples] divides the float of the count by the float
    [samples]. *)
Fixpoint gini_loop (samples : Q) (items : dict) (impurity : Q) : result Q :=
  match items with
  | [] => Ok impurity
  | (_, c) :: rest =>
      label_p <- fdiv (round64 (count_Q c)) samples ;;
      gini_loop samples rest (fsub impurity (fmul label_p label_p))
  end.

Definition gini (rows : list row) : result Q :=
  counts <- class_counts rows ;;
  let samples := round64 (len rows) in
  gini_loop samples counts 1.

(** [Tree.info_gain]: [float(len(left))] divided by the int
    [len(left) + len(right)], which the division turns into a float. *)
Definition info_gain (left right : list row) (current_uncertainty : Q) : result Q :=
  prob_left <- fdiv (round64 (len left)) (round64 (len left + len right)) ;;
  let prob_right := fsub 1 prob_left in
  gini_left <- gini left ;;
  gini_right <- gini right ;;
  Ok (fsub (fsub current_uncertainty (fmul prob_left gini_left))
           (fmul prob_right gini_right)).

Section SplitSearch.

Variable order : set_order.

(** The body of the inner loop of [find_best_split] for the candidate [q];
    the loop state is [(most_gain, best_question)]. *)
Definition consider (self : Tree) (rows : list row) (current_gini : Q)
  (st : Q * option Question) (q : Question) : result (Q * option Question) :=
  '(true_rows, false_rows) <- partition rows q ;;
  if Qlt_bool (len true_rows) (stopping_criteria self)
     || Qlt_bool (len false_rows) (stopping_criteria self)
  then Ok st
  else
    g <- info_gain true_rows false_rows current_gini ;;
    if Qle_bool (fst st) g then Ok (g, Some q) else Ok st.

(** [Tree.find_best_split] *)
Definition find_best_split (self : Tree) (rows : list row)
  : result (Q * option Question) :=
  current_gini <- gini rows ;;
  first <- getitem rows 0 ;;
  for_each (seq 0 (length first - 1))
    (fun st col =>
       column <- map_each (fun r => getitem r col) rows ;;
       for_each (order column)
         (fun st val => consider self rows current_gini st (mkQuestion col val))
         st)
    (0, None).

(** [Tree.build]; [fuel] bounds the depth of the recursion.  When the gain
    is not 0 the rows are not empty ([rows[0]] was read), so a [None]
    question would raise in the first iteration of [partition]. *)
Fixpoint build (fuel : nat) (self : Tree) (rows : list row) : result Node :=
  match fuel with
  | O => Timeout
  | S fuel' =>
      '(gain, question) <- find_best_split self rows ;;
      if Qeq_bool gain 0 then Node_init 0 (Some rows) None None None
      else
        q <- match question with
             | Some q => Ok q
             | None => Raise AttributeError
             end ;;
        '(true_rows, false_rows) <- partition rows q ;;
        true_branch <- build fuel' self true_rows ;;
        false_branch <- build fuel' self false_rows ;;
        Node_init 1 None (Some q) (Some true_branch) (Some false_branch)
  end.

End SplitSearch.

(** [Tree.classify]; [None] has no attribute [is_decision]. *)
Fixpoint classify (r : row) (node : Node) : result Q :=
  match node with
  | Leaf predictions => Ok (top_pick predictions)
  | Decision question true_branch false_branch =>
      m <- match question with
           | Some q => match_ q r
           | None => Raise AttributeError
           end ;;
      match (if m then true_branch else false_branch) with
      | Some child => classify r child
      | None => Raise AttributeError
      end
  end.

Definition classify_root (r : row) (node : option Node) : result Q :=
  match node with
  | Some n => classify r n
  | None => Raise AttributeError
  end.

(** ** Tree: fit, score, predict *)

Definition set_stopping_criteria (self : Tree) (v : Q) : Tree :=
  mkTree v (root_node self) (feature_indices self).

Definition set_root_node (self : Tree) (v : option Node) : Tree :=
  mkTree (stopping_criteria self) v (feature_indices self).

Definition set_feature_indices (self : Tree) (v : list nat) : Tree :=
  mkTree (stopping_criteria self) (root_node self) (Some v).

(** [merged_train[i] = np.append(x[i], y[i])] for a row of [width] cells:
    numpy copies a value of the same length, broadcasts a value of length 1
    and raises [ValueError] on any other length. *)
Definition assign_row (width : nat) (cells : list Q) : result row :=
  if (length cells =? width)%nat then Ok cells
  else match cells with
       | [c] => Ok (repeat c width)
       | _ => Raise ValueError
       end.

(** The merging loop of [Tree.fit]; [x[0]] raises on an empty [x]. *)
Definition merge_train (x : list (list Q)) (y : list Q) : result (list row) :=
  first <- getitem x 0 ;;
  map_each (fun i =>
              xi <- getitem x i ;;
              yi <- getitem y i ;;
              assign_row (length first + 1) (xi ++ [yi]))
           (seq 0 (length x)).

Section Fit.

Variable order : set_order.

(** [Tree.fit]: the tree after the call, and how the call ended.  The
    recursion of [build] is given fuel [length merged_train]. *)
Definition fit (self : Tree) (x : list (list Q)) (y : list Q)
  (stopping_criteria : Q) : Tree * result unit :=
  match merge_train x y with
  | Ok merged_train =>
      let self1 :=
        set_stopping_criteria self
          (if negb (Qeq_bool stopping_criteria 0) then stopping_criteria
           else len merged_train / 10) in
      match build order (length merged_train) self1 merged_train with
      | Ok root => (set_root_node self1 (Some root), Ok tt)
      | Raise e => (self1, Raise e)
      | Timeout => (self1, Timeout)
      end
  | Raise e => (self, Raise e)
  | Timeout => (self, Timeout)
  end.

End Fit.

(** The counting loop shared by [Tree.score] and [Tree.predict]. *)
Definition count_correct (self : Tree) (x : list (list Q)) (y : list Q)
  : result nat :=
  for_each (seq 0 (length x))
    (fun correct i =>
       xi <- getitem x i ;;
       c <- classify_root xi (root_node self) ;;
       yi <- getitem y i ;;
       if Qeq_bool c yi then Ok (S correct) else Ok correct)
    0%nat.

(** [Tree.score] *)
Definition score (self : Tree) (x : list (list Q)) (y : list Q) : result Q :=
  correct <- count_correct self x y ;;
  pydiv (count_Q correct) (len x).

(** What a Python call returns when it returns no number: [None] or an
    array. *)
Inductive pyvalue : Type :=
| PyNone
| PyArray (a : list Q).

(** The line [Tree.predict] prints: [N], [C] and the percentage. *)
Record printed : Type := mkPrinted { p_n : nat; p_correct : nat; p_percent : Q }.

(** [Tree.predict(x, y)]: prints one line and falls off the end of the
    function, so it returns [None]. *)
Definition predict (self : Tree) (x : list (list Q)) (y : list Q)
  : result (printed * pyvalue) :=
  correct <- count_correct self x y ;;
  ratio <- pydiv (count_Q correct) (len x) ;;
  Ok (mkPrinted (length x) correct (ratio * 100), PyNone).

(** [Tree.random_forest_predict]: [x[i]] for [i] in [range(len(x))]
    enumerates the rows of [x]. *)
Definition random_forest_predict (self : Tree) (x : list (list Q))
  : result (list Q) :=
  map_each (fun xi => classify_root xi (root_node self)) x.

(** ** RandomForest *)

Record RandomForest : Type := mkRandomForest {
  n_trees : nat;
  max_features : option nat;
  forest_stopping_criteria : Q;
  the_forest : list Tree
}.

(** [RandomForest.__init__(n_trees = 10, max_features = None,
    stopping_criteria = 0)] *)
Definition RandomForest_init (n_trees : nat) (max_features : option nat)
  (stopping_criteria : Q) : RandomForest :=
  mkRandomForest n_trees max_features stopping_criteria
    (repeat (Tree_init 0) n_trees).

(** [x[:, idx]]: the columns [idx] of every row, in the order of [idx]. *)
Definition take_columns (x : list (list Q)) (idx : list nat)
  : result (list (list Q)) :=
  map_each (fun r => map_each (fun j => getitem r j) idx) x.

(** [l[i] = v] inside the bounds of [l]. *)
Fixpoint set_nth {A : Type} (i : nat) (v : A) (l : list A) : list A :=
  match l, i with
  | [], _ => []
  | _ :: l', O => v :: l'
  | a :: l', S i' => a :: set_nth i' v l'
  end.

(** [predictions[:, i] = prediction], the shapes agreeing. *)
Fixpoint set_column (i : nat) (prediction : list Q) (predictions : list (list Q))
  : list (list Q) :=
  match predictions, prediction with
  | r :: rs, v :: vs => set_nth i v r :: set_column i vs rs
  | _, _ => predictions
  end.

(** The first loop of [RandomForest.predict]; the loop state is
    [(i, predictions)], as [enumerate] numbers the trees. *)
Definition collect_predictions (forest : list Tree) (x : list (list Q))
  : result (list (list Q)) :=
  st <- for_each forest
          (fun (st : nat * list (list Q)) tree =>
             let '(i, predictions) := st in
             idx <- match feature_indices tree with
                    | Some idx => Ok idx
                    | None => Raise AttributeError
                    end ;;
             x_idx <- take_columns x idx ;;
             prediction <- random_forest_predict tree x_idx ;;
             Ok (S i, set_column i prediction predictions))
          (0%nat, repeat (repeat 0 (length forest)) (length x)) ;;
  Ok (snd st).

(** [np.unique(a, return_counts=True)]: the distinct values of [a] in
    ascending order, each with the number of its occurrences; built by
    insertion into the sorted histogram. *)
Fixpoint unique_insert (v : Q) (u : list (Q * nat)) : list (Q * nat) :=
  match u with
  | [] => [(v, 1%nat)]
  | (k, c) :: rest =>
      if Qeq_bool v k then (k, S c) :: rest
      else if Qle_bool v k then (v, 1%nat) :: (k, c) :: rest
      else (k, c) :: unique_insert v rest
  end.

Definition np_unique (a : list Q) : list Q * list nat :=
  let u := fold_right unique_insert [] a in
  (map fst u, map snd u).

(** The scan of the counts; the loop state is
    [(top_class_votes, top_class_index)]. *)
Fixpoint vote_scan (counts : list nat) (j : nat) (top_class_votes top_class_index : nat)
  : nat :=
  match counts with
  | [] => top_class_index
  | c :: rest =>
      if (top_class_votes <? c)%nat then vote_scan rest (S j) c j
      else vote_scan rest (S j) top_class_votes top_class_index
  end.

(** The body of the voting loop for one row of [predictions]. *)
Definition vote (row_predictions : list Q) : result Q :=
  let votes := np_unique row_predictions in
  if (length (fst votes) =? 1)%nat then getitem (fst votes) 0
  else getitem (fst votes) (vote_scan (snd votes) 0 0 0).

(** [RandomForest.predict] *)
Definition forest_predict (self : RandomForest) (x : list (list Q))
  : result (list Q) :=
  predictions <- collect_predictions (the_forest self) x ;;
  map_each vote predictions.

(** [RandomForest.score] *)
Definition forest_score (self : RandomForest) (x : list (list Q)) (y : list Q)
  : result Q :=
  predictions <- forest_predict self x ;;
  correct <- for_each (seq 0 (length x))
               (fun correct i =>
                  p <- getitem predictions i ;;
                  yi <- getitem y i ;;
                  if Qeq_bool p yi then Ok (S correct) else Ok correct)
               0%nat ;;
  pydiv (count_Q correct) (len x).

(** ** RandomForest: fit *)

(** The random numbers numpy hands out during one call of
    [RandomForest.fit]: the order in which [np.random.shuffle] leaves the
    rows, the index arrays [np.random.choice] returns in
    [get_random_subsets], one per subset, and those it returns in the loop of
    [fit], one per tree.  The [size] and the range of a choice are
    properties of these arrays, not computed by the model. *)
Record random_draws : Type := mkDraws {
  shuffle_order : list nat;
  row_choices : list (list nat);
  feature_choices : list (list nat)
}.

(** [a[idx]] for an index array [idx]. *)
Definition take_rows {A : Type} (a : list A) (idx : list nat) : result (list A) :=
  map_each (fun i => getitem a i) idx.

(** [np.concatenate((X, y.reshape((1, len(y))).T), axis=1)]: numpy raises
    [ValueError] unless [y] has one entry for every row of [X]. *)
Definition concatenate_column (X : list (list Q)) (y : list Q) : result (list row) :=
  if (length y =? length X)%nat
  then Ok (map (fun xy => fst xy ++ [snd xy]) (combine X y))
  else Raise ValueError.

(** What [np.random.choice(range(population), size, replace)] returns:
    [size] indices below [population], distinct when [replace] is false. *)
Definition numpy_choice (population size : nat) (replace : bool) (idx : list nat)
  : Prop :=
  length idx = size /\
  Forall (fun i => i < population)%nat idx /\
  (replace = false -> NoDup idx).

(** [len(idx)] in a call of [get_random_subsets]: all the samples with
    replacement, half of them without. *)
Definition subsample_size (n_samples : nat) (replacements : bool) : nat :=
  if replacements then n_samples else (n_samples / 2)%nat.

(** [get_random_subsets]: [X_y[idx][:, :-1]] drops the last cell of every
    chosen row and [X_y[idx][:, -1]] keeps it.  [replacements] reaches
    [np.random.choice] only: the [k]-th index array of [draws] is a
    [numpy_choice (length X) (subsample_size (length X) replacements)
    replacements]. *)
Definition get_random_subsets (draws : random_draws) (X : list (list Q)) (y : list Q)
  (n_subsets : nat) (replacements : bool)
  : result (list (list (list Q) * list Q)) :=
  X_y <- concatenate_column X y ;;
  X_y <- take_rows X_y (shuffle_order draws) ;;
  map_each (fun k =>
              idx <- getitem (row_choices draws) k ;;
              chosen <- take_rows X_y idx ;;
              Ok (map (fun r => removelast r) chosen, map (fun r => last r 0) chosen))
           (seq 0 n_subsets).

Section ForestFit.

Variable order : set_order.

(** [RandomForest.fit]: the forest after a call that returns.
    [np.shape(x)[1]] is the length of the first row and raises on an empty
    [x]; [not self.max_features] holds for [None] and for 0; [int(np.sqrt(n))]
    is the integer square root. *)
Definition forest_fit (draws : random_draws) (self : RandomForest)
  (x : list (list Q)) (y : list Q) : result RandomForest :=
  first <- getitem x 0 ;;
  let n_features := length first in
  let max_features :=
    match max_features self with
    | Some (S k) => S k
    | _ => Nat.sqrt n_features
    end in
  subsets <- get_random_subsets draws x y (n_trees self) true ;;
  forest <- for_each (seq 0 (n_trees self))
              (fun forest i =>
                 subset <- getitem subsets i ;;
                 idx <- getitem (feature_choices draws) i ;;
                 tree <- getitem forest i ;;
                 x_subset <- take_columns (fst subset) idx ;;
                 match fit order (set_feature_indices tree idx) x_subset (snd subset)
                         (forest_stopping_criteria self) with
                 | (tree', Ok _) => Ok (set_nth i tree' forest)
                 | (_, Raise e) => Raise e
                 | (_, Timeout) => Timeout
                 end)
              (the_forest self) ;;
  Ok (mkRandomForest (n_trees self) (Some max_features)
        (forest_stopping_criteria self) forest).

End ForestFit.

(** * Specification-level definitions *)

(** Pure counterparts of the source functions, the predicates the
    properties are stated with, and the inputs of the examples. *)

(** The labels of the rows, for rows that have one. *)
Definition labels (rows : list row) : list Q := map (fun r => last r 0) rows.

(** The histogram after the labels [ls] are counted into [counts]. *)
Definition count_into (counts : dict) (ls : list Q) : dict :=
  fold_left (fun d l => dict_incr l d) ls counts.

(** How many of the labels [ls] equal [l]. *)
Definition occurrences (l : Q) (ls : list Q) : nat :=
  length (filter (fun l' => Qeq_bool l' l) ls).

(** The count recorded for [l], 0 when [l] is not a key. *)
Fixpoint lookup (l : Q) (d : dict) : nat :=
  match d with
  | [] => 0
  | (k, c) :: rest => if Qeq_bool k l then c else lookup l rest
  end.

Definition keys (d : dict) : list Q := map fst d.
Definition total (d : dict) : nat := list_sum (map snd d).
Definition sum_squares (d : dict) : nat := list_sum (map (fun kc => snd kc * snd kc)%nat d).

Definition Qsum (l : list Q) : Q := fold_right Qplus 0 l.

(** The sum over the keys [K] of the squared number of occurrences in [l]. *)
Definition square_occurrences (K l : list Q) : nat :=
  list_sum (map (fun k => occurrences k l * occurrences k l)%nat K).

Definition distinct_labels (rows : list row) : list Q := first_seen_list (labels rows).

(** Where [match_] sends a row that is long enough. *)
Definition goes_true (q : Question) (r : row) : bool :=
  Qle_bool (value q) (nth (feature q) r 0).

Definition column (col : nat) (rows : list row) : list Q :=
  map (fun r => nth col r 0) rows.

(** [len(rows[0]) - 1] *)
Definition n_features (rows : list row) : nat := length (hd [] rows) - 1.

(** Rows of a matrix with [F] feature columns and the label column. *)
Definition rectangular (F : nat) (rows : list row) : Prop :=
  Forall (fun r => length r = S F) rows.

(** The candidate questions, in the order the two loops visit them. *)
Definition candidates (order : set_order) (rows : list row) : list Question :=
  flat_map (fun col => map (mkQuestion col) (order (column col rows)))
           (seq 0 (n_features rows)).

(** What the loop body computes for a candidate before it compares:
    [None] when the candidate is skipped by [continue], its gain
    otherwise. *)
Definition eligible_gain (self : Tree) (rows : list row) (current_gini : Q)
  (q : Question) : result (option Q) :=
  '(true_rows, false_rows) <- partition rows q ;;
  if Qlt_bool (len true_rows) (stopping_criteria self)
     || Qlt_bool (len false_rows) (stopping_criteria self)
  then Ok None
  else g <- info_gain true_rows false_rows current_gini ;; Ok (Some g).

Definition record_best (st : Q * option Question) (q : Question) (og : option Q)
  : Q * option Question :=
  match og with
  | None => st
  | Some g => if Qle_bool (fst st) g then (g, Some q) else st
  end.

(** The loop invariant of the search over the candidates [visited]:
    [most_gain] is not negative and bounds the gain of every visited
    candidate that was not skipped; [best_question] is the candidate whose
    gain [most_gain] is, or [None] while every such gain is negative. *)
Definition best_so_far (self : Tree) (rows : list row) (g0 : Q)
  (visited : list Question) (st : Q * option Question) : Prop :=
  0 <= fst st /\
  (forall q v, In q visited -> eligible_gain self rows g0 q = Ok (Some v) -> v <= fst st) /\
  match snd st with
  | None =>
      fst st = 0 /\
      forall q v, In q visited -> eligible_gain self rows g0 q = Ok (Some v) -> v < 0
  | Some q => In q visited /\ eligible_gain self rows g0 q = Ok (Some (fst st))
  end.

(** Some candidate passes the row-count floor. *)
Definition has_eligible_candidate (order : set_order) (self : Tree)
  (rows : list row) (g0 : Q) : Prop :=
  exists q v, In q (candidates order rows) /\
              eligible_gain self rows g0 q = Ok (Some v).


Fixpoint depth (node : Node) : nat :=
  match node with
  | Leaf _ => 0
  | Decision _ true_branch false_branch =>
      S (Nat.max (match true_branch with Some n => depth n | None => 0 end)
                 (match false_branch with Some n => depth n | None => 0 end))
  end.

(** How [build] derives a node from the rows it is given. *)
Inductive Built (order : set_order) (self : Tree) : list row -> Node -> Prop :=
| Built_leaf rows gain question predictions :
    find_best_split order self rows = Ok (gain, question) ->
    gain == 0 ->
    class_counts rows = Ok predictions ->
    Built order self rows (Leaf predictions)
| Built_decision rows gain q true_rows false_rows true_branch false_branch :
    find_best_split order self rows = Ok (gain, Some q) ->
    ~ gain == 0 ->
    partition rows q = Ok (true_rows, false_rows) ->
    Built order self true_rows true_branch ->
    Built order self false_rows false_branch ->
    Built order self rows (Decision (Some q) (Some true_branch) (Some false_branch)).

(** [branches_filled sc rows node]: in the tree [node] built from [rows],
    every decision node has a question and two branches, and the two sides
    of its partition, which are the rows its branches were built from, hold
    at least [sc] rows each. *)
Inductive branches_filled (sc : Q) : list row -> Node -> Prop :=
| filled_leaf rows predictions :
    branches_filled sc rows (Leaf predictions)
| filled_decision rows q true_rows false_rows true_branch false_branch :
    partition rows q = Ok (true_rows, false_rows) ->
    sc <= len true_rows ->
    sc <= len false_rows ->
    branches_filled sc true_rows true_branch ->
    branches_filled sc false_rows false_branch ->
    branches_filled sc rows (Decision (Some q) (Some true_branch) (Some false_branch)).

(** [splits_shrink sc rows node]: at every decision node of the tree built
    from [rows], each side of the partition is strictly smaller than the
    rows partitioned, by at least [sc] rows. *)
Inductive splits_shrink (sc : Q) : list row -> Node -> Prop :=
| shrink_leaf rows predictions :
    splits_shrink sc rows (Leaf predictions)
| shrink_decision rows q true_rows false_rows true_branch false_branch :
    partition rows q = Ok (true_rows, false_rows) ->
    (length true_rows < length rows)%nat ->
    (length false_rows < length rows)%nat ->
    len true_rows <= len rows - sc ->
    len false_rows <= len rows - sc ->
    splits_shrink sc true_rows true_branch ->
    splits_shrink sc false_rows false_branch ->
    splits_shrink sc rows (Decision (Some q) (Some true_branch) (Some false_branch)).

(** The number of recursive calls [classify] makes on [r] from [node]. *)
Fixpoint classify_calls (r : row) (node : Node) : nat :=
  match node with
  | Leaf _ => 0
  | Decision question true_branch false_branch =>
      match (match question with
             | Some q => match_ q r
             | None => Raise AttributeError
             end) with
      | Ok m =>
          match (if m then true_branch else false_branch) with
          | Some child => S (classify_calls r child)
          | None => 0
          end
      | _ => 0
      end
  end.

(** [subnode n root]: [n] is [root] or a node below it. *)
Inductive subnode : Node -> Node -> Prop :=
| subnode_refl n : subnode n n
| subnode_true n q t f : subnode n t -> subnode n (Decision q (Some t) f)
| subnode_false n q t f : subnode n f -> subnode n (Decision q t (Some f)).

(** The shape of the trees [build] returns on a matrix with [F] features:
    leaves hold a non-empty histogram of positive counts, decision nodes
    hold a question on one of the features and two branches. *)
Inductive well_formed (F : nat) : Node -> Prop :=
| wf_leaf predictions :
    predictions <> [] ->
    Forall (fun kc => (0 < snd kc)%nat) predictions ->
    well_formed F (Leaf predictions)
| wf_decision q true_branch false_branch :
    (feature q < F)%nat ->
    well_formed F true_branch ->
    well_formed F false_branch ->
    well_formed F (Decision (Some q) (Some true_branch) (Some false_branch)).

(** [l] is the key of the first entry of [d] whose count is the highest. *)
Definition first_maximum (d : dict) (l : Q) : Prop :=
  exists before c after,
    d = before ++ (l, c) :: after /\
    Forall (fun kc => (snd kc < c)%nat) before /\
    Forall (fun kc => (snd kc <= c)%nat) after.

(** The stopping criterion [fit] resolves for [n] merged rows. *)
Definition resolved_criteria (stopping_criteria : Q) (n : nat) : Q :=
  if negb (Qeq_bool stopping_criteria 0) then stopping_criteria
  else count_Q n / 10.

(** What one tree contributes to the matrix: its predictions on the columns
    it was trained on. *)
Definition tree_votes (tree : Tree) (x : list (list Q)) : result (list Q) :=
  idx <- match feature_indices tree with
         | Some idx => Ok idx
         | None => Raise AttributeError
         end ;;
  x_idx <- take_columns x idx ;;
  random_forest_predict tree x_idx.

(** Row [j] of the matrix: the prediction of every tree for row [j]. *)
Definition votes_of_row (per_tree : list (list Q)) (j : nat) : list Q :=
  map (fun p => nth j p 0) per_tree.

(** The sorted histogram [np.unique] is read from. *)
Definition sorted_hist (a : list Q) : list (Q * nat) := fold_right unique_insert [] a.

Definition ascending (u : list (Q * nat)) : Prop :=
  StronglySorted (fun e1 e2 => fst e1 < fst e2) u.

(** [w] occurs most often in [a], and is the least value that does. *)
Definition plurality_lowest (a : list Q) (w : Q) : Prop :=
  In w a /\
  (forall v, (occurrences v a <= occurrences w a)%nat) /\
  (forall v, In v a -> occurrences v a = occurrences w a -> w <= v).

(** A tree as the loop of [RandomForest.fit] leaves it, for a training
    matrix with [F] columns: [idx] was drawn from [range(F)] and stored,
    and the tree was fitted on the columns [idx] of its bootstrap sample. *)
Definition fitted_in_forest (order : set_order) (F : nat) (tree : Tree) : Prop :=
  exists tree0 idx x_subset y_subset sc,
    Forall (fun j => j < F)%nat idx /\
    Forall (fun r => length r = length idx) x_subset /\
    fit order (set_feature_indices tree0 idx) x_subset y_subset sc = (tree, Ok tt).



(** The only way the split search fails. *)
Definition fails_with_IndexError {A : Type} (m : result A) : Prop :=
  match m with
  | Ok _ => True
  | Raise e => e = IndexError
  | Timeout => False
  end.

(** The row sets [find_best_split] accepts: at least one row, every row
    with a label cell and with a cell for each feature column of the first
    row. *)
Definition searchable (rows : list row) : Prop :=
  rows <> [] /\
  Forall (fun r => r <> [] /\ (n_features rows <= length r)%nat) rows.

(** The histograms of the leaves of a tree, true side first. *)
Fixpoint leaves (node : Node) : list dict :=
  match node with
  | Leaf predictions => [predictions]
  | Decision _ true_branch false_branch =>
      match true_branch with Some n => leaves n | None => [] end
      ++ match false_branch with Some n => leaves n | None => [] end
  end.

(** The histogram of the leaf at which [classify] ends on [r]: the descent
    of [classify], returning [node.predictions] where [classify] returns
    [node.top_pick()]. *)
Fixpoint leaf_for (r : row) (node : Node) : result dict :=
  match node with
  | Leaf predictions => Ok predictions
  | Decision question true_branch false_branch =>
      m <- match question with
           | Some q => match_ q r
           | None => Raise AttributeError
           end ;;
      match (if m then true_branch else false_branch) with
      | Some child => leaf_for r child
      | None => Raise AttributeError
      end
  end.


(** The impurity as the specification writes it, on exact numbers: 1 minus
    the sum over the distinct labels of (count(label)/total) squared. *)
Definition gini_formula (rows : list row) : Q :=
  1 - Qsum (map (fun l => (count_Q (occurrences l (labels rows)) / len rows) ^ 2)
                (distinct_labels rows)).

(** [2^-53]: one rounding moves a number by at most this share of it. *)
Definition unit_roundoff : Q := pow2 (-53).

(** How far the roundings of [gini] can take it from [gini_formula]: three
    roundings for each distinct label. *)
Definition gini_error_bound (rows : list row) : Q :=
  (3 * count_Q (length (distinct_labels rows)) + 8) * unit_roundoff.

(** All the rows carry one label. *)
Definition pure (rows : list row) : Prop :=
  forall l1 l2, In l1 (labels rows) -> In l2 (labels rows) -> l1 == l2.

Definition sign_of (x : Q) : Q := if Qle_bool 0 x then 1 else -1.

(** The numbers rounding leaves alone: the binary64 numbers. *)
Definition representable (x : Q) : Prop := round64 x == x.

(** ** Inputs of the examples *)

(** Two rows with one label and two feature values, floor 1: the split
    [feature 0 >= 2] is eligible and gains exactly 0. *)
Definition two_alike_rows : list row := [[1; 0]; [2; 0]].

(** The four rows of the end-to-end example of the specification. *)
Definition four_rows : list row := [[1; 0]; [2; 0]; [3; 1]; [4; 1]].

Definition four_rows_tree : Node :=
  Decision (Some (mkQuestion 0 3)) (Some (Leaf [(1, 2%nat)])) (Some (Leaf [(0, 2%nat)])).

(** Two rows with the same feature value and different labels: every
    candidate split leaves one side empty. *)
Definition same_feature_rows : list row := [[5; 0]; [5; 1]].

Definition sample_three : row := [3].


Definition two_x : list (list Q) := [[1]; [2]].
Definition three_y : list Q := [0; 0; 1].
Definition four_x : list (list Q) := [[1]; [2]; [3]; [4]].
Definition four_y : list Q := [0; 0; 1; 1].

Definition voting_forest : RandomForest :=
  mkRandomForest 3 (Some 1%nat) 1
    [ mkTree 1 (Some (Leaf [(0, 2%nat)])) (Some [0%nat]);
      mkTree 1 (Some (Leaf [(1, 2%nat)])) (Some [0%nat]);
      mkTree 1 (Some (Leaf [(1, 1%nat)])) (Some [0%nat]) ].

Definition training_x : list (list Q) := [[1; 10]; [2; 20]; [3; 30]; [4; 40]].

Definition training_draws : random_draws :=
  mkDraws [3; 1; 0; 2]%nat
          [[0; 1; 2; 3]; [0; 0; 1; 1]; [3; 2; 2; 1]]%nat
          [[0]; [1]; [1]]%nat.


(** The forest [RandomForest.fit] leaves on [training_x], [four_y] with the
    draws [training_draws]. *)
Definition training_forest : RandomForest :=
  mkRandomForest 3 (Some 1%nat) 1
    [ mkTree 1 (Some (Decision (Some (mkQuestion 0 3))
                        (Some (Leaf [(1, 2%nat)])) (Some (Leaf [(0, 2%nat)]))))
        (Some [0%nat]);
      mkTree 1 (Some (Decision (Some (mkQuestion 0 40))
                        (Some (Leaf [(1, 2%nat)])) (Some (Leaf [(0, 2%nat)]))))
        (Some [1%nat]);
      mkTree 1 (Some (Decision (Some (mkQuestion 0 30))
                        (Some (Leaf [(1, 1%nat)])) (Some (Leaf [(0, 3%nat)]))))
        (Some [1%nat]) ].

(** Eleven rows with eleven labels. *)
Definition eleven_rows : list row :=
  [[0; 0]; [0; 1]; [0; 2]; [0; 3]; [0; 4]; [0; 5]; [0; 6]; [0; 7]; [0; 8]; [0; 9];
   [0; 10]].

(** Six rows whose only split with three rows on each side gains nothing on
    exact numbers and less than nothing in binary64. *)
Definition rounding_rows : list row :=
  [[1; 0]; [2; 1]; [3; 1]; [4; 1]; [5; 0]; [6; 1]].

(** Three rows with two labels, and the same rows in another order. *)
Definition three_rows : list row := [[1; 0]; [2; 0]; [3; 1]].
Definition three_rows_permuted : list row := [[3; 1]; [1; 0]; [2; 0]].

(** Three rows on which two splits gain the same on exact numbers. *)
Definition descending_rows : list row := [[3; 0]; [2; 1]; [1; 0]].

(** Six rows, two features: the split on feature 1 leaves each side with the
    label proportions of the whole. *)
Definition balanced_rows : list row :=
  [[0; 0; 0]; [0; 0; 0]; [0; 1; 1]; [1; 0; 1]; [1; 1; 0]; [1; 1; 0]].

(** * Properties *)

(** ** The error monad *)

Lemma bind_Ok_inv {A B : Type} (m : result A) (k : A -> result B) (b : B) :
  bind m k = Ok b -> exists a, m = Ok a /\ k a = Ok b.
Proof.
  destruct m as [a | e | ]; simpl; intros H; try discriminate.
  exists a; split; [reflexivity | exact H].
Qed.

(** Inverts a hypothesis [... ;; ... = Ok _] one binding at a time. *)
Ltac inv_bind H :=
  let a := fresh "v" in
  let Ha := fresh "Hv" in
  apply bind_Ok_inv in H; destruct H as (a & Ha & H).

Ltac inv_bind_as H a Ha :=
  apply bind_Ok_inv in H; destruct H as (a & Ha & H).

Lemma Qeq_bool_sym (a b : Q) : Qeq_bool a b = Qeq_bool b a.
Proof.
  destruct (Qeq_bool a b) eqn:E1, (Qeq_bool b a) eqn:E2; try reflexivity.
  - apply Qeq_bool_iff in E1. symmetry in E1. apply Qeq_bool_iff in E1. congruence.
  - apply Qeq_bool_iff in E2. symmetry in E2. apply Qeq_bool_iff in E2. congruence.
Qed.

Lemma Qeq_bool_false_iff (a b : Q) : Qeq_bool a b = false <-> ~ a == b.
Proof.
  split.
  - intros E H. apply Qeq_bool_iff in H. congruence.
  - intros H. destruct (Qeq_bool a b) eqn:E; [|reflexivity].
    apply Qeq_bool_iff in E. contradiction.
Qed.

Lemma Qlt_bool_iff (a b : Q) : Qlt_bool a b = true <-> a < b.
Proof.
  unfold Qlt_bool. rewrite negb_true_iff. split.
  - intros E. apply Qnot_le_lt. intros H. apply Qle_bool_iff in H. congruence.
  - intros H. destruct (Qle_bool b a) eqn:E; [|reflexivity].
    apply Qle_bool_iff in E. apply Qle_not_lt in E. contradiction.
Qed.

Lemma Qlt_bool_false_iff (a b : Q) : Qlt_bool a b = false <-> b <= a.
Proof.
  unfold Qlt_bool. rewrite negb_false_iff. apply Qle_bool_iff.
Qed.

(** ** [first_seen]: one iteration order for sets *)

Lemma mem_Q_true_iff (x : Q) (l : list Q) :
  mem_Q x l = true <-> exists y, In y l /\ y == x.
Proof.
  unfold mem_Q. rewrite existsb_exists. split.
  - intros (y & Hy & E). exists y. split; [exact Hy|]. now apply Qeq_bool_iff.
  - intros (y & Hy & E). exists y. split; [exact Hy|]. now apply Qeq_bool_iff.
Qed.

Lemma first_seen_from_sound (l seen : list Q) (y : Q) :
  In y (first_seen_from seen l) -> In y l.
Proof.
  revert seen. induction l as [|x l IH]; simpl; intros seen H; [exact H|].
  destruct (mem_Q x seen).
  - right. eapply IH. exact H.
  - destruct H as [H|H]; [now left | right; eapply IH; exact H].
Qed.

Lemma first_seen_from_complete (l seen : list Q) (x : Q) :
  In x l ->
  mem_Q x seen = true \/ exists y, In y (first_seen_from seen l) /\ y == x.
Proof.
  revert seen. induction l as [|a l IH]; simpl; intros seen H; [contradiction|].
  destruct H as [->|H].
  - destruct (mem_Q x seen) eqn:E; [now left|].
    right. exists x. split; [now left | reflexivity].
  - destruct (mem_Q a seen) eqn:E.
    + apply IH. exact H.
    + destruct (IH (a :: seen) H) as [M|(y & Hy & Ey)].
      * simpl in M. apply orb_true_iff in M. destruct M as [M|M].
        -- right. exists a. split; [now left | now apply Qeq_bool_iff].
        -- now left.
      * right. exists y. split; [now right | exact Ey].
Qed.

Lemma first_seen_from_fresh (l seen : list Q) (y : Q) :
  In y (first_seen_from seen l) -> mem_Q y seen = false.
Proof.
  revert seen. induction l as [|a l IH]; simpl; intros seen H; [contradiction|].
  destruct (mem_Q a seen) eqn:E.
  - apply IH. exact H.
  - destruct H as [<-|H]; [exact E|].
    apply IH in H. simpl in H. apply orb_false_iff in H. tauto.
Qed.

Lemma first_seen_from_distinct (l seen : list Q) :
  NoDupA Qeq (first_seen_from seen l).
Proof.
  revert seen. induction l as [|a l IH]; simpl; intros seen; [constructor|].
  destruct (mem_Q a seen) eqn:E; [apply IH|].
  constructor; [|apply IH].
  intros H. apply InA_alt in H. destruct H as (y & Ey & Hy).
  apply first_seen_from_fresh in Hy. simpl in Hy.
  apply orb_false_iff in Hy. destruct Hy as [Hy _].
  apply Qeq_bool_false_iff in Hy. contradiction.
Qed.

Lemma first_seen_complete (l : list Q) (x : Q) :
  In x l -> exists y, In y (first_seen_list l) /\ y == x.
Proof.
  intros H. destruct (first_seen_from_complete l [] x H) as [M|M]; [discriminate|exact M].
Qed.

Lemma first_seen_lawful : set_order_lawful first_seen.
Proof.
  split; [|split].
  - intros l. apply first_seen_from_sound.
  - apply first_seen_complete.
  - intros l. apply first_seen_from_distinct.
Qed.

(** ** Histograms *)

Lemma label_last (r : row) : r <> [] -> label r = Ok (last r 0).
Proof.
  intros H. unfold label.
  destruct (exists_last H) as (r' & a & ->).
  rewrite rev_app_distr, last_last. reflexivity.
Qed.

Lemma label_Ok_inv (r : row) (l : Q) : label r = Ok l -> r <> [] /\ l = last r 0.
Proof.
  intros H. destruct r as [|a r]; [discriminate|].
  split; [discriminate|].
  rewrite label_last in H by discriminate. now injection H.
Qed.

Lemma class_counts_from_spec (rows : list row) (counts : dict) :
  Forall (fun r => r <> []) rows ->
  class_counts_from counts rows = Ok (count_into counts (labels rows)).
Proof.
  intros H. revert counts. induction H as [|r rows Hr _ IH]; intros counts; simpl.
  - reflexivity.
  - rewrite (label_last r Hr). simpl. apply IH.
Qed.

Lemma class_counts_from_Ok_inv (rows : list row) (counts d : dict) :
  class_counts_from counts rows = Ok d ->
  Forall (fun r => r <> []) rows /\ d = count_into counts (labels rows).
Proof.
  revert counts. induction rows as [|r rows IH]; simpl; intros counts H.
  - split; [constructor | congruence].
  - inv_bind H. apply label_Ok_inv in Hv. destruct Hv as [Hr ->].
    apply IH in H. destruct H as [Hrows ->]. split; [now constructor | reflexivity].
Qed.

Lemma class_counts_spec (rows : list row) :
  Forall (fun r => r <> []) rows ->
  class_counts rows = Ok (count_into [] (labels rows)).
Proof. apply class_counts_from_spec. Qed.

Lemma dict_incr_nonempty (l : Q) (d : dict) : dict_incr l d <> [].
Proof. destruct d as [|[k c] d]; simpl; [|destruct (Qeq_bool k l)]; discriminate. Qed.

Lemma count_into_nonempty (ls : list Q) (d : dict) :
  d <> [] \/ ls <> [] -> count_into d ls <> [].
Proof.
  revert d. induction ls as [|l ls IH]; simpl; intros d H.
  - destruct H as [H|H]; [exact H | congruence].
  - apply IH. left. apply dict_incr_nonempty.
Qed.

Lemma total_dict_incr (l : Q) (d : dict) : total (dict_incr l d) = S (total d).
Proof.
  unfold total. induction d as [|[k c] d IH]; simpl; [reflexivity|].
  destruct (Qeq_bool k l); simpl; [reflexivity|]. rewrite IH. lia.
Qed.

Lemma total_count_into (ls : list Q) (d : dict) :
  total (count_into d ls) = (total d + length ls)%nat.
Proof.
  revert d. induction ls as [|l ls IH]; simpl; intros d; [lia|].
  rewrite IH, total_dict_incr. lia.
Qed.

Lemma positive_dict_incr (l : Q) (d : dict) :
  Forall (fun kc => (0 < snd kc)%nat) d ->
  Forall (fun kc => (0 < snd kc)%nat) (dict_incr l d).
Proof.
  induction 1 as [|[k c] d Hc Hd IH]; simpl.
  - repeat constructor.
  - destruct (Qeq_bool k l); constructor; simpl in *; try lia; assumption.
Qed.

Lemma positive_count_into (ls : list Q) (d : dict) :
  Forall (fun kc => (0 < snd kc)%nat) d ->
  Forall (fun kc => (0 < snd kc)%nat) (count_into d ls).
Proof.
  revert d. induction ls as [|l ls IH]; simpl; intros d H; [exact H|].
  apply IH, positive_dict_incr, H.
Qed.

Lemma lookup_dict_incr (l l' : Q) (d : dict) :
  NoDupA Qeq (keys d) ->
  lookup l' (dict_incr l d) =
  ((if Qeq_bool l l' then 1 else 0) + lookup l' d)%nat.
Proof.
  induction d as [|[k c] d IH]; simpl; intros ND.
  - destruct (Qeq_bool l l'); reflexivity.
  - inversion ND as [|? ? Hk ND']; subst.
    destruct (Qeq_bool k l) eqn:Ekl; simpl.
    + apply Qeq_bool_iff in Ekl.
      destruct (Qeq_bool k l') eqn:Ekl'.
      * apply Qeq_bool_iff in Ekl'.
        assert (E : Qeq_bool l l' = true)
          by (apply Qeq_bool_iff; rewrite <- Ekl; exact Ekl').
        rewrite E. reflexivity.
      * assert (E : Qeq_bool l l' = false).
        { apply Qeq_bool_false_iff. apply Qeq_bool_false_iff in Ekl'.
          intros E. apply Ekl'. rewrite Ekl. exact E. }
        rewrite E. reflexivity.
    + destruct (Qeq_bool k l') eqn:Ekl'.
      * assert (E : Qeq_bool l l' = false).
        { apply Qeq_bool_false_iff. apply Qeq_bool_false_iff in Ekl.
          apply Qeq_bool_iff in Ekl'. intros E. apply Ekl. rewrite E. exact Ekl'. }
        rewrite E. reflexivity.
      * apply IH. exact ND'.
Qed.

Lemma keys_dict_incr_InA (l x : Q) (d : dict) :
  InA Qeq x (keys (dict_incr l d)) -> x == l \/ InA Qeq x (keys d).
Proof.
  induction d as [|[k c] d IH]; simpl; intros H.
  - inversion H as [? ? E|? ? E]; subst; [now left | inversion E].
  - destruct (Qeq_bool k l); simpl in H.
    + right. exact H.
    + inversion H as [? ? E|? ? E]; subst.
      * right. now constructor.
      * destruct (IH E) as [E'|E']; [now left | right; now constructor 2].
Qed.

Lemma nodup_dict_incr (l : Q) (d : dict) :
  NoDupA Qeq (keys d) -> NoDupA Qeq (keys (dict_incr l d)).
Proof.
  induction d as [|[k c] d IH]; simpl; intros ND.
  - repeat constructor. intros H. inversion H.
  - inversion ND as [|? ? Hk ND']; subst.
    destruct (Qeq_bool k l) eqn:Ekl; simpl.
    + constructor; assumption.
    + constructor; [|apply IH; exact ND'].
      intros H. apply keys_dict_incr_InA in H. destruct H as [H|H].
      * apply Qeq_bool_false_iff in Ekl. contradiction.
      * contradiction.
Qed.

Lemma nodup_count_into (ls : list Q) (d : dict) :
  NoDupA Qeq (keys d) -> NoDupA Qeq (keys (count_into d ls)).
Proof.
  revert d. induction ls as [|l ls IH]; simpl; intros d H; [exact H|].
  apply IH, nodup_dict_incr, H.
Qed.

Lemma lookup_count_into (ls : list Q) (d : dict) (l : Q) :
  NoDupA Qeq (keys d) ->
  lookup l (count_into d ls) = (lookup l d + occurrences l ls)%nat.
Proof.
  revert d. induction ls as [|a ls IH]; simpl; intros d ND.
  - unfold occurrences. simpl. lia.
  - rewrite IH by (apply nodup_dict_incr; exact ND).
    rewrite lookup_dict_incr by exact ND.
    unfold occurrences. simpl. destruct (Qeq_bool a l); simpl; lia.
Qed.

Lemma lookup_entry (d : dict) (k : Q) (c : nat) :
  NoDupA Qeq (keys d) -> In (k, c) d -> lookup k d = c.
Proof.
  induction d as [|[k' c'] d IH]; simpl; intros ND H; [contradiction|].
  inversion ND as [|? ? Hk ND']; subst.
  destruct H as [H|H].
  - injection H as -> ->. rewrite (proj2 (Qeq_bool_iff k k)) by reflexivity. reflexivity.
  - destruct (Qeq_bool k' k) eqn:E; [|apply IH; assumption].
    exfalso. apply Hk. apply Qeq_bool_iff in E. apply InA_alt.
    exists k. split; [exact E|]. unfold keys. change k with (fst (k, c)).
    apply in_map. exact H.
Qed.

Lemma mem_Q_app (x : Q) (l1 l2 : list Q) : mem_Q x (l1 ++ l2) = mem_Q x l1 || mem_Q x l2.
Proof. unfold mem_Q. apply existsb_app. Qed.

Lemma first_seen_from_ext (l s1 s2 : list Q) :
  (forall x, mem_Q x s1 = mem_Q x s2) -> first_seen_from s1 l = first_seen_from s2 l.
Proof.
  revert s1 s2. induction l as [|a l IH]; simpl; intros s1 s2 H; [reflexivity|].
  rewrite (H a). destruct (mem_Q a s2); [apply IH; exact H|].
  f_equal. apply IH. intros x. simpl. rewrite (H x). reflexivity.
Qed.

Lemma keys_dict_incr (l : Q) (d : dict) :
  keys (dict_incr l d) = if mem_Q l (keys d) then keys d else keys d ++ [l].
Proof.
  induction d as [|[k c] d IH]; simpl; [reflexivity|].
  destruct (Qeq_bool k l); simpl; [reflexivity|].
  rewrite IH. fold (mem_Q l (keys d)). destruct (mem_Q l (keys d)); reflexivity.
Qed.

(** The keys of a histogram, in insertion order, are the distinct labels in
    order of first occurrence. *)
Lemma keys_count_into (ls : list Q) (d : dict) :
  keys (count_into d ls) = keys d ++ first_seen_from (keys d) ls.
Proof.
  revert d. induction ls as [|a ls IH]; simpl; intros d.
  - now rewrite app_nil_r.
  - rewrite IH, keys_dict_incr. destruct (mem_Q a (keys d)) eqn:E; [reflexivity|].
    rewrite <- app_assoc. simpl. do 2 f_equal.
    apply first_seen_from_ext. intros x. rewrite mem_Q_app. simpl.
    rewrite orb_false_r. apply orb_comm.
Qed.

Lemma counts_count_into (ls : list Q) :
  map snd (count_into [] ls) =
  map (fun l => occurrences l ls) (first_seen_list ls).
Proof.
  assert (ND : NoDupA Qeq (keys (count_into [] ls)))
    by (apply nodup_count_into; constructor).
  assert (K : keys (count_into [] ls) = first_seen_list ls)
    by apply keys_count_into.
  rewrite <- K. unfold keys. rewrite map_map. apply map_ext_in.
  intros [k c] H. simpl.
  rewrite <- (lookup_entry _ _ _ ND H).
  rewrite lookup_count_into by constructor. reflexivity.
Qed.

(** ** Sums of squares of counts *)

Lemma sum_squares_le (cs : list nat) :
  (list_sum (map (fun c => c * c) cs) <= list_sum cs * list_sum cs)%nat.
Proof. induction cs as [|c cs IH]; simpl; nia. Qed.

Lemma sum_squares_lt (cs : list nat) :
  Forall (fun c => 0 < c)%nat cs -> (2 <= length cs)%nat ->
  (list_sum (map (fun c => c * c) cs) < list_sum cs * list_sum cs)%nat.
Proof.
  intros H L. destruct H as [|c cs Hc Hcs]; simpl in *; [lia|].
  destruct Hcs as [|c' cs' Hc' Hcs']; simpl in *; [lia|].
  pose proof (sum_squares_le cs'). nia.
Qed.

Lemma cauchy_step (K x s t : Z) :
  (0 <= K)%Z -> (0 <= x)%Z -> (0 <= s)%Z -> (0 <= t)%Z ->
  (s * s <= K * t)%Z -> (K = 0 -> s = 0)%Z ->
  ((x + s) * (x + s) <= (K + 1) * (x * x + t))%Z.
Proof.
  intros HK Hx Hs Ht IH H0.
  destruct (Z.eq_dec K 0) as [E|E].
  - rewrite E, (H0 E). nia.
  - assert (Hsq : (0 <= (K * x - s) * (K * x - s))%Z) by apply Z.square_nonneg.
    assert (H2 : (K * (2 * x * s) <= K * (K * x * x + t))%Z) by lia.
    assert (H3 : (2 * x * s <= K * x * x + t)%Z)
      by (apply (Z.mul_le_mono_pos_l _ _ K); [lia | exact H2]).
    lia.
Qed.

Lemma sum_squares_cauchy (cs : list nat) :
  (list_sum cs * list_sum cs <= length cs * list_sum (map (fun c => c * c) cs))%nat.
Proof.
  induction cs as [|c cs IH]; [simpl; lia|].
  cbn [list_sum fold_right map length].
  change (fold_right Nat.add 0%nat cs) with (list_sum cs).
  change (fold_right Nat.add 0%nat (map (fun c => (c * c)%nat) cs))
    with (list_sum (map (fun c => (c * c)%nat) cs)).
  set (S := list_sum cs) in *.
  set (T := list_sum (map (fun c => (c * c)%nat) cs)) in *.
  assert (H0 : length cs = 0%nat -> S = 0%nat).
  { intros E. apply length_zero_iff_nil in E. subst cs. reflexivity. }
  pose proof (cauchy_step (Z.of_nat (length cs)) (Z.of_nat c) (Z.of_nat S) (Z.of_nat T)) as P.
  assert (R : ((Z.of_nat c + Z.of_nat S) * (Z.of_nat c + Z.of_nat S)
               <= (Z.of_nat (length cs) + 1) * (Z.of_nat c * Z.of_nat c + Z.of_nat T))%Z).
  { apply P; try lia. }
  lia.
Qed.

(** ** Counts as rationals *)

Lemma count_Q_le (a b : nat) : (a <= b)%nat <-> count_Q a <= count_Q b.
Proof. unfold count_Q. rewrite <- Zle_Qle. lia. Qed.

Lemma count_Q_lt (a b : nat) : (a < b)%nat <-> count_Q a < count_Q b.
Proof. unfold count_Q. rewrite <- Zlt_Qlt. lia. Qed.

Lemma count_Q_eq (a b : nat) : a = b <-> count_Q a == count_Q b.
Proof. unfold count_Q. rewrite inject_Z_injective. lia. Qed.

Lemma count_Q_mult (a b : nat) : count_Q (a * b) == count_Q a * count_Q b.
Proof. unfold count_Q. rewrite Nat2Z.inj_mul, inject_Z_mult. reflexivity. Qed.

Lemma count_Q_plus (a b : nat) : count_Q (a + b) == count_Q a + count_Q b.
Proof. unfold count_Q. rewrite Nat2Z.inj_add, inject_Z_plus. reflexivity. Qed.

Lemma count_Q_pos (a : nat) : (0 < a)%nat -> 0 < count_Q a.
Proof. intros H. change 0 with (count_Q 0). now apply count_Q_lt. Qed.

Lemma count_Q_nonneg (a : nat) : 0 <= count_Q a.
Proof. change 0 with (count_Q 0). apply count_Q_le. lia. Qed.

Lemma len_pos {A : Type} (xs : list A) : xs <> [] -> 0 < len xs.
Proof.
  intros H. apply (count_Q_pos (length xs)).
  destruct xs; [congruence | simpl; lia].
Qed.

Lemma pydiv_Ok (a b : Q) : ~ b == 0 -> pydiv a b = Ok (a / b).
Proof.
  intros H. unfold pydiv. apply Qeq_bool_false_iff in H. rewrite H. reflexivity.
Qed.


(** ** Rounding to binary64 *)

Lemma pow2_pos (e : Z) : 0 < pow2 e.
Proof. unfold pow2. apply Qpower_0_lt. reflexivity. Qed.

Lemma pow2_add (a b : Z) : pow2 (a + b) == pow2 a * pow2 b.
Proof. unfold pow2. apply Qpower_plus. discriminate. Qed.

Lemma pow2_lt_inv (a b : Z) : pow2 a < pow2 b -> (a < b)%Z.
Proof. unfold pow2. intros H. eapply Qpower_lt_compat_l_inv; [exact H | reflexivity]. Qed.

Lemma pow2_le (a b : Z) : (a <= b)%Z -> pow2 a <= pow2 b.
Proof. unfold pow2. intros H. apply Qpower_le_compat_l; [exact H | discriminate]. Qed.

Lemma pow2_lt (a b : Z) : (a < b)%Z -> pow2 a < pow2 b.
Proof. unfold pow2. intros H. apply Qpower_lt_compat_l; [exact H | reflexivity]. Qed.

Lemma pow2_Z (n : Z) : (0 <= n)%Z -> inject_Z (2 ^ n) == pow2 n.
Proof. intros H. unfold pow2. apply (Zpower_Qpower 2 n H). Qed.

Lemma pow2_succ (a : Z) : pow2 (a + 1) == 2 * pow2 a.
Proof. rewrite pow2_add. unfold pow2 at 2. simpl. ring. Qed.

Lemma log2_bounds (n : Z) :
  (0 < n)%Z -> pow2 (Z.log2 n) <= inject_Z n /\ inject_Z n < pow2 (Z.log2 n + 1).
Proof.
  intros H. destruct (Z.log2_spec n H) as [L U].
  pose proof (Z.log2_nonneg n) as P. split.
  - rewrite <- pow2_Z by exact P. rewrite <- Zle_Qle. exact L.
  - rewrite <- pow2_Z by lia. rewrite <- Zlt_Qlt. unfold Z.succ in U. exact U.
Qed.

Lemma Qmake_le_iff (x : Q) (n : Z) (d : positive) :
  x <= n # d <-> x * inject_Z (Z.pos d) <= inject_Z n.
Proof.
  assert (D : 0 < inject_Z (Z.pos d)) by (rewrite <- (Zlt_Qlt 0); reflexivity).
  rewrite (Qmake_Qdiv n d). split; intros H.
  - setoid_replace (inject_Z n) with (inject_Z n / inject_Z (Z.pos d) * inject_Z (Z.pos d)).
    + apply Qmult_le_compat_r; [exact H | apply Qlt_le_weak, D].
    + field. intros E. rewrite E in D. discriminate.
  - apply Qle_shift_div_l; assumption.
Qed.

Lemma Qmake_lt_iff (x : Q) (n : Z) (d : positive) :
  n # d < x <-> inject_Z n < x * inject_Z (Z.pos d).
Proof.
  assert (D : 0 < inject_Z (Z.pos d)) by (rewrite <- (Zlt_Qlt 0); reflexivity).
  rewrite (Qmake_Qdiv n d). split; intros H.
  - apply (Qmult_lt_r _ _ (inject_Z (Z.pos d))) in H; [|exact D].
    setoid_replace (inject_Z n) with (inject_Z n / inject_Z (Z.pos d) * inject_Z (Z.pos d));
      [exact H|].
    field. intros E. rewrite E in D. discriminate.
  - apply Qlt_shift_div_r; assumption.
Qed.

Lemma binade_spec (a : Q) :
  0 < a -> pow2 (binade a) <= a /\ a < pow2 (binade a + 1).
Proof.
  intros Ha. destruct a as [n d].
  assert (Hn : (0 < n)%Z) by (unfold Qlt in Ha; simpl in Ha; lia).
  unfold binade. simpl Qnum. simpl Qden.
  set (k := (Z.log2 n - Z.log2 (Z.pos d))%Z).
  destruct (log2_bounds n Hn) as [Ln Un].
  destruct (log2_bounds (Z.pos d) eq_refl) as [Ld Ud].
  pose proof (pow2_pos (k - 1)) as P1. pose proof (pow2_pos (k + 1)) as P2.
  pose proof (pow2_pos (Z.log2 (Z.pos d))) as P3.
  assert (E1 : pow2 (Z.log2 n) == pow2 (k - 1) * pow2 (Z.log2 (Z.pos d) + 1)).
  { rewrite <- pow2_add. unfold k. f_equiv. lia. }
  assert (E2 : pow2 (Z.log2 n + 1) == pow2 (k + 1) * pow2 (Z.log2 (Z.pos d))).
  { rewrite <- pow2_add. unfold k. f_equiv. lia. }
  assert (Lo : pow2 (k - 1) <= n # d).
  { apply Qmake_le_iff. eapply Qle_trans; [|exact Ln]. rewrite E1.
    apply Qmult_le_l; [exact P1 | apply Qlt_le_weak, Ud]. }
  assert (Hi : n # d < pow2 (k + 1)).
  { apply Qmake_lt_iff. eapply Qlt_le_trans; [exact Un|]. rewrite E2.
    apply Qmult_le_l; [exact P2 | exact Ld]. }
  destruct (Qle_bool (pow2 k) (n # d)) eqn:E.
  - apply Qle_bool_iff in E. split; assumption.
  - split; [exact Lo|]. replace (k - 1 + 1)%Z with k by lia.
    apply Qnot_le_lt. intros C. apply Qle_bool_iff in C. congruence.
Qed.

Lemma binade_unique (a : Q) (b : Z) :
  pow2 b <= a -> a < pow2 (b + 1) -> binade a = b.
Proof.
  intros L U.
  assert (Ha : 0 < a) by (eapply Qlt_le_trans; [apply (pow2_pos b) | exact L]).
  destruct (binade_spec a Ha) as [L' U'].
  assert (H1 : pow2 b < pow2 (binade a + 1)) by (eapply Qle_lt_trans; eassumption).
  assert (H2 : pow2 (binade a) < pow2 (b + 1)) by (eapply Qle_lt_trans; eassumption).
  apply pow2_lt_inv in H1. apply pow2_lt_inv in H2. lia.
Qed.

Lemma round_half_even_bounds (q : Q) :
  (Qfloor q <= round_half_even q <= Qfloor q + 1)%Z.
Proof.
  unfold round_half_even.
  destruct (Qcompare (q - inject_Z (Qfloor q)) (1 # 2)); [|lia|lia].
  destruct (Z.even (Qfloor q)); lia.
Qed.

Lemma round_half_even_error (q : Q) :
  Qabs (inject_Z (round_half_even q) - q) <= 1 # 2.
Proof.
  pose proof (Qfloor_le q) as L. pose proof (Qlt_floor q) as U.
  rewrite inject_Z_plus in U. change (inject_Z 1) with 1 in U.
  unfold round_half_even. generalize dependent (Qfloor q). intros f L U.
  destruct (Qcompare (q - inject_Z f) (1 # 2)) eqn:C.
  - apply Qeq_alt in C. destruct (Z.even f).
    + generalize dependent (inject_Z f). intros F L U C.
      apply Qabs_Qle_condition. split; lra.
    + rewrite inject_Z_plus. change (inject_Z 1) with 1.
      generalize dependent (inject_Z f). intros F L U C.
      apply Qabs_Qle_condition. split; lra.
  - apply Qlt_alt in C. generalize dependent (inject_Z f). intros F L U C.
    apply Qabs_Qle_condition. split; lra.
  - apply Qgt_alt in C. rewrite inject_Z_plus. change (inject_Z 1) with 1.
    generalize dependent (inject_Z f). intros F L U C.
    apply Qabs_Qle_condition. split; lra.
Qed.

Lemma round_half_even_Z (q : Q) (m : Z) : q == inject_Z m -> round_half_even q = m.
Proof.
  intros E. unfold round_half_even.
  assert (F : Qfloor q = m) by (rewrite E; apply Qfloor_Z).
  rewrite F.
  assert (C : Qcompare (q - inject_Z m) (1 # 2) = Lt).
  { apply (proj1 (Qlt_alt _ _)). generalize dependent (inject_Z m). intros M E. lra. }
  rewrite C. reflexivity.
Qed.

Lemma round64_Qeq (x y : Q) : x == y -> round64 x = round64 y.
Proof. intros E. unfold round64. rewrite (Qred_complete x y E). reflexivity. Qed.

Lemma round64_0 : round64 0 = 0.
Proof. reflexivity. Qed.

Lemma round64_1 : round64 1 = 1.
Proof. vm_compute. reflexivity. Qed.


Lemma sign_of_Qeq (x y : Q) : x == y -> sign_of x = sign_of y.
Proof.
  intros E. unfold sign_of.
  destruct (Qle_bool 0 x) eqn:Ex, (Qle_bool 0 y) eqn:Ey; try reflexivity.
  - apply Qle_bool_iff in Ex. rewrite E in Ex. apply Qle_bool_iff in Ex. congruence.
  - apply Qle_bool_iff in Ey. rewrite <- E in Ey. apply Qle_bool_iff in Ey. congruence.
Qed.

Lemma sign_of_abs (x : Q) : sign_of x * Qabs x == x.
Proof.
  unfold sign_of. destruct (Qle_bool 0 x) eqn:E.
  - apply Qle_bool_iff in E. rewrite Qabs_pos by exact E. ring.
  - assert (H : x <= 0).
    { apply Qlt_le_weak, Qnot_le_lt. intros C. apply Qle_bool_iff in C. congruence. }
    rewrite Qabs_neg by exact H. ring.
Qed.

Lemma pow2_52 : pow2 52 == inject_Z (2 ^ 52).
Proof. symmetry. apply pow2_Z. lia. Qed.

Lemma pow2_53 : pow2 53 == inject_Z (2 ^ 53).
Proof. symmetry. apply pow2_Z. lia. Qed.

(** The shape of a rounded number: a 53-bit integer significand, chosen
    nearest to the scaled argument, times a power of two. *)
Lemma round64_shape (x : Q) :
  ~ x == 0 ->
  exists m e,
    (2 ^ 52 <= m <= 2 ^ 53)%Z /\
    round64 x == sign_of x * inject_Z m * pow2 e /\
    pow2 (e + 52) <= Qabs x /\ Qabs x < pow2 (e + 53) /\
    Qabs (inject_Z m - Qabs x / pow2 e) <= 1 # 2.
Proof.
  intros Hx. unfold round64.
  pose proof (Qred_correct x) as Eq. set (q := Qred x) in *.
  assert (Hq : Qeq_bool q 0 = false).
  { destruct (Qeq_bool q 0) eqn:E; [|reflexivity].
    apply Qeq_bool_iff in E. exfalso. apply Hx. rewrite <- Eq. exact E. }
  rewrite Hq.
  assert (Ha : 0 < Qabs q).
  { destruct (Qlt_le_dec 0 (Qabs q)) as [H|H]; [exact H|].
    exfalso. apply Hx. rewrite <- Eq. apply Qabs_Qle_condition in H.
    destruct H as [H1 H2]. lra. }
  destruct (binade_spec (Qabs q) Ha) as [L U].
  set (b := binade (Qabs q)) in *. set (e := (b - 52)%Z).
  pose proof (pow2_pos e) as Pe.
  assert (Eb : pow2 b == pow2 e * pow2 52).
  { rewrite <- pow2_add. unfold e. f_equiv. lia. }
  assert (Eb1 : pow2 (b + 1) == pow2 e * pow2 53).
  { rewrite <- pow2_add. unfold e. f_equiv. lia. }
  set (t := Qabs q / pow2 e).
  assert (Lt : inject_Z (2 ^ 52) <= t).
  { unfold t. apply Qle_shift_div_l; [exact Pe|].
    rewrite <- pow2_52, Qmult_comm, <- Eb. exact L. }
  assert (Ut : t < inject_Z (2 ^ 53)).
  { unfold t. apply Qlt_shift_div_r; [exact Pe|].
    rewrite <- pow2_53, Qmult_comm, <- Eb1. exact U. }
  pose proof (round_half_even_bounds t) as [B1 B2].
  assert (F1 : (2 ^ 52 <= Qfloor t)%Z).
  { rewrite <- (Qfloor_Z (2 ^ 52)). apply Qfloor_resp_le. exact Lt. }
  assert (F2 : (Qfloor t < 2 ^ 53)%Z).
  { rewrite Zlt_Qlt. eapply Qle_lt_trans; [apply Qfloor_le | exact Ut]. }
  exists (round_half_even t), e.
  split; [lia|]. split.
  { rewrite Qred_correct. rewrite (sign_of_Qeq x q) by (symmetry; exact Eq).
    reflexivity. }
  assert (Eabs : Qabs x == Qabs q) by (rewrite Eq; reflexivity).
  split; [|split].
  - replace (e + 52)%Z with b by (unfold e; lia). rewrite Eabs. exact L.
  - replace (e + 53)%Z with (b + 1)%Z by (unfold e; lia). rewrite Eabs. exact U.
  - rewrite Eabs. apply round_half_even_error.
Qed.

Lemma round64_sign (x : Q) :
  (0 < x -> 0 < round64 x) /\ (x < 0 -> round64 x < 0).
Proof.
  split; intros H.
  - destruct (round64_shape x) as (m & e & Hm & E & _); [lra|].
    rewrite E. unfold sign_of.
    rewrite (proj2 (Qle_bool_iff 0 x)) by lra.
    pose proof (pow2_pos e) as Pe.
    assert (Pm : 0 < inject_Z m) by (rewrite <- (Zlt_Qlt 0); lia).
    rewrite Qmult_1_l. apply Qmult_lt_0_compat; assumption.
  - destruct (round64_shape x) as (m & e & Hm & E & _); [lra|].
    rewrite E. unfold sign_of.
    assert (B : Qle_bool 0 x = false).
    { destruct (Qle_bool 0 x) eqn:C; [|reflexivity]. apply Qle_bool_iff in C. lra. }
    rewrite B. pose proof (pow2_pos e) as Pe.
    assert (Pm : 0 < inject_Z m) by (rewrite <- (Zlt_Qlt 0); lia).
    pose proof (Qmult_lt_0_compat _ _ Pm Pe) as P.
    setoid_replace (-1 * inject_Z m * pow2 e) with (- (inject_Z m * pow2 e)) by ring.
    lra.
Qed.

Lemma round64_eq_0 (x : Q) : round64 x == 0 -> x == 0.
Proof.
  intros H. destruct (Q_dec x 0) as [[N|P]|E]; [| |exact E].
  - apply round64_sign in N. lra.
  - apply round64_sign in P. lra.
Qed.

Lemma round64_nonneg (x : Q) : 0 <= x -> 0 <= round64 x.
Proof.
  intros H. destruct (Qlt_le_dec 0 x) as [P|N].
  - apply Qlt_le_weak, round64_sign, P.
  - rewrite (round64_Qeq x 0) by lra. rewrite round64_0. lra.
Qed.

(** Rounding moves a number by at most [2^-53] of its magnitude. *)
Lemma round64_error (x : Q) : Qabs (round64 x - x) <= Qabs x * pow2 (-53).
Proof.
  destruct (Qeq_dec x 0) as [E|N].
  - rewrite (round64_Qeq x 0 E), round64_0, E. simpl. vm_compute. discriminate.
  - destruct (round64_shape x N) as (m & e & _ & E & L & _ & Herr).
    pose proof (pow2_pos e) as Pe.
    assert (D : round64 x - x == sign_of x * ((inject_Z m - Qabs x / pow2 e) * pow2 e)).
    { rewrite E. rewrite <- (sign_of_abs x) at 2. field. lra. }
    rewrite D, Qabs_Qmult.
    assert (S1 : Qabs (sign_of x) == 1).
    { unfold sign_of. destruct (Qle_bool 0 x); reflexivity. }
    rewrite S1, Qmult_1_l, Qabs_Qmult, (Qabs_pos (pow2 e)) by lra.
    assert (E53 : pow2 (e + 52) * pow2 (-53) == (1 # 2) * pow2 e).
    { rewrite <- pow2_add. replace (e + 52 + -53)%Z with (e + -1)%Z by lia.
      rewrite pow2_add.
      assert (H : pow2 (-1) == 1 # 2) by reflexivity. rewrite H. ring. }
    eapply Qle_trans.
    + apply Qmult_le_compat_r; [exact Herr | lra].
    + rewrite <- E53. apply Qmult_le_compat_r; [exact L|].
      apply Qlt_le_weak, pow2_pos.
Qed.

Lemma integers_half_apart (m' m : Z) :
  Qabs (inject_Z m' - inject_Z m) <= 1 # 2 -> m' = m.
Proof.
  intros H. apply Qabs_Qle_condition in H. destruct H as [H1 H2].
  assert (G1 : inject_Z m' < inject_Z (m + 1)).
  { rewrite inject_Z_plus. change (inject_Z 1) with 1.
    set (a := inject_Z m) in *. set (b := inject_Z m') in *. clearbody a b. lra. }
  assert (G2 : inject_Z (m - 1) < inject_Z m').
  { clear G1. unfold Z.sub. rewrite inject_Z_plus, inject_Z_opp.
    change (inject_Z 1) with 1.
    set (a := inject_Z m) in *. set (b := inject_Z m') in *. clearbody a b. lra. }
  rewrite <- Zlt_Qlt in G1, G2. lia.
Qed.

Lemma round64_canonical (x : Q) : Qred (round64 x) = round64 x.
Proof.
  unfold round64. destruct (Qeq_bool (Qred x) 0); [reflexivity|].
  apply Qred_complete, Qred_correct.
Qed.

(** A 53-bit significand times a power of two is a binary64 number. *)
Lemma round64_representable (positive : bool) (m e : Z) :
  (2 ^ 52 <= m < 2 ^ 53)%Z ->
  round64 ((if positive then 1 else -1) * inject_Z m * pow2 e)
  == (if positive then 1 else -1) * inject_Z m * pow2 e.
Proof.
  intros Hm. set (v := (if positive then 1 else -1) * inject_Z m * pow2 e).
  pose proof (pow2_pos e) as Pe.
  assert (Pm : 0 < inject_Z m) by (rewrite <- (Zlt_Qlt 0); lia).
  pose proof (Qmult_lt_0_compat _ _ Pm Pe) as Pme.
  assert (Av : Qabs v == inject_Z m * pow2 e).
  { unfold v. rewrite !Qabs_Qmult, (Qabs_pos (pow2 e)), (Qabs_pos (inject_Z m)) by lra.
    destruct positive; simpl; ring. }
  assert (Sv : sign_of v = if positive then 1 else -1).
  { unfold sign_of, v. destruct positive.
    - rewrite (proj2 (Qle_bool_iff 0 _)); [reflexivity|]. lra.
    - destruct (Qle_bool 0 (-1 * inject_Z m * pow2 e)) eqn:B; [|reflexivity].
      apply Qle_bool_iff in B. lra. }
  assert (Nv : ~ v == 0).
  { intros C. rewrite C in Av. simpl in Av. lra. }
  destruct (round64_shape v Nv) as (m' & e' & Hm' & E & L & U & Herr).
  assert (L0 : pow2 (e + 52) <= Qabs v).
  { rewrite Av, pow2_add, pow2_52, Qmult_comm.
    apply Qmult_le_compat_r; [rewrite <- Zle_Qle; lia | lra]. }
  assert (U0 : Qabs v < pow2 (e + 53)).
  { rewrite Av, pow2_add, pow2_53, (Qmult_comm (pow2 e)).
    apply Qmult_lt_compat_r; [exact Pe | rewrite <- Zlt_Qlt; lia]. }
  assert (Ee : e' = e).
  { assert (H1 : pow2 (e' + 52) < pow2 (e + 53)) by (eapply Qle_lt_trans; eassumption).
    assert (H2 : pow2 (e + 52) < pow2 (e' + 53)) by (eapply Qle_lt_trans; eassumption).
    apply pow2_lt_inv in H1. apply pow2_lt_inv in H2. lia. }
  subst e'.
  assert (Em : m' = m).
  { assert (T : Qabs v / pow2 e == inject_Z m) by (rewrite Av; field; lra).
    rewrite T in Herr. apply integers_half_apart, Herr. }
  subst m'. rewrite E, Sv. reflexivity.
Qed.

Lemma round64_idempotent (x : Q) : round64 (round64 x) = round64 x.
Proof.
  transitivity (Qred (round64 (round64 x))); [symmetry; apply round64_canonical|].
  transitivity (Qred (round64 x)); [|apply round64_canonical].
  apply Qred_complete.
  destruct (Qeq_dec x 0) as [E|N].
  - rewrite (round64_Qeq x 0 E), round64_0. reflexivity.
  - destruct (round64_shape x N) as (m & e & Hm & E & _).
    rewrite (round64_Qeq (round64 x) _ E), E.
    destruct (Z.eq_dec m (2 ^ 53)) as [->|Hne].
    + assert (R : sign_of x * inject_Z (2 ^ 53) * pow2 e
                  == sign_of x * inject_Z (2 ^ 52) * pow2 (e + 1)).
      { rewrite pow2_succ. change (inject_Z (2 ^ 53)) with (2 * inject_Z (2 ^ 52)).
        ring. }
      rewrite (round64_Qeq _ _ R), R. unfold sign_of.
      apply (round64_representable (Qle_bool 0 x)). lia.
    + unfold sign_of. apply (round64_representable (Qle_bool 0 x)). lia.
Qed.


Lemma representable_round64 (x : Q) : representable (round64 x).
Proof. unfold representable. rewrite round64_idempotent. reflexivity. Qed.

Lemma representable_0 : representable 0.
Proof. reflexivity. Qed.

Lemma representable_1 : representable 1.
Proof. unfold representable. rewrite round64_1. reflexivity. Qed.

(** ** Gini impurity *)

Lemma fdiv_Ok (a b : Q) : ~ b == 0 -> fdiv a b = Ok (round64 (a / b)).
Proof.
  intros H. unfold fdiv. apply Qeq_bool_false_iff in H. rewrite H. reflexivity.
Qed.

Lemma fdiv_Ok_inv (a b q : Q) : fdiv a b = Ok q -> ~ b == 0 /\ q = round64 (a / b).
Proof.
  unfold fdiv. destruct (Qeq_bool b 0) eqn:E; [discriminate|].
  intros H. injection H as <-. split; [|reflexivity]. now apply Qeq_bool_false_iff.
Qed.

Lemma round64_nonzero (x : Q) : ~ x == 0 -> ~ round64 x == 0.
Proof. intros H E. apply H, round64_eq_0, E. Qed.

Lemma round64_len_nonzero {A : Type} (xs : list A) : xs <> [] -> ~ round64 (len xs) == 0.
Proof.
  intros H. apply round64_nonzero. intros E. pose proof (len_pos xs H) as P.
  rewrite E in P. apply (Qlt_irrefl 0), P.
Qed.

(** The loop of [gini] never divides by zero once [samples] is not 0, and
    what it returns is a float. *)
Lemma gini_loop_total (samples : Q) (d : dict) (impurity : Q) :
  ~ samples == 0 -> representable impurity ->
  exists g, gini_loop samples d impurity = Ok g /\ representable g.
Proof.
  intros Hs. revert impurity. induction d as [|[k c] d IH]; intros impurity Hi.
  - exists impurity. split; [reflexivity | exact Hi].
  - simpl. rewrite (fdiv_Ok _ _ Hs). cbn [bind].
    apply IH. unfold fsub. apply representable_round64.
Qed.

Lemma sum_squares_Q (N : Q) (d : dict) :
  ~ N == 0 ->
  Qsum (map (fun kc => (count_Q (snd kc) / N) ^ 2) d)
  == count_Q (sum_squares d) / (N * N).
Proof.
  intros HN. unfold sum_squares. induction d as [|[k c] d IH]; simpl.
  - unfold count_Q. simpl. field. exact HN.
  - rewrite IH. rewrite count_Q_plus, count_Q_mult. simpl. field. exact HN.
Qed.

(** [gini] never divides by zero: it returns as soon as every row has a
    label, and it returns a float. *)
Lemma gini_total (rows : list row) :
  Forall (fun r => r <> []) rows ->
  exists g, gini rows = Ok g /\ (rows = [] -> g = 1) /\ representable g.
Proof.
  intros H. unfold gini. rewrite (class_counts_spec rows H). cbn [bind].
  destruct rows as [|r rows].
  - exists 1. split; [reflexivity|]. split; [reflexivity | apply representable_1].
  - destruct (gini_loop_total (round64 (len (r :: rows)))
                (count_into [] (labels (r :: rows))) 1) as (g & Hg & Rg).
    + apply round64_len_nonzero. discriminate.
    + apply representable_1.
    + exists g. split; [exact Hg|]. split; [discriminate | exact Rg].
Qed.

Lemma gini_Ok_representable (rows : list row) (g : Q) :
  gini rows = Ok g -> representable g.
Proof.
  intros H.
  assert (Hrows : Forall (fun r => r <> []) rows).
  { unfold gini in H. inv_bind_as H d Hd. apply class_counts_from_Ok_inv in Hd. tauto. }
  destruct (gini_total rows Hrows) as (g' & Hg' & _ & R).
  rewrite H in Hg'. injection Hg' as <-. exact R.
Qed.

Lemma gini_value_bounds (n ss k : nat) (g : Q) :
  (0 < n)%nat ->
  g == 1 - count_Q ss / (count_Q n * count_Q n) ->
  ((ss <= n * n)%nat -> 0 <= g) /\
  ((0 < k)%nat -> (n * n <= k * ss)%nat -> g <= 1 - 1 / count_Q k) /\
  (g == 0 <-> ss = (n * n)%nat).
Proof.
  intros Hn Eg.
  assert (HD : 0 < count_Q n * count_Q n).
  { rewrite <- count_Q_mult. apply count_Q_pos. nia. }
  assert (E1 : count_Q ss / (count_Q n * count_Q n) * (count_Q n * count_Q n)
               == count_Q ss).
  { field. intros E. rewrite E in HD. apply (Qlt_irrefl 0), HD. }
  split; [|split].
  - intros Hle. rewrite Eg.
    assert (count_Q ss / (count_Q n * count_Q n) <= 1); [|lra].
    apply Qle_shift_div_r; [exact HD|]. rewrite Qmult_1_l, <- count_Q_mult.
    now apply count_Q_le.
  - intros Hk Hle. rewrite Eg.
    assert (1 / count_Q k <= count_Q ss / (count_Q n * count_Q n)); [|lra].
    apply Qle_shift_div_l; [exact HD|].
    unfold Qdiv at 1. rewrite Qmult_1_l, Qmult_comm.
    apply Qle_shift_div_r; [now apply count_Q_pos|].
    rewrite <- !count_Q_mult. apply count_Q_le. lia.
  - split.
    + intros E0. apply count_Q_eq. rewrite count_Q_mult. rewrite <- E1.
      assert (E2 : count_Q ss / (count_Q n * count_Q n) == 1) by lra.
      rewrite E2. ring.
    + intros ->. rewrite Eg, count_Q_mult. field.
      intros E. rewrite E in HD. revert HD. rewrite Qmult_0_l. apply Qlt_irrefl.
Qed.

(** ** Distinct labels *)

Lemma first_seen_from_all_seen (l seen : list Q) :
  (forall x, In x l -> mem_Q x seen = true) -> first_seen_from seen l = [].
Proof.
  induction l as [|a l IH]; simpl; intros H; [reflexivity|].
  rewrite (H a) by now left. apply IH. intros x Hx. apply H. now right.
Qed.

Lemma first_seen_single (ls : list Q) :
  ls <> [] ->
  (length (first_seen_list ls) = 1%nat <->
   forall l1 l2, In l1 ls -> In l2 ls -> l1 == l2).
Proof.
  intros Hne. split.
  - intros L l1 l2 H1 H2.
    destruct (first_seen_list ls) as [|y [|z t]] eqn:E; try discriminate.
    destruct (first_seen_complete ls l1 H1) as (y1 & Hy1 & E1).
    destruct (first_seen_complete ls l2 H2) as (y2 & Hy2 & E2).
    rewrite E in Hy1, Hy2. simpl in Hy1, Hy2.
    destruct Hy1 as [<-|[]]. destruct Hy2 as [<-|[]].
    rewrite <- E1, <- E2. reflexivity.
  - intros H. destruct ls as [|a ls]; [congruence|].
    unfold first_seen_list. simpl.
    rewrite first_seen_from_all_seen; [reflexivity|].
    intros x Hx. simpl. apply orb_true_iff. left.
    apply Qeq_bool_iff. apply H; [now left | now right].
Qed.

Lemma first_seen_nonempty (ls : list Q) : ls <> [] -> first_seen_list ls <> [].
Proof.
  destruct ls as [|a ls]; [congruence|]. intros _. unfold first_seen_list. simpl.
  discriminate.
Qed.

(** ** The impurity of the specification, on exact numbers *)

Lemma gini_formula_histogram (rows : list row) :
  1 - Qsum (map (fun kc => (count_Q (snd kc) / len rows) ^ 2)
                (count_into [] (labels rows)))
  = gini_formula rows.
Proof.
  unfold gini_formula.
  replace (map (fun kc => (count_Q (snd kc) / len rows) ^ 2) (count_into [] (labels rows)))
    with (map (fun c => (count_Q c / len rows) ^ 2) (map snd (count_into [] (labels rows))))
    by (rewrite map_map; reflexivity).
  rewrite counts_count_into, map_map. reflexivity.
Qed.

Lemma gini_formula_sum_squares (rows : list row) :
  rows <> [] ->
  gini_formula rows
  == 1 - count_Q (sum_squares (count_into [] (labels rows))) / (len rows * len rows).
Proof.
  intros Hne. rewrite <- gini_formula_histogram.
  rewrite sum_squares_Q; [reflexivity|].
  intros E. pose proof (len_pos rows Hne) as P. rewrite E in P.
  apply (Qlt_irrefl 0), P.
Qed.

(** With two labels or more, the squared counts fall short of the squared
    total by the total at least. *)
Lemma sum_squares_gap (cs : list nat) :
  Forall (fun c => 0 < c)%nat cs -> (2 <= length cs)%nat ->
  (list_sum (map (fun c => c * c) cs) + list_sum cs <= list_sum cs * list_sum cs)%nat.
Proof.
  intros H L. destruct H as [|c cs Hc Hcs]; simpl in *; [lia|].
  destruct Hcs as [|c' cs' Hc' Hcs']; simpl in *; [lia|].
  pose proof (sum_squares_le cs'). nia.
Qed.

(** The range of the formula, and when it is 0. *)
Lemma gini_formula_range (rows : list row) :
  rows <> [] ->
  0 <= gini_formula rows /\
  gini_formula rows <= 1 - 1 / count_Q (length (distinct_labels rows)) /\
  (gini_formula rows == 0 <-> pure rows) /\
  (~ pure rows -> 1 / len rows <= gini_formula rows).
Proof.
  intros Hne. pose proof (gini_formula_sum_squares rows Hne) as Eg.
  set (g := gini_formula rows) in *.
  set (d := count_into [] (labels rows)) in *.
  assert (Hn : (0 < length rows)%nat) by (destruct rows; [congruence | simpl; lia]).
  assert (Hls : labels rows <> []) by (destruct rows; [congruence | discriminate]).
  assert (Ksnd : map snd d = map (fun l => occurrences l (labels rows)) (distinct_labels rows))
    by apply counts_count_into.
  assert (Hk : length (distinct_labels rows) = length (map snd d))
    by (rewrite Ksnd, length_map; reflexivity).
  assert (Htot : list_sum (map snd d) = length rows).
  { pose proof (total_count_into (labels rows) []) as T. unfold total in T.
    simpl in T. unfold labels in T at 2. rewrite length_map in T. exact T. }
  assert (Hpos : Forall (fun c => 0 < c)%nat (map snd d)).
  { apply Forall_map. apply positive_count_into. constructor. }
  assert (Hss : sum_squares d = list_sum (map (fun c => c * c)%nat (map snd d))).
  { unfold sum_squares. rewrite map_map. reflexivity. }
  destruct (gini_value_bounds (length rows) (sum_squares d)
              (length (distinct_labels rows)) g Hn Eg) as (B0 & B1 & B2).
  assert (Hpure : sum_squares d = (length rows * length rows)%nat <-> pure rows).
  { unfold pure. rewrite <- (first_seen_single (labels rows) Hls).
    fold (distinct_labels rows). rewrite Hk, Hss, <- Htot. split.
    + intros E.
      destruct (le_lt_dec 2 (length (map snd d))) as [L|L].
      * pose proof (sum_squares_lt (map snd d) Hpos L). lia.
      * assert (length (map snd d) <> 0)%nat; [|lia].
        rewrite <- Hk. intros Z. apply length_zero_iff_nil in Z.
        apply (first_seen_nonempty (labels rows) Hls). exact Z.
    + intros L. destruct (map snd d) as [|c [|c' t]]; simpl in L; try discriminate.
      simpl. lia. }
  split; [|split; [|split]].
  - apply B0. rewrite Hss, <- Htot. apply sum_squares_le.
  - apply B1.
    + pose proof (first_seen_nonempty (labels rows) Hls) as P.
      unfold distinct_labels. destruct (first_seen_list (labels rows));
        [congruence | simpl; lia].
    + rewrite Hss, Hk, <- Htot. apply sum_squares_cauchy.
  - rewrite B2. exact Hpure.
  - intros Himpure.
    assert (L2 : (2 <= length (map snd d))%nat).
    { rewrite <- Hk.
      assert (N1 : length (distinct_labels rows) <> 1%nat).
      { intros E. apply Himpure. unfold pure.
        apply (first_seen_single (labels rows) Hls). exact E. }
      assert (N0 : length (distinct_labels rows) <> 0%nat).
      { intros Z. apply length_zero_iff_nil in Z.
        apply (first_seen_nonempty (labels rows) Hls). exact Z. }
      lia. }
    pose proof (sum_squares_gap (map snd d) Hpos L2) as G.
    rewrite Htot, <- Hss in G. rename G into Gn.
    apply count_Q_le in Gn. rewrite count_Q_plus, count_Q_mult in Gn.
    pose proof (count_Q_pos (length rows) Hn) as Pn.
    change (count_Q (length rows)) with (len rows) in Gn, Pn. rewrite Eg.
    set (N := len rows) in *. set (S := count_Q (sum_squares d)) in *.
    clearbody N S g. clear - Gn Pn.
    assert (E1 : 1 - S / (N * N) - 1 / N == (N * N - S - N) / (N * N)).
    { field. intros E. lra. }
    assert (P2 : 0 < N * N) by (apply Qmult_lt_0_compat; exact Pn).
    assert (P3 : 0 <= (N * N - S - N) / (N * N))
      by (apply Qle_shift_div_l; [exact P2 | lra]).
    apply (Qplus_le_l _ _ (- (1 / N))). rewrite Qplus_opp_r.
    fold (Qminus (1 - S / (N * N)) (1 / N)). rewrite E1. exact P3.
Qed.

(** ** The impurity the code computes, against the formula *)

(** Integers below [2^53] are binary64 numbers. *)
Lemma round64_small_Z (z : Z) :
  (0 <= z < 2 ^ 53)%Z -> round64 (inject_Z z) == inject_Z z.
Proof.
  intros [H0 H1]. destruct (Z.eq_dec z 0) as [->|Hz]; [reflexivity|].
  assert (Pz : (0 < z)%Z) by lia.
  destruct (Z.log2_spec z Pz) as [L U].
  pose proof (Z.log2_nonneg z) as P.
  assert (L52 : (Z.log2 z < 53)%Z) by (apply Z.log2_lt_pow2; lia).
  set (l := Z.log2 z) in *.
  assert (E2 : (2 ^ 52 = 2 ^ l * 2 ^ (52 - l))%Z).
  { rewrite <- Z.pow_add_r by lia. f_equal. lia. }
  assert (E3 : (2 ^ 53 = 2 ^ Z.succ l * 2 ^ (52 - l))%Z).
  { rewrite <- Z.pow_add_r by lia. f_equal. lia. }
  assert (Pp : (0 < 2 ^ (52 - l))%Z) by (apply Z.pow_pos_nonneg; lia).
  assert (Hm : (2 ^ 52 <= z * 2 ^ (52 - l) < 2 ^ 53)%Z).
  { rewrite E2 at 1. rewrite E3. split.
    - apply Z.mul_le_mono_nonneg_r; lia.
    - apply Z.mul_lt_mono_pos_r; lia. }
  assert (E : inject_Z z == 1 * inject_Z (z * 2 ^ (52 - l)) * pow2 (l - 52)).
  { rewrite inject_Z_mult, (pow2_Z (52 - l)) by lia.
    rewrite Qmult_1_l, <- Qmult_assoc, <- pow2_add.
    replace (52 - l + (l - 52))%Z with 0%Z by lia.
    unfold pow2. simpl. ring. }
  rewrite (round64_Qeq _ _ E), E.
  apply (round64_representable true _ _ Hm).
Qed.

Lemma round64_count (c : nat) :
  (Z.of_nat c < 2 ^ 53)%Z -> round64 (count_Q c) == count_Q c.
Proof. intros H. apply round64_small_Z. lia. Qed.

(** One turn of the loop of [gini], written on the errors of its three
    roundings: the quotient [p] of the share [q], its square [s], and the
    difference [I1]. *)
Lemma gini_step_error (u q p s I I1 E B : Q) :
  0 <= u -> u <= 1 # 8 -> 0 <= q -> q <= 1 ->
  Qabs (p - q) <= q * u ->
  Qabs (s - p * p) <= p * p * u ->
  Qabs (I1 - (I - s)) <= Qabs (I - s) * u ->
  Qabs (I - E) <= B -> B <= 1 ->
  0 <= E - q * q -> E - q * q <= 1 ->
  Qabs (I1 - (E - q * q)) <= B + 3 * u + 8 * u * q.
Proof.
  intros U0 U1 Q0 Q1 Hp Hs HI HB B1 E0 E1.
  apply Qabs_Qle_condition in Hp. destruct Hp as [Hp1 Hp2].
  apply Qabs_Qle_condition in Hs. destruct Hs as [Hs1 Hs2].
  apply Qabs_Qle_condition in HB. destruct HB as [HB1 HB2].
  assert (W : 0 <= q * u /\ q * u <= q * (1 # 8)).
  { split; [apply Qmult_le_0_compat; assumption|].
    rewrite (Qmult_comm q u), (Qmult_comm q (1 # 8)).
    apply Qmult_le_compat_r; assumption. }
  destruct W as [W0 W1]. set (w := q * u) in *.
  assert (P0 : 0 <= p) by lra.
  assert (P2 : p <= 2 * q) by lra.
  assert (PP : 0 <= p * p /\ p * p <= 4 * (q * q) /\ q * q <= q).
  { split; [apply Qmult_le_0_compat; assumption|]. split.
    - setoid_replace (4 * (q * q)) with ((2 * q) * (2 * q)) by ring.
      apply Qmult_le_compat_nonneg; split; assumption.
    - setoid_replace q with (1 * q) at 3 by ring.
      apply Qmult_le_compat_r; assumption. }
  destruct PP as (PP0 & PP1 & QQ).
  assert (D : Qabs (p * p - q * q) <= 3 * w).
  { setoid_replace (p * p - q * q) with ((p - q) * (p + q)) by ring.
    rewrite Qabs_Qmult.
    assert (A1 : Qabs (p - q) <= w) by (apply Qabs_Qle_condition; split; lra).
    assert (A2 : Qabs (p + q) <= 3) by (apply Qabs_Qle_condition; split; lra).
    setoid_replace (3 * w) with (w * 3) by ring.
    apply Qmult_le_compat_nonneg; split;
      try apply Qabs_nonneg; assumption. }
  apply Qabs_Qle_condition in D. destruct D as [D1 D2].
  assert (S1 : p * p * u <= 4 * w).
  { assert (T : p * p * u <= 4 * (q * q) * u)
      by (apply Qmult_le_compat_r; assumption).
    assert (T2 : 4 * (q * q) * u <= 4 * q * u).
    { apply Qmult_le_compat_r; [lra | assumption]. }
    unfold w. setoid_replace (4 * (q * u)) with (4 * q * u) by ring. lra. }
  set (pp := p * p) in *. set (qq := q * q) in *. set (ppu := pp * u) in *.
  assert (X : Qabs (I - s) <= 3).
  { apply Qabs_Qle_condition. split; lra. }
  assert (Y : Qabs (I - s) * u <= 3 * u).
  { apply Qmult_le_compat_r; assumption. }
  assert (HI' : Qabs (I1 - (I - s)) <= 3 * u) by (eapply Qle_trans; eassumption).
  apply Qabs_Qle_condition in HI'. destruct HI' as [HI1 HI2].
  clear HI X Y.
  setoid_replace (8 * u * q) with (8 * w) by (unfold w; ring).
  apply Qabs_Qle_condition. split; lra.
Qed.

Lemma unit_roundoff_small : 0 <= unit_roundoff /\ unit_roundoff <= 1 # 8.
Proof. unfold unit_roundoff. split; vm_compute; discriminate. Qed.

Lemma Qsum_squares_nonneg (N : Q) (d : dict) :
  0 <= Qsum (map (fun kc => (count_Q (snd kc) / N) ^ 2) d).
Proof.
  induction d as [|[k c] d IH]; simpl; [apply Qle_refl|].
  pose proof (Qsqr_nonneg (count_Q c / N)) as P. simpl in P.
  set (x := count_Q c / N * (count_Q c / N)) in *. clearbody x.
  set (y := Qsum _) in *. clearbody y. lra.
Qed.

Lemma round64_error_nonneg (x : Q) :
  0 <= x -> Qabs (round64 x - x) <= x * unit_roundoff.
Proof.
  intros H. pose proof (round64_error x) as E.
  rewrite (Qabs_pos x H) in E. exact E.
Qed.

(** The loop of [gini] against the exact subtraction of the squared shares:
    each turn adds at most [3 u] and [8 u] times the share to the error. *)
Lemma gini_loop_error (n : nat) (items : dict) (I E B : Q) :
  (0 < n)%nat -> (Z.of_nat n < 2 ^ 53)%Z ->
  (total items <= n)%nat ->
  Qabs (I - E) <= B -> 0 <= B ->
  0 <= E - Qsum (map (fun kc => (count_Q (snd kc) / count_Q n) ^ 2) items) ->
  E <= 1 ->
  B + 3 * unit_roundoff * count_Q (length items)
    + 8 * unit_roundoff * (count_Q (total items) / count_Q n) <= 1 ->
  exists g,
    gini_loop (round64 (count_Q n)) items I = Ok g /\
    Qabs (g - (E - Qsum (map (fun kc => (count_Q (snd kc) / count_Q n) ^ 2) items)))
    <= B + 3 * unit_roundoff * count_Q (length items)
       + 8 * unit_roundoff * (count_Q (total items) / count_Q n).
Proof.
  intros Hn Hn53. pose proof (count_Q_pos n Hn) as Pn.
  destruct unit_roundoff_small as [U0 U1].
  assert (Hs : ~ round64 (count_Q n) == 0).
  { apply round64_nonzero. intros C. rewrite C in Pn. apply (Qlt_irrefl 0), Pn. }
  revert I E B. induction items as [|[k c] items IH]; intros I E B Ht HB B0 E0 E1 Hsum.
  - exists I. split; [reflexivity|].
    cbn [map Qsum fold_right length]. change (total []) with 0%nat.
    change (count_Q 0) with 0.
    setoid_replace (0 / count_Q n) with 0 by (unfold Qdiv; ring).
    setoid_replace (B + 3 * unit_roundoff * 0 + 8 * unit_roundoff * 0) with B by ring.
    setoid_replace (I - (E - 0)) with (I - E) by ring. exact HB.
  - cbn [gini_loop]. rewrite (fdiv_Ok _ _ Hs). cbn [bind].
    assert (Tc : total ((k, c) :: items) = (c + total items)%nat) by reflexivity.
    rewrite Tc in Ht, Hsum |- *.
    assert (Hc53 : (Z.of_nat c < 2 ^ 53)%Z) by lia.
    set (q := count_Q c / count_Q n).
    assert (Eq : round64 (count_Q c) / round64 (count_Q n) == q).
    { unfold q. rewrite (round64_count c Hc53), (round64_count n Hn53). reflexivity. }
    rewrite (round64_Qeq _ _ Eq).
    assert (Q0 : 0 <= q).
    { unfold q. apply Qle_shift_div_l; [exact Pn|]. rewrite Qmult_0_l.
      apply count_Q_nonneg. }
    assert (Q1 : q <= 1).
    { unfold q. apply Qle_shift_div_r; [exact Pn|]. rewrite Qmult_1_l.
      apply count_Q_le. lia. }
    set (p := round64 q). set (s := fmul p p). set (I1 := fsub I s).
    assert (P0 : 0 <= p) by (apply round64_nonneg, Q0).
    assert (Hp : Qabs (p - q) <= q * unit_roundoff)
      by (apply round64_error_nonneg, Q0).
    assert (Hss : Qabs (s - p * p) <= p * p * unit_roundoff).
    { apply round64_error_nonneg. apply Qmult_le_0_compat; exact P0. }
    assert (HI : Qabs (I1 - (I - s)) <= Qabs (I - s) * unit_roundoff)
      by apply round64_error.
    set (rest := Qsum (map (fun kc => (count_Q (snd kc) / count_Q n) ^ 2) items)) in *.
    assert (R0 : 0 <= rest) by apply Qsum_squares_nonneg.
    assert (Es : Qsum (map (fun kc => (count_Q (snd kc) / count_Q n) ^ 2) ((k, c) :: items))
                 == q * q + rest).
    { cbn [map Qsum fold_right snd]. fold rest. fold q. simpl. reflexivity. }
    rewrite Es in E0.
    set (sigma := count_Q (total items) / count_Q n) in *.
    assert (S0 : 0 <= sigma).
    { unfold sigma. apply Qle_shift_div_l; [exact Pn|]. rewrite Qmult_0_l.
      apply count_Q_nonneg. }
    assert (Esig : count_Q (c + total items) / count_Q n == q + sigma).
    { unfold q, sigma. rewrite count_Q_plus. field.
      intros C. rewrite C in Pn. apply (Qlt_irrefl 0), Pn. }
    rewrite Esig in Hsum.
    assert (El : count_Q (length ((k, c) :: items)) == count_Q (length items) + 1).
    { change (length ((k, c) :: items)) with (1 + length items)%nat.
      rewrite count_Q_plus. change (count_Q 1) with 1. ring. }
    rewrite El in Hsum.
    pose proof (count_Q_nonneg (length items)) as L0.
    set (len_items := count_Q (length items)) in *.
    assert (QQ : 0 <= q * q) by (apply Qmult_le_0_compat; exact Q0).
    assert (UQ : 0 <= unit_roundoff * q) by (apply Qmult_le_0_compat; assumption).
    assert (UL : 0 <= unit_roundoff * len_items) by (apply Qmult_le_0_compat; assumption).
    assert (US : 0 <= unit_roundoff * sigma) by (apply Qmult_le_0_compat; assumption).
    assert (Hstep : Qabs (I1 - (E - q * q)) <= B + 3 * unit_roundoff + 8 * unit_roundoff * q).
    { apply (gini_step_error unit_roundoff q p s I I1 E B); try assumption.
      - clearbody q rest sigma len_items p s I1. clear - Hsum B0 U0 UQ UL US.
        set (a := unit_roundoff * q) in *. set (b := unit_roundoff * len_items) in *.
        set (d := unit_roundoff * sigma) in *.
        setoid_replace (B + 3 * unit_roundoff * (len_items + 1)
                        + 8 * unit_roundoff * (q + sigma))
          with (B + 3 * b + 3 * unit_roundoff + 8 * a + 8 * d) in Hsum
          by (unfold a, b, d; ring).
        clearbody a b d. lra.
      - clearbody q rest. clear - E0 R0. set (qq := q * q) in *. clearbody qq. lra.
      - clearbody q rest. clear - E1 QQ. set (qq := q * q) in *. clearbody qq. lra. }
    destruct (IH I1 (E - q * q) (B + 3 * unit_roundoff + 8 * unit_roundoff * q))
      as (g & Hg & Herr).
    + lia.
    + exact Hstep.
    + clearbody q. clear - B0 U0 UQ.
      setoid_replace (8 * unit_roundoff * q) with (8 * (unit_roundoff * q)) by ring.
      set (a := unit_roundoff * q) in *. clearbody a. lra.
    + fold rest. clearbody q rest. clear - E0.
      set (qq := q * q) in *. clearbody qq. lra.
    + clearbody q. clear - E1 QQ. set (qq := q * q) in *. clearbody qq. lra.
    + fold sigma. fold len_items.
      setoid_replace (B + 3 * unit_roundoff + 8 * unit_roundoff * q
                      + 3 * unit_roundoff * len_items + 8 * unit_roundoff * sigma)
        with (B + 3 * unit_roundoff * (len_items + 1) + 8 * unit_roundoff * (q + sigma))
        by ring.
      exact Hsum.
    + exists g. split; [exact Hg|]. fold rest sigma len_items in Herr.
      rewrite Es, Esig, El. fold len_items.
      setoid_replace (E - (q * q + rest)) with (E - q * q - rest) by ring.
      setoid_replace (B + 3 * unit_roundoff * (len_items + 1)
                      + 8 * unit_roundoff * (q + sigma))
        with (B + 3 * unit_roundoff + 8 * unit_roundoff * q
              + 3 * unit_roundoff * len_items + 8 * unit_roundoff * sigma)
        by ring.
      exact Herr.
Qed.

Lemma first_seen_from_length (l seen : list Q) :
  (length (first_seen_from seen l) <= length l)%nat.
Proof.
  revert seen. induction l as [|a l IH]; intros seen; simpl; [lia|].
  destruct (mem_Q a seen); simpl; [specialize (IH seen) | specialize (IH (a :: seen))]; lia.
Qed.

Lemma distinct_labels_length (rows : list row) :
  (length (distinct_labels rows) <= length rows)%nat.
Proof.
  unfold distinct_labels, first_seen_list.
  pose proof (first_seen_from_length (labels rows) []) as H.
  unfold labels in H at 2. rewrite length_map in H. exact H.
Qed.

Lemma count_into_length (rows : list row) :
  length (count_into [] (labels rows)) = length (distinct_labels rows).
Proof.
  pose proof (keys_count_into (labels rows) []) as K. simpl in K.
  unfold distinct_labels, first_seen_list. rewrite <- K. unfold keys.
  rewrite length_map. reflexivity.
Qed.

(** [gini] is within [gini_error_bound] of the formula. *)
Lemma gini_error (rows : list row) (g : Q) :
  rows <> [] -> (Z.of_nat (length rows) <= 2 ^ 50)%Z ->
  gini rows = Ok g ->
  Qabs (g - gini_formula rows) <= gini_error_bound rows.
Proof.
  intros Hne Hn Hg. unfold gini in Hg. inv_bind_as Hg d Hd.
  apply class_counts_from_Ok_inv in Hd. destruct Hd as [_ ->].
  assert (Pn : (0 < length rows)%nat) by (destruct rows; [congruence | simpl; lia]).
  assert (Ht : total (count_into [] (labels rows)) = length rows).
  { rewrite total_count_into. unfold labels. rewrite length_map. reflexivity. }
  pose proof (gini_formula_range rows Hne) as (G0 & _).
  pose proof (distinct_labels_length rows) as Lk.
  pose proof (count_Q_pos _ Pn) as PN.
  destruct (gini_loop_error (length rows) (count_into [] (labels rows)) 1 1 0)
    as (g' & Hg' & Herr).
  - exact Pn.
  - lia.
  - rewrite Ht. apply Nat.le_refl.
  - setoid_replace (1 - 1) with 0 by ring. simpl. apply Qle_refl.
  - apply Qle_refl.
  - change (count_Q (length rows)) with (len rows).
    rewrite gini_formula_histogram. exact G0.
  - discriminate.
  - rewrite Ht, count_into_length.
    setoid_replace (count_Q (length rows) / count_Q (length rows)) with 1
      by (field; intros C; rewrite C in PN; apply (Qlt_irrefl 0), PN).
    assert (K : count_Q (length (distinct_labels rows)) <= inject_Z (2 ^ 50)).
    { unfold count_Q. rewrite <- Zle_Qle. lia. }
    set (k := count_Q (length (distinct_labels rows))) in *. clearbody k.
    change unit_roundoff with (1 # 9007199254740992).
    change (inject_Z (2 ^ 50)) with (1125899906842624 # 1) in K.
    clear - K. lra.
  - change (len rows) with (count_Q (length rows)) in Hg.
    rewrite Hg in Hg'. injection Hg' as <-.
    change (count_Q (length rows)) with (len rows) in Herr.
    rewrite gini_formula_histogram in Herr.
    rewrite Ht, count_into_length in Herr.
    eapply Qle_trans; [exact Herr|]. unfold gini_error_bound.
    setoid_replace (count_Q (length rows) / count_Q (length rows)) with 1
      by (field; intros C; rewrite C in PN; apply (Qlt_irrefl 0), PN).
    set (k := count_Q (length (distinct_labels rows))).
    setoid_replace (0 + 3 * unit_roundoff * k + 8 * unit_roundoff * 1)
      with ((3 * k + 8) * unit_roundoff) by ring.
    apply Qle_refl.
Qed.

(** The histogram and the impurity of rows that share one label. *)
Lemma count_into_pure (k : Q) (c : nat) (ls : list Q) :
  (forall l, In l ls -> l == k) ->
  count_into [(k, c)] ls = [(k, (c + length ls)%nat)].
Proof.
  revert c. induction ls as [|l ls IH]; simpl; intros c H.
  - now rewrite Nat.add_0_r.
  - assert (E : Qeq_bool k l = true).
    { apply Qeq_bool_iff. symmetry. apply H. now left. }
    rewrite E. rewrite IH by (intros; apply H; now right).
    f_equal. f_equal. lia.
Qed.

Lemma class_counts_pure (rows : list row) (k : Q) :
  rows <> [] -> Forall (fun r => r <> []) rows ->
  (forall r, In r rows -> last r 0 == k) ->
  class_counts rows = Ok [(last (hd [] rows) 0, length rows)].
Proof.
  intros Hne Hrows Hk. rewrite (class_counts_spec rows Hrows). f_equal.
  destruct rows as [|r rows]; [congruence|]. simpl.
  rewrite count_into_pure.
  - unfold labels. rewrite length_map. reflexivity.
  - intros l Hl. unfold labels in Hl. apply in_map_iff in Hl.
    destruct Hl as (r' & <- & Hr'). rewrite (Hk r') by now right.
    symmetry. apply Hk. now left.
Qed.

Lemma pure_first_label (rows : list row) :
  pure rows -> forall r, In r rows -> last r 0 == last (hd [] rows) 0.
Proof.
  intros H r Hr. apply H.
  - unfold labels. apply (in_map (fun r => last r 0)), Hr.
  - unfold labels. apply (in_map (fun r => last r 0)).
    destruct rows as [|r0 rows]; [contradiction | now left].
Qed.

Lemma gini_pure (rows : list row) (k g0 : Q) :
  rows <> [] ->
  (forall r, In r rows -> last r 0 == k) ->
  gini rows = Ok g0 -> g0 == 0.
Proof.
  intros Hne Hk Hg.
  assert (Hrows : Forall (fun r => r <> []) rows).
  { unfold gini in Hg. inv_bind_as Hg d Hd.
    apply class_counts_from_Ok_inv in Hd. tauto. }
  unfold gini in Hg. rewrite (class_counts_pure rows k Hne Hrows Hk) in Hg.
  cbn [bind gini_loop] in Hg.
  rewrite (fdiv_Ok _ _ (round64_len_nonzero rows Hne)) in Hg. cbn [bind] in Hg.
  injection Hg as <-.
  assert (E1 : round64 (count_Q (length rows)) / round64 (len rows) == 1).
  { change (count_Q (length rows)) with (len rows). field.
    apply round64_len_nonzero, Hne. }
  unfold fsub, fmul. rewrite (round64_Qeq _ _ E1), round64_1.
  reflexivity.
Qed.

(** C4, amended: for a non-empty row set of at most [2^50] rows, carrying
    [k] distinct labels, [gini] returns the binary64 evaluation of 1 minus
    the sum over the labels of (count(label)/total) squared: a number within
    [(3 k + 8) * 2^-53] of that formula.  The formula lies in [0, 1 - 1/k];
    the number returned lies within the same distance of that interval, and
    can leave it.  It is exactly 0 when all rows share one label and, for at
    most [2^25] rows, only then. *)
Theorem gini_formula_and_range (rows : list row) :
  rows <> [] ->
  Forall (fun r => r <> []) rows ->
  (Z.of_nat (length rows) <= 2 ^ 50)%Z ->
  exists g,
    gini rows = Ok g /\
    Qabs (g - gini_formula rows) <= gini_error_bound rows /\
    0 <= gini_formula rows /\
    gini_formula rows <= 1 - 1 / count_Q (length (distinct_labels rows)) /\
    - gini_error_bound rows <= g /\
    g <= 1 - 1 / count_Q (length (distinct_labels rows)) + gini_error_bound rows /\
    (pure rows -> g == 0) /\
    ((Z.of_nat (length rows) <= 2 ^ 25)%Z -> g == 0 -> pure rows).
Proof.
  intros Hne Hrows Hn.
  destruct (gini_total rows Hrows) as (g & Hg & _).
  pose proof (gini_error rows g Hne Hn Hg) as Herr.
  pose proof (gini_formula_range rows Hne) as (G0 & G1 & Gp & Gi).
  exists g. split; [exact Hg|]. split; [exact Herr|].
  split; [exact G0|]. split; [exact G1|].
  pose proof Herr as Herr'. apply Qabs_Qle_condition in Herr'.
  destruct Herr' as [E1 E2].
  set (G := gini_formula rows) in *. set (eps := gini_error_bound rows) in *.
  set (top := 1 - 1 / count_Q (length (distinct_labels rows))) in *.
  split; [clearbody G eps top; clear - E1 G0; lra|].
  split; [clearbody G eps top; clear - E2 G1; lra|].
  split.
  - intros Hp. eapply gini_pure; [exact Hne | apply pure_first_label, Hp | exact Hg].
  - intros Hn25 Hz. destruct (Qeq_dec G 0) as [Ez|Nz]; [apply Gp, Ez|].
    exfalso.
    assert (Hi : ~ pure rows) by (intros Hp; apply Nz, Gp, Hp).
    specialize (Gi Hi).
    assert (Pn : (0 < length rows)%nat) by (destruct rows; [congruence | simpl; lia]).
    pose proof (count_Q_pos _ Pn) as PN. change (count_Q (length rows)) with (len rows) in PN.
    assert (N25 : len rows <= inject_Z (2 ^ 25)).
    { unfold len. rewrite <- Zle_Qle. exact Hn25. }
    assert (K25 : count_Q (length (distinct_labels rows)) <= inject_Z (2 ^ 25)).
    { unfold count_Q. rewrite <- Zle_Qle. pose proof (distinct_labels_length rows). lia. }
    assert (Low : 1 # 33554432 <= 1 / len rows).
    { apply Qle_shift_div_l; [exact PN|].
      change (inject_Z (2 ^ 25)) with (33554432 # 1) in N25.
      set (N := len rows) in *. clearbody N. clear - N25. lra. }
    assert (Eps : eps <= (3 * (33554432 # 1) + 8) * (1 # 9007199254740992)).
    { unfold eps, gini_error_bound. change unit_roundoff with (1 # 9007199254740992).
      change (inject_Z (2 ^ 25)) with (33554432 # 1) in K25.
      set (k := count_Q (length (distinct_labels rows))) in *. clearbody k.
      clear - K25. lra. }
    set (invn := 1 / len rows) in *.
    clearbody G eps top invn. clear - Eps Low Gi E1 E2 Hz. lra.
Qed.

Lemma gini_formula_and_range_witness :
  exists g,
    gini four_rows = Ok g /\
    Qabs (g - gini_formula four_rows) <= gini_error_bound four_rows /\
    0 <= gini_formula four_rows /\
    gini_formula four_rows <= 1 - 1 / count_Q (length (distinct_labels four_rows)) /\
    - gini_error_bound four_rows <= g /\
    g <= 1 - 1 / count_Q (length (distinct_labels four_rows))
         + gini_error_bound four_rows /\
    (pure four_rows -> g == 0) /\
    ((Z.of_nat (length four_rows) <= 2 ^ 25)%Z -> g == 0 -> pure four_rows).
Proof.
  apply (gini_formula_and_range four_rows).
  - discriminate.
  - repeat constructor; discriminate.
  - vm_compute. discriminate.
Defined.

(** C4 fails as stated: for eleven rows with eleven labels the code's
    impurity is above [1 - 1/11], and it is not the value of the formula. *)
Lemma gini_eleven_labels_above_range :
  exists g,
    gini eleven_rows = Ok g /\
    length (distinct_labels eleven_rows) = 11%nat /\
    gini_formula eleven_rows == 10 # 11 /\
    ~ g == gini_formula eleven_rows /\
    ~ g <= 1 - 1 / count_Q (length (distinct_labels eleven_rows)).
Proof.
  eexists. split; [vm_compute; reflexivity|].
  split; [reflexivity|]. split; [vm_compute; reflexivity|].
  split; vm_compute; intros H; [discriminate H | apply H; reflexivity].
Qed.

(** ** Loops *)

Lemma for_each_app {A S : Type} (xs ys : list A) (body : S -> A -> result S) (s : S) :
  for_each (xs ++ ys) body s = (s' <- for_each xs body s ;; for_each ys body s').
Proof.
  revert s. induction xs as [|x xs IH]; simpl; intros s; [reflexivity|].
  destruct (body s x) as [s1| |]; simpl; [apply IH | reflexivity | reflexivity].
Qed.

(** An invariant indexed by the elements already visited. *)
Lemma for_each_visited {A S : Type} (I : list A -> S -> Prop)
  (xs : list A) (body : S -> A -> result S) (s s' : S) :
  I [] s ->
  (forall pre x s1 s2, I pre s1 -> body s1 x = Ok s2 -> I (pre ++ [x]) s2) ->
  for_each xs body s = Ok s' ->
  I xs s'.
Proof.
  intros H0 Hstep.
  assert (G : forall pre s1, I pre s1 -> for_each xs body s1 = Ok s' -> I (pre ++ xs) s').
  { induction xs as [|x xs IH]; simpl; intros pre s1 H1 H.
    - injection H as <-. now rewrite app_nil_r.
    - inv_bind H. replace (pre ++ x :: xs) with ((pre ++ [x]) ++ xs)
        by (rewrite <- app_assoc; reflexivity).
      apply (IH (pre ++ [x]) v); [|exact H]. eapply Hstep; eassumption. }
  apply (G [] s H0).
Qed.

Lemma for_each_total {A S : Type} (xs : list A) (body : S -> A -> result S) (s : S) :
  (forall s1 x, In x xs -> exists s2, body s1 x = Ok s2) ->
  exists s', for_each xs body s = Ok s'.
Proof.
  revert s. induction xs as [|x xs IH]; simpl; intros s H.
  - now exists s.
  - destruct (H s x (or_introl eq_refl)) as (s2 & E). rewrite E. simpl.
    apply IH. intros s1 y Hy. apply H. now right.
Qed.

Lemma map_each_total {A B : Type} (f : A -> result B) (g : A -> B) (xs : list A) :
  (forall x, In x xs -> f x = Ok (g x)) -> map_each f xs = Ok (map g xs).
Proof.
  induction xs as [|x xs IH]; simpl; intros H; [reflexivity|].
  rewrite (H x) by now left. simpl. rewrite IH; [reflexivity|].
  intros y Hy. apply H. now right.
Qed.

Lemma map_each_Ok_inv {A B : Type} (f : A -> result B) (xs : list A) (ys : list B) :
  map_each f xs = Ok ys -> Forall2 (fun x y => f x = Ok y) xs ys.
Proof.
  revert ys. induction xs as [|x xs IH]; simpl; intros ys H.
  - injection H as <-. constructor.
  - inv_bind H. inv_bind H. injection H as <-. constructor; [exact Hv | now apply IH].
Qed.

Lemma Forall2_In_l {A B : Type} (R : A -> B -> Prop) (xs : list A) (ys : list B)
  (x : A) :
  Forall2 R xs ys -> In x xs -> exists y, In y ys /\ R x y.
Proof.
  induction 1 as [|a b xs ys Hab _ IH]; simpl; intros H; [contradiction|].
  destruct H as [<-|H].
  - exists b. split; [now left | exact Hab].
  - destruct (IH H) as (y & Hy & Hr). exists y. split; [now right | exact Hr].
Qed.

Lemma getitem_Ok_inv {A : Type} (xs : list A) (i : nat) (x d : A) :
  getitem xs i = Ok x -> (i < length xs)%nat /\ x = nth i xs d.
Proof.
  unfold getitem. destruct (nth_error xs i) eqn:E; [|discriminate].
  intros H. injection H as <-. split.
  - apply nth_error_Some. congruence.
  - symmetry. now apply nth_error_nth.
Qed.

Lemma getitem_Ok {A : Type} (xs : list A) (i : nat) (d : A) :
  (i < length xs)%nat -> getitem xs i = Ok (nth i xs d).
Proof.
  intros H. unfold getitem. rewrite (nth_error_nth' xs d H). reflexivity.
Qed.

(** ** Partition *)

Lemma match_Ok_inv (q : Question) (r : row) (m : bool) :
  match_ q r = Ok m -> (feature q < length r)%nat /\ m = goes_true q r.
Proof.
  unfold match_. intros H. inv_bind H. injection H as <-.
  apply (getitem_Ok_inv _ _ _ 0) in Hv. destruct Hv as [L ->]. now split.
Qed.

Lemma match_Ok (q : Question) (r : row) :
  (feature q < length r)%nat -> match_ q r = Ok (goes_true q r).
Proof.
  intros H. unfold match_. rewrite (getitem_Ok r (feature q) 0 H). reflexivity.
Qed.

Lemma partition_Ok_inv (rows : list row) (q : Question) (t f : list row) :
  partition rows q = Ok (t, f) ->
  Forall (fun r => feature q < length r)%nat rows /\
  t = filter (goes_true q) rows /\
  f = filter (fun r => negb (goes_true q r)) rows.
Proof.
  revert t f. induction rows as [|r rows IH]; simpl; intros t f H.
  - injection H as <- <-. repeat split. constructor.
  - inv_bind H. inv_bind H. destruct v0 as [t' f'].
    apply match_Ok_inv in Hv. destruct Hv as [L ->].
    destruct (IH t' f' Hv0) as (Hall & -> & ->).
    destruct (goes_true q r); injection H as <- <-; simpl;
      (split; [now constructor | split; reflexivity]).
Qed.

Lemma partition_Ok (rows : list row) (q : Question) :
  Forall (fun r => feature q < length r)%nat rows ->
  partition rows q =
  Ok (filter (goes_true q) rows, filter (fun r => negb (goes_true q r)) rows).
Proof.
  induction 1 as [|r rows Hr _ IH]; simpl; [reflexivity|].
  rewrite (match_Ok q r Hr), IH. simpl. destruct (goes_true q r); reflexivity.
Qed.

Lemma filter_length_split {A : Type} (p : A -> bool) (l : list A) :
  (length (filter p l) + length (filter (fun x => negb (p x)) l) = length l)%nat.
Proof. induction l as [|a l IH]; simpl; [reflexivity|]. destruct (p a); simpl; lia. Qed.

Lemma filter_nil_all {A : Type} (p : A -> bool) (l : list A) :
  filter p l = [] -> filter (fun x => negb (p x)) l = l.
Proof.
  induction l as [|a l IH]; simpl; [reflexivity|].
  destruct (p a); simpl; [discriminate|]. intros H. now rewrite IH.
Qed.

Lemma filter_neg_nil_all {A : Type} (p : A -> bool) (l : list A) :
  filter (fun x => negb (p x)) l = [] -> filter p l = l.
Proof.
  induction l as [|a l IH]; simpl; [reflexivity|].
  destruct (p a); simpl; [|discriminate]. intros H. now rewrite IH.
Qed.

Lemma partition_lengths (rows : list row) (q : Question) (t f : list row) :
  partition rows q = Ok (t, f) -> (length t + length f = length rows)%nat.
Proof.
  intros H. apply partition_Ok_inv in H. destruct H as (_ & -> & ->).
  apply filter_length_split.
Qed.

Lemma partition_Forall (P : row -> Prop) (rows : list row) (q : Question)
  (t f : list row) :
  partition rows q = Ok (t, f) -> Forall P rows -> Forall P t /\ Forall P f.
Proof.
  intros H HP. apply partition_Ok_inv in H. destruct H as (_ & -> & ->).
  rewrite Forall_forall in HP.
  split; apply Forall_forall; intros r Hr; apply filter_In in Hr; apply HP, Hr.
Qed.

Lemma partition_empty_side (rows : list row) (q : Question) (t f : list row) :
  partition rows q = Ok (t, f) -> (t = [] -> f = rows) /\ (f = [] -> t = rows).
Proof.
  intros H. apply partition_Ok_inv in H. destruct H as (_ & -> & ->).
  split; [apply filter_nil_all | apply filter_neg_nil_all].
Qed.

(** ** Information gain *)

Lemma len_nil {A : Type} : len (@nil A) = 0.
Proof. reflexivity. Qed.

Lemma len_nonzero {A : Type} (xs : list A) : xs <> [] -> ~ len xs == 0.
Proof.
  intros H E. pose proof (len_pos xs H) as P. rewrite E in P. apply (Qlt_irrefl 0), P.
Qed.

Lemma len_plus_nonzero {A : Type} (xs ys : list A) :
  xs <> [] \/ ys <> [] -> ~ len xs + len ys == 0.
Proof.
  intros H E.
  assert (0 <= len xs) by apply (count_Q_nonneg (length xs)).
  assert (0 <= len ys) by apply (count_Q_nonneg (length ys)).
  destruct H as [H|H]; apply len_pos in H; lra.
Qed.

Lemma info_gain_total (left right : list row) (cu : Q) :
  Forall (fun r => r <> []) left -> Forall (fun r => r <> []) right ->
  left <> [] \/ right <> [] ->
  exists v, info_gain left right cu = Ok v.
Proof.
  intros Hl Hr Hne. unfold info_gain.
  rewrite (fdiv_Ok _ _ (round64_nonzero _ (len_plus_nonzero left right Hne))).
  cbn [bind].
  destruct (gini_total left Hl) as (gl & -> & _).
  destruct (gini_total right Hr) as (gr & -> & _). cbn [bind]. eauto.
Qed.

(** A split that leaves the right side empty gains nothing over the parent:
    the probabilities are the floats 1 and 0, and nothing rounds. *)
Lemma info_gain_empty_right (rows : list row) (g0 : Q) :
  rows <> [] -> gini rows = Ok g0 ->
  exists v, info_gain rows [] g0 = Ok v /\ v == 0.
Proof.
  intros Hne Hg. unfold info_gain.
  assert (Hd : ~ len rows + len (@nil row) == 0) by (apply len_plus_nonzero; now left).
  rewrite (fdiv_Ok _ _ (round64_nonzero _ Hd)), Hg. cbn [bind].
  change (gini []) with (Ok (A := Q) 1). cbn [bind].
  eexists. split; [reflexivity|].
  assert (E1 : round64 (len rows) / round64 (len rows + len (@nil row)) == 1).
  { rewrite (round64_Qeq (len rows + len (@nil row)) (len rows))
      by (change (len (@nil row)) with 0; ring).
    field. apply round64_len_nonzero, Hne. }
  pose proof (gini_Ok_representable rows g0 Hg) as R. unfold representable in R.
  unfold fsub, fmul. rewrite (round64_Qeq _ _ E1), round64_1.
  rewrite (round64_Qeq (1 - 1) 0) by ring. rewrite round64_0.
  rewrite (round64_Qeq (1 * g0) g0) by ring.
  rewrite (round64_Qeq (g0 - round64 g0) 0) by (rewrite R; ring).
  rewrite round64_0.
  rewrite (round64_Qeq (0 * 1) 0) by ring. rewrite round64_0.
  rewrite (round64_Qeq (0 - 0) 0) by ring. rewrite round64_0. reflexivity.
Qed.

(** And so does one that leaves the left side empty. *)
Lemma info_gain_empty_left (rows : list row) (g0 : Q) :
  rows <> [] -> gini rows = Ok g0 ->
  exists v, info_gain [] rows g0 = Ok v /\ v == 0.
Proof.
  intros Hne Hg. unfold info_gain.
  assert (Hd : ~ len (@nil row) + len rows == 0) by (apply len_plus_nonzero; now right).
  rewrite (fdiv_Ok _ _ (round64_nonzero _ Hd)), Hg. cbn [bind].
  change (gini []) with (Ok (A := Q) 1). cbn [bind].
  eexists. split; [reflexivity|].
  assert (E0 : round64 (len (@nil row)) / round64 (len (@nil row) + len rows) == 0).
  { change (len (@nil row)) with 0. rewrite round64_0. unfold Qdiv. ring. }
  pose proof (gini_Ok_representable rows g0 Hg) as R. unfold representable in R.
  unfold fsub, fmul. rewrite (round64_Qeq _ _ E0), round64_0.
  rewrite (round64_Qeq (1 - 0) 1) by ring. rewrite round64_1.
  rewrite (round64_Qeq (0 * 1) 0) by ring. rewrite round64_0.
  rewrite (round64_Qeq (g0 - 0) g0) by ring.
  rewrite (round64_Qeq (1 * g0) g0) by ring.
  rewrite (round64_Qeq (round64 g0 - round64 g0) 0) by ring.
  rewrite round64_0. reflexivity.
Qed.

(** ** Occurrences of a label *)

Lemma sum_squares_dict_incr (x : Q) (d : dict) :
  sum_squares (dict_incr x d) = (sum_squares d + 2 * lookup x d + 1)%nat.
Proof.
  unfold sum_squares. induction d as [|[k c] d IH]; simpl; [reflexivity|].
  destruct (Qeq_bool k x); simpl; [lia|]. rewrite IH. lia.
Qed.

Lemma occurrences_app (k : Q) (l1 l2 : list Q) :
  occurrences k (l1 ++ l2) = (occurrences k l1 + occurrences k l2)%nat.
Proof. unfold occurrences. rewrite filter_app, length_app. reflexivity. Qed.

Lemma occurrences_Qeq (k x : Q) (l : list Q) :
  k == x -> occurrences k l = occurrences x l.
Proof.
  intros E. unfold occurrences. f_equal. apply filter_ext. intros a.
  destruct (Qeq_bool a k) eqn:Ek, (Qeq_bool a x) eqn:Ex; try reflexivity.
  - apply Qeq_bool_iff in Ek. apply Qeq_bool_false_iff in Ex.
    exfalso. apply Ex. rewrite Ek. exact E.
  - apply Qeq_bool_iff in Ex. apply Qeq_bool_false_iff in Ek.
    exfalso. apply Ek. rewrite Ex. symmetry. exact E.
Qed.

Lemma occurrences_snoc (k x : Q) (l : list Q) :
  occurrences k (l ++ [x])
  = (occurrences k l + (if Qeq_bool x k then 1 else 0))%nat.
Proof.
  rewrite occurrences_app. unfold occurrences at 2. simpl.
  destruct (Qeq_bool x k); reflexivity.
Qed.

Lemma square_occurrences_other (K : list Q) (l : list Q) (x : Q) :
  ~ InA Qeq x K ->
  square_occurrences K (l ++ [x]) = square_occurrences K l.
Proof.
  unfold square_occurrences. induction K as [|k K IH]; simpl; intros H; [reflexivity|].
  rewrite IH by (intros C; apply H; now constructor 2).
  rewrite occurrences_snoc.
  rewrite (proj2 (Qeq_bool_false_iff x k)); [simpl; lia|].
  intros C. apply H. now constructor.
Qed.

Lemma square_occurrences_snoc (K : list Q) (l : list Q) (x : Q) :
  NoDupA Qeq K -> InA Qeq x K ->
  square_occurrences K (l ++ [x])
  = (square_occurrences K l + 2 * occurrences x l + 1)%nat.
Proof.
  unfold square_occurrences. induction 1 as [|k K Hk ND IH]; simpl; intros Hin.
  - inversion Hin.
  - rewrite occurrences_snoc.
    destruct (Qeq_bool x k) eqn:E.
    + apply Qeq_bool_iff in E.
      fold (square_occurrences K (l ++ [x])).
      rewrite square_occurrences_other by (rewrite E; exact Hk).
      unfold square_occurrences. rewrite (occurrences_Qeq x k l E). lia.
    + apply Qeq_bool_false_iff in E.
      inversion Hin as [? ? C|? ? C]; subst; [contradiction|].
      rewrite (IH C). lia.
Qed.

(** The sum of the squared counts of a histogram, over any list of distinct
    keys that represents every label. *)
Lemma sum_squares_over_keys (K : list Q) (l : list Q) :
  NoDupA Qeq K -> (forall x, In x l -> InA Qeq x K) ->
  sum_squares (count_into [] l) = square_occurrences K l.
Proof.
  intros ND. induction l as [|x l IH] using rev_ind; intros Hcov.
  - unfold square_occurrences, sum_squares. simpl.
    induction K as [|k K IHK]; simpl; [reflexivity|].
    inversion ND; subst. now rewrite <- IHK.
  - unfold count_into. rewrite fold_left_app. simpl.
    fold (count_into [] l). rewrite sum_squares_dict_incr.
    rewrite lookup_count_into by constructor. simpl.
    rewrite IH by (intros y Hy; apply Hcov, in_or_app; now left).
    rewrite square_occurrences_snoc; [reflexivity | exact ND|].
    apply Hcov, in_or_app. right. now left.
Qed.

Lemma occurrences_filter_split (k : Q) (p : row -> bool) (rows : list row) :
  occurrences k (labels rows)
  = (occurrences k (labels (filter p rows))
     + occurrences k (labels (filter (fun r => negb (p r)) rows)))%nat.
Proof.
  unfold occurrences, labels. induction rows as [|r rows IH]; simpl; [reflexivity|].
  destruct (p r); simpl; destruct (Qeq_bool (last r 0) k); simpl; lia.
Qed.

(** ** Split search *)

Section SplitSearchFacts.

Variable order : set_order.
Variable self : Tree.

Lemma consider_eligible_gain (rows : list row) (g0 : Q)
  (st : Q * option Question) (q : Question) :
  consider self rows g0 st q =
  (og <- eligible_gain self rows g0 q ;; Ok (record_best st q og)).
Proof.
  unfold consider, eligible_gain.
  destruct (partition rows q) as [[t f]| |]; simpl; try reflexivity.
  destruct (Qlt_bool (len t) (stopping_criteria self)
            || Qlt_bool (len f) (stopping_criteria self)); simpl; [reflexivity|].
  destruct (info_gain t f g0) as [g| |]; simpl; try reflexivity.
  destruct (Qle_bool (fst st) g); reflexivity.
Qed.

Lemma best_so_far_step (rows : list row) (g0 : Q) (visited : list Question)
  (st st' : Q * option Question) (q : Question) :
  best_so_far self rows g0 visited st ->
  consider self rows g0 st q = Ok st' ->
  best_so_far self rows g0 (visited ++ [q]) st'.
Proof.
  intros (H0 & Hmax & Hq) H. rewrite consider_eligible_gain in H.
  inv_bind H. injection H as <-.
  assert (Hnew : forall q' v', In q' (visited ++ [q]) ->
                 eligible_gain self rows g0 q' = Ok (Some v') ->
                 In q' visited \/ v = Some v').
  { intros q' v' Hin E. apply in_app_or in Hin. destruct Hin as [Hin|[<-|[]]].
    - now left.
    - right. congruence. }
  unfold best_so_far.
  destruct v as [g|]; simpl.
  - destruct (Qle_bool (fst st) g) eqn:Ecmp; simpl.
    + apply Qle_bool_iff in Ecmp. split; [lra|]. split.
      * intros q' v' Hin E. destruct (Hnew q' v' Hin E) as [Hold|Heq].
        -- specialize (Hmax q' v' Hold E). lra.
        -- injection Heq as <-. lra.
      * split; [apply in_or_app; right; now left | exact Hv].
    + assert (Hlt : g < fst st).
      { apply Qnot_le_lt. intros C. apply Qle_bool_iff in C. congruence. }
      split; [exact H0|]. split.
      * intros q' v' Hin E. destruct (Hnew q' v' Hin E) as [Hold|Heq].
        -- exact (Hmax q' v' Hold E).
        -- injection Heq as <-. lra.
      * destruct (snd st) as [q0|].
        -- destruct Hq as [Hin Heg]. split; [apply in_or_app; now left | exact Heg].
        -- destruct Hq as [Hz Hneg]. split; [exact Hz|].
           intros q' v' Hin E. destruct (Hnew q' v' Hin E) as [Hold|Heq].
           ++ exact (Hneg q' v' Hold E).
           ++ injection Heq as <-. rewrite Hz in Hlt. exact Hlt.
  - split; [exact H0|]. split.
    + intros q' v' Hin E. destruct (Hnew q' v' Hin E) as [Hold|Heq];
        [exact (Hmax q' v' Hold E) | discriminate].
    + destruct (snd st) as [q0|].
      * destruct Hq as [Hin Heg]. split; [apply in_or_app; now left | exact Heg].
      * destruct Hq as [Hz Hneg]. split; [exact Hz|].
        intros q' v' Hin E. destruct (Hnew q' v' Hin E) as [Hold|Heq];
          [exact (Hneg q' v' Hold E) | discriminate].
Qed.

Lemma column_Ok_inv (rows : list row) (col : nat) (c : list Q) :
  map_each (fun r => getitem r col) rows = Ok c ->
  c = column col rows /\ Forall (fun r => col < length r)%nat rows.
Proof.
  intros H. apply map_each_Ok_inv in H. unfold column.
  induction H as [|r y rows ys Hy _ IH]; simpl.
  - split; [reflexivity | constructor].
  - apply (getitem_Ok_inv _ _ _ 0) in Hy. destruct Hy as [L ->].
    destruct IH as [-> Hall]. split; [reflexivity | now constructor].
Qed.

(** What a successful [find_best_split] returns. *)
Lemma find_best_split_Ok_inv (rows : list row) (st : Q * option Question) :
  find_best_split order self rows = Ok st ->
  exists g0, gini rows = Ok g0 /\ rows <> [] /\
             best_so_far self rows g0 (candidates order rows) st.
Proof.
  unfold find_best_split. intros H. inv_bind H. rename v into g0. inv_bind H.
  exists g0. split; [exact Hv|].
  assert (Hfirst : rows <> [] /\ v = hd [] rows).
  { destruct rows as [|r rows]; [discriminate|]. unfold getitem in Hv0.
    simpl in Hv0. injection Hv0 as <-. split; [discriminate | reflexivity]. }
  destruct Hfirst as [Hne ->]. split; [exact Hne|].
  unfold candidates, n_features.
  apply (for_each_visited
           (fun cols st =>
              best_so_far self rows g0
                (flat_map (fun col => map (mkQuestion col) (order (column col rows))) cols)
                st)) in H; [exact H | |].
  - unfold best_so_far. simpl. split; [lra|]. split; [intros ? ? []|].
    split; [reflexivity | intros ? ? []].
  - intros pre col s1 s2 I1 Hbody. inv_bind Hbody.
    apply column_Ok_inv in Hv1. destruct Hv1 as [-> _].
    rewrite flat_map_app. simpl. rewrite app_nil_r.
    apply (for_each_visited
             (fun vals st =>
                best_so_far self rows g0
                  (flat_map (fun col => map (mkQuestion col) (order (column col rows))) pre
                   ++ map (mkQuestion col) vals) st)) in Hbody; [exact Hbody | |].
    + simpl. rewrite app_nil_r. exact I1.
    + intros pre' val s3 s4 I3 Hstep. rewrite map_app, app_assoc. simpl.
      eapply best_so_far_step; eassumption.
Qed.

End SplitSearchFacts.

Section SplitSearchTotal.

Variable order : set_order.
Variable self : Tree.

Lemma candidates_feature (rows : list row) (q : Question) :
  In q (candidates order rows) -> (feature q < n_features rows)%nat.
Proof.
  unfold candidates. intros H. apply in_flat_map in H.
  destruct H as (col & Hcol & Hq). apply in_map_iff in Hq.
  destruct Hq as (val & <- & _). simpl. apply in_seq in Hcol. lia.
Qed.

Lemma rectangular_nonempty_rows (F : nat) (rows : list row) :
  rectangular F rows -> Forall (fun r => r <> []) rows.
Proof.
  apply Forall_impl. intros r H E. subst r. discriminate.
Qed.

Lemma rectangular_n_features (F : nat) (rows : list row) :
  rectangular F rows -> rows <> [] -> n_features rows = F.
Proof.
  intros H Hne. destruct rows as [|r rows]; [congruence|].
  inversion H; subst. unfold n_features. simpl. lia.
Qed.

Lemma partition_rectangular (F : nat) (rows : list row) (q : Question) :
  rectangular F rows -> (feature q <= F)%nat ->
  exists t f, partition rows q = Ok (t, f) /\
              rectangular F t /\ rectangular F f /\
              (length t + length f = length rows)%nat.
Proof.
  intros H Hq.
  assert (E : partition rows q =
              Ok (filter (goes_true q) rows, filter (fun r => negb (goes_true q r)) rows)).
  { apply partition_Ok. revert H. apply Forall_impl. intros r ->. lia. }
  eexists _, _. split; [exact E|].
  destruct (partition_Forall _ _ _ _ _ E H) as [Ht Hf].
  split; [exact Ht|]. split; [exact Hf|]. eapply partition_lengths, E.
Qed.

Lemma eligible_gain_total (F : nat) (rows : list row) (g0 : Q) (q : Question) :
  rectangular F rows -> rows <> [] -> (feature q <= F)%nat ->
  exists og, eligible_gain self rows g0 q = Ok og.
Proof.
  intros H Hne Hq. unfold eligible_gain.
  destruct (partition_rectangular F rows q H Hq) as (t & f & -> & Ht & Hf & L).
  simpl.
  destruct (Qlt_bool (len t) (stopping_criteria self)
            || Qlt_bool (len f) (stopping_criteria self)); [eauto|].
  destruct (info_gain_total t f g0) as (v & ->).
  - eapply rectangular_nonempty_rows, Ht.
  - eapply rectangular_nonempty_rows, Hf.
  - destruct t; [right | left; discriminate].
    destruct f; [|discriminate]. destruct rows; [congruence | simpl in L; lia].
  - simpl. eauto.
Qed.

Lemma find_best_split_total (F : nat) (rows : list row) :
  rectangular F rows -> rows <> [] ->
  exists st, find_best_split order self rows = Ok st.
Proof.
  intros H Hne. unfold find_best_split.
  destruct (gini_total rows (rectangular_nonempty_rows F rows H)) as (g0 & -> & _).
  cbn [bind].
  assert (Hg : getitem rows 0 = Ok (hd [] rows))
    by (destruct rows; [congruence | reflexivity]).
  rewrite Hg. cbn [bind].
  change (length (hd [] rows) - 1)%nat with (n_features rows).
  rewrite (rectangular_n_features F rows H Hne).
  apply for_each_total. intros s1 col Hcol. apply in_seq in Hcol.
  rewrite (map_each_total _ (fun r => nth col r 0)).
  - cbn [bind]. apply for_each_total. intros s2 val _.
    rewrite consider_eligible_gain.
    destruct (eligible_gain_total F rows g0 (mkQuestion col val) H Hne)
      as (og & ->); [simpl; lia|]. simpl. eauto.
  - intros r' Hr'. apply getitem_Ok.
    unfold rectangular in H. rewrite Forall_forall in H. rewrite (H r' Hr'). lia.
Qed.

End SplitSearchTotal.

(** ** C1: what [find_best_split] returns *)


(** With binary64 gains an eligible split can gain less than 0: on
    [rounding_rows] with [stopping_criteria = 3] the only eligible split is
    [feature 0 >= 4]; both sides have the parent's label proportions, and the
    rounded gain is [-2^-55].  The comparison [g >= most_gain] then fails
    against the initial 0, and the question returned is null although a
    candidate passed the row-count floor. *)
Lemma find_best_split_skips_negative_gain :
  exists g0 v,
    gini rounding_rows = Ok g0 /\
    In (mkQuestion 0 4) (candidates first_seen rounding_rows) /\
    eligible_gain (Tree_init 3) rounding_rows g0 (mkQuestion 0 4) = Ok (Some v) /\
    v == - pow2 (-55) /\
    has_eligible_candidate first_seen (Tree_init 3) rounding_rows g0 /\
    find_best_split first_seen (Tree_init 3) rounding_rows = Ok (0, None).
Proof.
  eexists _, _. split; [vm_compute; reflexivity|].
  assert (Hin : In (mkQuestion 0 4) (candidates first_seen rounding_rows))
    by (vm_compute; tauto).
  split; [exact Hin|].
  assert (Hq : eligible_gain (Tree_init 3) rounding_rows
                 (2001599834386887 # 4503599627370496) (mkQuestion 0 4)
               = Ok (Some (-1 # 36028797018963968)))
    by (vm_compute; reflexivity).
  split; [exact Hq|]. split; [reflexivity|].
  split; [exists (mkQuestion 0 4); eexists; split; [exact Hin | exact Hq]|].
  vm_compute. reflexivity.
Qed.



(** ** The recursive builder *)

Section Builder.

Variable order : set_order.
Variable self : Tree.

Lemma build_Built (fuel : nat) (rows : list row) (node : Node) :
  build order fuel self rows = Ok node -> Built order self rows node.
Proof.
  revert rows node. induction fuel as [|fuel IH]; intros rows node H; [discriminate|].
  simpl in H. inv_bind H. destruct v as [gain question].
  destruct (Qeq_bool gain 0) eqn:Eg.
  - unfold Node_init in H. simpl in H. inv_bind H. injection H as <-.
    eapply Built_leaf; [exact Hv | now apply Qeq_bool_iff | exact Hv0].
  - inv_bind H. destruct question as [q|]; [|discriminate].
    injection Hv0 as <-. inv_bind H. destruct v as [t f].
    inv_bind H. inv_bind H. unfold Node_init in H. simpl in H.
    injection H as <-.
    eapply Built_decision; [exact Hv | now apply Qeq_bool_false_iff | exact Hv0 | |];
      apply IH; assumption.
Qed.

(** The question of a non-zero gain was not skipped: both sides hold at
    least [stopping_criteria] rows, and neither side is empty. *)
Lemma accepted_split (rows : list row) (gain : Q) (question : option Question) :
  find_best_split order self rows = Ok (gain, question) ->
  ~ gain == 0 ->
  exists q t f,
    question = Some q /\ In q (candidates order rows) /\
    partition rows q = Ok (t, f) /\
    stopping_criteria self <= len t /\ stopping_criteria self <= len f /\
    t <> [] /\ f <> [] /\ 0 < gain.
Proof.
  intros Hf Hnz.
  destruct (find_best_split_Ok_inv order self rows _ Hf)
    as (g0 & Hg & Hne & H0 & _ & Hb).
  simpl in H0, Hb. destruct question as [q|].
  - destruct Hb as [Hin He]. unfold eligible_gain in He.
    inv_bind He. destruct v as [t f].
    destruct (Qlt_bool (len t) (stopping_criteria self)) eqn:Et; [discriminate|].
    destruct (Qlt_bool (len f) (stopping_criteria self)) eqn:Ef; [discriminate|].
    simpl in He. inv_bind He. injection He as ->.
    apply Qlt_bool_false_iff in Et. apply Qlt_bool_false_iff in Ef.
    exists q, t, f. repeat split; try assumption; try reflexivity.
    + intros ->. destruct (partition_empty_side _ _ _ _ Hv) as [E _].
      rewrite (E eq_refl) in Hv0.
      destruct (info_gain_empty_left rows g0 Hne Hg) as (v' & Hv' & Ez).
      rewrite Hv' in Hv0. injection Hv0 as ->. contradiction.
    + intros ->. destruct (partition_empty_side _ _ _ _ Hv) as [_ E].
      rewrite (E eq_refl) in Hv0.
      destruct (info_gain_empty_right rows g0 Hne Hg) as (v' & Hv' & Ez).
      rewrite Hv' in Hv0. injection Hv0 as ->. contradiction.
    + apply Qnot_le_lt. intros C. apply Hnz. lra.
  - destruct Hb as [E _]. exfalso. apply Hnz. rewrite E. reflexivity.
Qed.

(** [build] returns a node as soon as its fuel covers the number of rows. *)
Lemma build_total (F : nat) (fuel : nat) (rows : list row) :
  rectangular F rows -> rows <> [] -> (length rows <= fuel)%nat ->
  exists node, build order fuel self rows = Ok node.
Proof.
  revert rows. induction fuel as [|fuel IH]; intros rows Hrect Hne Hlen.
  - destruct rows; [congruence | simpl in Hlen; lia].
  - simpl.
    destruct (find_best_split_total order self F rows Hrect Hne) as ([gain question] & Hf).
    rewrite Hf. simpl. destruct (Qeq_bool gain 0) eqn:Eg.
    + unfold Node_init. simpl.
      rewrite (class_counts_spec rows (rectangular_nonempty_rows F rows Hrect)).
      simpl. eauto.
    + apply Qeq_bool_false_iff in Eg.
      destruct (accepted_split rows gain question Hf Eg)
        as (q & t & f & -> & _ & Hp & _ & _ & Ht & Hfne & _).
      simpl. rewrite Hp. simpl.
      destruct (partition_Forall _ _ _ _ _ Hp Hrect) as [Rt Rf].
      pose proof (partition_lengths _ _ _ _ Hp) as L.
      assert (Lt : (0 < length t)%nat) by (destruct t; [congruence | simpl; lia]).
      assert (Lf : (0 < length f)%nat) by (destruct f; [congruence | simpl; lia]).
      destruct (IH t Rt Ht) as (tn & ->); [lia|].
      destruct (IH f Rf Hfne) as (fn & ->); [lia|].
      simpl. unfold Node_init. simpl. eauto.
Qed.

(** More fuel does not change the node. *)
Lemma build_fuel_mono (fuel extra : nat) (rows : list row) (node : Node) :
  build order fuel self rows = Ok node ->
  build order (fuel + extra) self rows = Ok node.
Proof.
  revert rows node. induction fuel as [|fuel IH]; intros rows node H; [discriminate|].
  simpl in H |- *. inv_bind H. rewrite Hv. simpl. destruct v as [gain question].
  destruct (Qeq_bool gain 0); [exact H|].
  inv_bind H. rewrite Hv0. simpl. inv_bind H. rewrite Hv1. simpl.
  destruct v0 as [t f]. inv_bind H. inv_bind H.
  rewrite (IH _ _ Hv2), (IH _ _ Hv3). simpl. exact H.
Qed.

End Builder.

(** ** C6: both branches of a decision node exist and were given at least
    [stopping_criteria] rows *)

(** C6: in every tree produced by [build], every decision node has a
    non-null true branch and a non-null false branch, and each branch was
    built from at least [stopping_criteria] rows: the tree is derived as
    [Built] says, each branch from one side of the partition by the node's
    question, and both sides hold at least [stopping_criteria] rows. *)
Theorem build_fills_branches (order : set_order) (self : Tree) (fuel : nat)
  (rows : list row) (node : Node) :
  build order fuel self rows = Ok node ->
  Built order self rows node /\
  branches_filled (stopping_criteria self) rows node.
Proof.
  intros H. apply build_Built in H. split; [exact H|].
  induction H as [rows gain question d Hf Hz Hc
                 |rows gain q t f tn fn Hf Hnz Hp _ IHt _ IHf].
  - constructor.
  - destruct (accepted_split order self rows gain (Some q) Hf Hnz)
      as (q' & t' & f' & Eq & _ & Hp' & Lt & Lf & _).
    injection Eq as <-. rewrite Hp in Hp'. injection Hp' as <- <-.
    econstructor; eassumption.
Qed.

Lemma build_fills_branches_witness :
  Built first_seen (Tree_init 1) four_rows four_rows_tree /\
  branches_filled 1 four_rows four_rows_tree.
Proof.
  apply (build_fills_branches first_seen (Tree_init 1) 4 four_rows four_rows_tree).
  vm_compute. reflexivity.
Defined.

(** ** C5: [build] terminates *)

Lemma Built_splits_shrink (order : set_order) (self : Tree) (rows : list row)
  (node : Node) :
  Built order self rows node -> splits_shrink (stopping_criteria self) rows node.
Proof.
  induction 1 as [rows gain question d Hf Hz Hc
                 |rows gain q t f tn fn Hf Hnz Hp _ IHt _ IHf].
  - constructor.
  - destruct (accepted_split order self rows gain (Some q) Hf Hnz)
      as (q' & t' & f' & Eq & _ & Hp' & Lt & Lf & Ht & Hfne & _).
    injection Eq as <-. rewrite Hp in Hp'. injection Hp' as <- <-.
    pose proof (partition_lengths _ _ _ _ Hp) as L.
    assert (LQ : len t + len f == len rows).
    { unfold len. rewrite <- L. apply (Qeq_sym _ _ (count_Q_plus (length t) (length f))). }
    assert (Nt : (0 < length t)%nat) by (destruct t; [congruence | simpl; lia]).
    assert (Nf : (0 < length f)%nat) by (destruct f; [congruence | simpl; lia]).
    econstructor; try eassumption; try lia; lra.
Qed.

Lemma splits_shrink_depth (sc : Q) (rows : list row) (node : Node) :
  0 <= sc -> splits_shrink sc rows node -> count_Q (depth node) * sc <= len rows.
Proof.
  intros Hsc. induction 1 as [rows d|rows q t f tn fn Hp Lt Lf St Sf _ IHt _ IHf].
  - simpl. rewrite Qmult_0_l. apply (count_Q_nonneg (length rows)).
  - simpl depth.
    assert (E : count_Q (S (Nat.max (depth tn) (depth fn)))
                == 1 + count_Q (Nat.max (depth tn) (depth fn))).
    { change (S (Nat.max (depth tn) (depth fn)))
        with (1 + Nat.max (depth tn) (depth fn))%nat.
      rewrite count_Q_plus. reflexivity. }
    rewrite E. destruct (Nat.max_dec (depth tn) (depth fn)) as [-> | ->]; lra.
Qed.

(** C5: for a non-empty row set and a positive stopping criterion, [build]
    terminates and returns a node (fuel [length rows] is enough); every
    accepted split leaves both sides strictly smaller than the rows it
    splits, by at least [stopping_criteria] rows; and the depth of the tree
    is at most the number of rows divided by [stopping_criteria]. *)
Theorem build_terminates (order : set_order) (self : Tree) (F : nat)
  (rows : list row) :
  rows <> [] ->
  rectangular F rows ->
  0 < stopping_criteria self ->
  exists node,
    build order (length rows) self rows = Ok node /\
    (forall extra, build order (length rows + extra) self rows = Ok node) /\
    splits_shrink (stopping_criteria self) rows node /\
    count_Q (depth node) <= len rows / stopping_criteria self.
Proof.
  intros Hne Hrect Hsc.
  destruct (build_total order self F (length rows) rows Hrect Hne (Nat.le_refl _))
    as (node & Hb).
  exists node. split; [exact Hb|]. split.
  - intros extra. apply build_fuel_mono. exact Hb.
  - pose proof (Built_splits_shrink order self rows node
                  (build_Built order self _ _ _ Hb)) as Hs.
    split; [exact Hs|].
    apply Qle_shift_div_l; [exact Hsc|].
    apply splits_shrink_depth; [lra | exact Hs].
Qed.

Lemma build_terminates_witness :
  exists node,
    build first_seen (length four_rows) (Tree_init 1) four_rows = Ok node /\
    (forall extra,
        build first_seen (length four_rows + extra) (Tree_init 1) four_rows = Ok node) /\
    splits_shrink 1 four_rows node /\
    count_Q (depth node) <= len four_rows / 1.
Proof.
  apply (build_terminates first_seen (Tree_init 1) 1 four_rows).
  - discriminate.
  - repeat constructor.
  - reflexivity.
Defined.

(** ** C10: the empty side of a split *)

Lemma class_counts_from_Raise (rows : list row) (counts : dict) (e : exn) :
  class_counts_from counts rows = Raise e -> e = IndexError.
Proof.
  revert counts. induction rows as [|r rows IH]; simpl; intros counts H; [discriminate|].
  unfold label in H. destruct (rev r) as [|l t]; simpl in H.
  - congruence.
  - eapply IH. exact H.
Qed.

Lemma gini_never_divides_by_zero (rows : list row) :
  gini rows <> Raise ZeroDivisionError.
Proof.
  destruct (class_counts rows) as [d|e|] eqn:Hc.
  - apply class_counts_from_Ok_inv in Hc. destruct Hc as [Hrows _].
    destruct (gini_total rows Hrows) as (g & -> & _). discriminate.
  - unfold gini. rewrite Hc. simpl. apply class_counts_from_Raise in Hc.
    subst e. discriminate.
  - unfold gini. rewrite Hc. discriminate.
Qed.

Example same_feature_rows_leaf :
  build first_seen 1 (Tree_init 0) same_feature_rows
  = Ok (Leaf [(0, 1%nat); (1, 1%nat)]).
Proof. vm_compute. reflexivity. Qed.

(** C10: [gini] of the empty row set is 1, and [gini] never divides by
    zero whatever the rows; the gain of a split of a non-empty row set that
    leaves one side empty is exactly 0; hence [build] turns a row set whose
    candidate splits all leave one side empty into a leaf instead of
    failing, and a split with an empty side never becomes a decision
    node. *)
Theorem gini_of_empty_side :
  gini [] = Ok 1 /\
  (forall rows, gini rows <> Raise ZeroDivisionError) /\
  (forall rows g0,
      rows <> [] -> gini rows = Ok g0 ->
      (exists v, info_gain [] rows g0 = Ok v /\ v == 0) /\
      (exists v, info_gain rows [] g0 = Ok v /\ v == 0)) /\
  (forall order self F rows fuel,
      rows <> [] -> rectangular F rows ->
      (forall q t f, In q (candidates order rows) ->
                     partition rows q = Ok (t, f) -> t = [] \/ f = []) ->
      exists predictions,
        class_counts rows = Ok predictions /\
        build order (S fuel) self rows = Ok (Leaf predictions)) /\
  (forall order self fuel rows question true_branch false_branch,
      build order fuel self rows = Ok (Decision question true_branch false_branch) ->
      exists q t f,
        question = Some q /\ partition rows q = Ok (t, f) /\ t <> [] /\ f <> []).
Proof.
  split; [reflexivity|]. split; [exact gini_never_divides_by_zero|].
  split; [|split].
  - intros rows g0 Hne Hg. split.
    + apply info_gain_empty_left; assumption.
    + apply info_gain_empty_right; assumption.
  - intros order self F rows fuel Hne Hrect Hall.
    destruct (find_best_split_total order self F rows Hrect Hne) as ([gain question] & Hf).
    exists (count_into [] (labels rows)).
    pose proof (class_counts_spec rows (rectangular_nonempty_rows F rows Hrect)) as Hc.
    split; [exact Hc|].
    simpl. rewrite Hf. simpl. destruct (Qeq_bool gain 0) eqn:Eg.
    + unfold Node_init. simpl. rewrite Hc. reflexivity.
    + exfalso. apply Qeq_bool_false_iff in Eg.
      destruct (accepted_split order self rows gain question Hf Eg)
        as (q & t & f & _ & Hin & Hp & _ & _ & Ht & Hfne & _).
      destruct (Hall q t f Hin Hp); contradiction.
  - intros order self fuel rows question tn fn H.
    apply build_Built in H. inversion H as [|? gain q t f ? ? Hf Hnz Hp _ _]; subst.
    destruct (accepted_split order self rows gain (Some q) Hf Hnz)
      as (q' & t' & f' & Eq & _ & Hp' & _ & _ & Ht & Hfne & _).
    injection Eq as <-. exists q, t', f'. repeat split; assumption.
Qed.

(** ** C7: classification *)

Lemma top_pick_loop_spec (items : dict) (best_class : Q) (best_number : nat) :
  (Forall (fun kc => (snd kc <= best_number)%nat) items /\
   top_pick_loop items best_class best_number = best_class) \/
  (exists before l c after,
      items = before ++ (l, c) :: after /\
      (best_number < c)%nat /\
      Forall (fun kc => (snd kc < c)%nat) before /\
      Forall (fun kc => (snd kc <= c)%nat) after /\
      top_pick_loop items best_class best_number = l).
Proof.
  revert best_class best_number.
  induction items as [|[k c0] items IH]; intros bc bn; simpl.
  - left. split; [constructor | reflexivity].
  - destruct (bn <? c0)%nat eqn:E.
    + apply Nat.ltb_lt in E. right.
      destruct (IH k c0) as [[Hall Hr]|(before & l & c & after & -> & Hc & Hb & Ha & Hr)].
      * exists [], k, c0, items. repeat split; try assumption. constructor.
      * exists ((k, c0) :: before), l, c, after.
        repeat split; try assumption; try lia. constructor; [simpl; lia | exact Hb].
    + apply Nat.ltb_ge in E.
      destruct (IH bc bn) as [[Hall Hr]|(before & l & c & after & -> & Hc & Hb & Ha & Hr)].
      * left. split; [constructor; [simpl; lia | exact Hall] | exact Hr].
      * right. exists ((k, c0) :: before), l, c, after.
        repeat split; try assumption. constructor; [simpl; lia | exact Hb].
Qed.

Lemma top_pick_first_maximum (d : dict) :
  d <> [] -> Forall (fun kc => (0 < snd kc)%nat) d -> first_maximum d (top_pick d).
Proof.
  intros Hne Hpos. unfold top_pick.
  destruct (top_pick_loop_spec d 0 0%nat)
    as [[Hall _]|(before & l & c & after & E & _ & Hb & Ha & ->)].
  - exfalso. destruct d as [|[k c] d]; [congruence|].
    inversion Hall; subst. inversion Hpos; subst. simpl in *. lia.
  - exists before, c, after. repeat split; assumption.
Qed.

Lemma first_maximum_key (d : dict) (l : Q) : first_maximum d l -> In l (keys d).
Proof.
  intros (before & c & after & -> & _). unfold keys. rewrite map_app.
  apply in_or_app. right. now left.
Qed.

Lemma well_formed_subnode (F : nat) (node root : Node) :
  subnode node root -> well_formed F root -> well_formed F node.
Proof.
  induction 1 as [n|n q t f _ IH|n q t f _ IH]; intros H; [exact H| |];
    inversion H; subst; apply IH; assumption.
Qed.

Lemma subnode_trans (a b c : Node) : subnode a b -> subnode b c -> subnode a c.
Proof.
  intros Hab Hbc. induction Hbc as [n|n q t f _ IH|n q t f _ IH].
  - exact Hab.
  - apply subnode_true, IH, Hab.
  - apply subnode_false, IH, Hab.
Qed.

Lemma subnode_depth (node root : Node) : subnode node root -> (depth node <= depth root)%nat.
Proof.
  induction 1 as [n|n q t f _ IH|n q t f _ IH]; simpl; [lia| |].
  - lia.
  - destruct t; lia.
Qed.

Lemma classify_well_formed (F : nat) (sample : row) (node : Node) :
  well_formed F node -> (F <= length sample)%nat ->
  exists predictions,
    subnode (Leaf predictions) node /\
    classify sample node = Ok (top_pick predictions) /\
    (classify_calls sample node <= depth node)%nat.
Proof.
  intros H Hlen. induction H as [d Hne Hpos|q tn fn Hq _ IHt _ IHf].
  - exists d. split; [constructor|]. split; [reflexivity | simpl; lia].
  - simpl. rewrite (match_Ok q sample) by lia. simpl.
    destruct (goes_true q sample).
    + destruct IHt as (d & Hs & Hc & Hn). exists d.
      split; [now apply subnode_true|]. split; [exact Hc | lia].
    + destruct IHf as (d & Hs & Hc & Hn). exists d.
      split; [now apply subnode_false|]. split; [exact Hc | lia].
Qed.

Lemma Built_well_formed (order : set_order) (self : Tree) (F : nat)
  (rows : list row) (node : Node) :
  Built order self rows node -> rectangular F rows -> rows <> [] ->
  well_formed F node.
Proof.
  induction 1 as [rows gain question d Hf Hz Hc
                 |rows gain q t f tn fn Hf Hnz Hp _ IHt _ IHf]; intros Hrect Hne.
  - apply class_counts_from_Ok_inv in Hc. destruct Hc as [_ ->]. constructor.
    + apply count_into_nonempty. right. destruct rows; [congruence | discriminate].
    + apply positive_count_into. constructor.
  - destruct (accepted_split order self rows gain (Some q) Hf Hnz)
      as (q' & t' & f' & Eq & Hin & Hp' & _ & _ & Ht & Hfne & _).
    injection Eq as <-. rewrite Hp in Hp'. injection Hp' as <- <-.
    destruct (partition_Forall _ _ _ _ _ Hp Hrect) as [Rt Rf].
    apply candidates_feature in Hin.
    rewrite (rectangular_n_features F rows Hrect Hne) in Hin.
    constructor; [exact Hin | apply IHt; assumption | apply IHf; assumption].
Qed.

(** C7: on every node of a tree built from a non-empty matrix with [F]
    features, and for every sample with at least [F] features, [classify]
    ends at a leaf below the node after at most [depth] recursive calls; it
    returns [top_pick] of that leaf's histogram, which is a key of the
    histogram: the first one, in insertion order, whose count is the
    highest. *)
Theorem classify_ends_at_leaf (order : set_order) (self : Tree) (F fuel : nat)
  (rows : list row) (root node : Node) (sample : row) :
  rows <> [] ->
  rectangular F rows ->
  build order fuel self rows = Ok root ->
  subnode node root ->
  (F <= length sample)%nat ->
  exists predictions,
    subnode (Leaf predictions) node /\
    classify sample node = Ok (top_pick predictions) /\
    (classify_calls sample node <= depth node)%nat /\
    (depth node <= depth root)%nat /\
    In (top_pick predictions) (keys predictions) /\
    first_maximum predictions (top_pick predictions).
Proof.
  intros Hne Hrect Hb Hsub Hlen.
  pose proof (Built_well_formed order self F rows root
                (build_Built order self _ _ _ Hb) Hrect Hne) as Hroot.
  pose proof (well_formed_subnode F node root Hsub Hroot) as Hnode.
  destruct (classify_well_formed F sample node Hnode Hlen) as (d & Hleaf & Hc & Hn).
  exists d. split; [exact Hleaf|]. split; [exact Hc|]. split; [exact Hn|].
  split; [apply subnode_depth, Hsub|].
  pose proof (well_formed_subnode F (Leaf d) node Hleaf Hnode) as Hd.
  inversion Hd; subst.
  assert (M : first_maximum d (top_pick d)) by (apply top_pick_first_maximum; assumption).
  split; [apply first_maximum_key, M | exact M].
Qed.

Lemma classify_ends_at_leaf_witness :
  exists predictions,
    subnode (Leaf predictions) four_rows_tree /\
    classify sample_three four_rows_tree = Ok (top_pick predictions) /\
    (classify_calls sample_three four_rows_tree <= depth four_rows_tree)%nat /\
    (depth four_rows_tree <= depth four_rows_tree)%nat /\
    In (top_pick predictions) (keys predictions) /\
    first_maximum predictions (top_pick predictions).
Proof.
  apply (classify_ends_at_leaf first_seen (Tree_init 1) 1 4 four_rows
           four_rows_tree four_rows_tree sample_three).
  - discriminate.
  - repeat constructor.
  - vm_compute. reflexivity.
  - constructor.
  - simpl. lia.
Defined.

(** ** [Tree.fit] *)

Lemma assign_row_Ok_inv (width : nat) (cells r : list Q) :
  assign_row width cells = Ok r -> length r = width.
Proof.
  unfold assign_row. destruct (length cells =? width)%nat eqn:E.
  - intros H. injection H as <-. now apply Nat.eqb_eq.
  - destruct cells as [|c [|c' cells]]; try discriminate.
    intros H. injection H as <-. apply repeat_length.
Qed.

Lemma assign_row_no_timeout (width : nat) (cells : list Q) :
  assign_row width cells <> Timeout.
Proof.
  unfold assign_row. destruct (length cells =? width)%nat; [discriminate|].
  destruct cells as [|c [|c' cells]]; discriminate.
Qed.

Lemma getitem_no_timeout {A : Type} (xs : list A) (i : nat) : getitem xs i <> Timeout.
Proof. unfold getitem. destruct (nth_error xs i); discriminate. Qed.

Lemma map_each_no_timeout {A B : Type} (f : A -> result B) (xs : list A) :
  (forall x, f x <> Timeout) -> map_each f xs <> Timeout.
Proof.
  intros Hf. induction xs as [|x xs IH]; simpl; [discriminate|].
  specialize (Hf x). destruct (f x); simpl; try congruence.
  destruct (map_each f xs); simpl; congruence.
Qed.

Lemma merge_train_no_timeout (x : list (list Q)) (y : list Q) :
  merge_train x y <> Timeout.
Proof.
  unfold merge_train. pose proof (getitem_no_timeout x 0) as G.
  destruct (getitem x 0) as [first| |]; simpl; try congruence.
  apply map_each_no_timeout. intros i.
  pose proof (getitem_no_timeout x i) as Gx.
  destruct (getitem x i) as [xi| |]; simpl; try congruence.
  pose proof (getitem_no_timeout y i) as Gy.
  destruct (getitem y i) as [yi| |]; simpl; try congruence.
  apply assign_row_no_timeout.
Qed.

(** A successful merge: [x] has rows, [y] has a label for each of them, and
    the merged matrix is rectangular, one row per row of [x]. *)
Lemma merge_train_Ok_inv (x : list (list Q)) (y : list Q) (m : list row) :
  merge_train x y = Ok m ->
  x <> [] /\ m <> [] /\ (length x <= length y)%nat /\
  length m = length x /\ rectangular (length (hd [] x)) m.
Proof.
  unfold merge_train. intros H. inv_bind H.
  assert (Hx : x <> [] /\ v = hd [] x).
  { destruct x as [|r x]; [discriminate|]. unfold getitem in Hv. simpl in Hv.
    injection Hv as <-. split; [discriminate | reflexivity]. }
  destruct Hx as [Hne ->]. apply map_each_Ok_inv in H.
  pose proof (Forall2_length H) as L. rewrite length_seq in L.
  split; [exact Hne|]. split.
  { destruct m; [|discriminate]. destruct x; [congruence | discriminate]. }
  split; [|split; [symmetry; exact L|]].
  - assert (Hlast : In (length x - 1)%nat (seq 0 (length x))).
    { apply in_seq. destruct x; [congruence | simpl; lia]. }
    destruct (Forall2_In_l _ _ _ _ H Hlast) as (r & _ & Hr).
    inv_bind Hr. inv_bind Hr.
    apply (getitem_Ok_inv _ _ _ 0) in Hv1. destruct x; [congruence | simpl in *; lia].
  - unfold rectangular. clear L Hv. induction H as [|i r idxs rs Hi _ IH]; constructor.
    + inv_bind Hi. inv_bind Hi. apply assign_row_Ok_inv in Hi. lia.
    + exact IH.
Qed.

Lemma merge_train_total (F : nat) (x : list (list Q)) (y : list Q) :
  x <> [] -> Forall (fun r => length r = F) x -> (length x <= length y)%nat ->
  exists m, merge_train x y = Ok m.
Proof.
  intros Hne Hrect Hlen. unfold merge_train.
  destruct x as [|r0 x0] eqn:Ex; [congruence|]. rewrite <- Ex in *.
  assert (G : getitem x 0 = Ok r0) by (rewrite Ex; reflexivity).
  rewrite G. simpl.
  assert (Hr0 : length r0 = F).
  { rewrite Ex in Hrect. inversion Hrect; assumption. }
  rewrite (map_each_total _ (fun i => nth i x [] ++ [nth i y 0])); [eauto|].
  intros i Hi. apply in_seq in Hi.
  rewrite (getitem_Ok x i []) by lia. simpl.
  rewrite (getitem_Ok y i 0) by lia. simpl.
  unfold assign_row.
  assert (L : length (nth i x []) = F).
  { rewrite Forall_forall in Hrect. apply Hrect. apply nth_In. lia. }
  rewrite length_app, L, Hr0. simpl. rewrite Nat.eqb_refl. reflexivity.
Qed.

Section FitFacts.

Variable order : set_order.

(** [fit] either raises while merging and leaves the tree as it was, or
    returns after it stored the resolved criterion and the root that
    [build] made from the merged rows. *)
Lemma fit_outcome (self : Tree) (x : list (list Q)) (y : list Q) (sc : Q) :
  (exists e, merge_train x y = Raise e /\ fit order self x y sc = (self, Raise e)) \/
  (exists m root,
      merge_train x y = Ok m /\
      build order (length m)
        (set_stopping_criteria self (resolved_criteria sc (length m))) m = Ok root /\
      fit order self x y sc =
      (set_root_node
         (set_stopping_criteria self (resolved_criteria sc (length m)))
         (Some root), Ok tt)).
Proof.
  unfold fit. pose proof (merge_train_no_timeout x y) as NT.
  destruct (merge_train x y) as [m|e|] eqn:Hm; [| left; eauto | congruence].
  right. destruct (merge_train_Ok_inv x y m Hm) as (_ & Hne & _ & _ & Hrect).
  fold (resolved_criteria sc (length m)).
  change (len m) with (count_Q (length m)).
  fold (resolved_criteria sc (length m)).
  destruct (build_total order
              (set_stopping_criteria self (resolved_criteria sc (length m)))
              _ (length m) m Hrect Hne (Nat.le_refl _)) as (root & Hb).
  exists m, root. rewrite Hb. repeat split; reflexivity.
Qed.

End FitFacts.

(** The end-to-end example of the specification: four rows with one
    feature, labels 0, 0, 1, 1, and [stopping_criteria = 1]. *)
Example fit_four_rows :
  exists self,
    fit first_seen (Tree_init 0) four_x four_y 1 = (self, Ok tt) /\
    root_node self = Some four_rows_tree /\
    random_forest_predict self four_x = Ok four_y /\
    (exists s, score self four_x four_y = Ok s /\ s == 1).
Proof.
  eexists. split; [vm_compute; reflexivity|]. split; [reflexivity|].
  split; [reflexivity|]. eexists. split; [vm_compute; reflexivity | reflexivity].
Qed.

(** ** C3: the default stopping criterion *)




(** ** C9: what [fit] does with malformed input *)

Lemma map_each_Raise_inv {A B : Type} (f : A -> result B) (xs : list A) (e : exn) :
  map_each f xs = Raise e -> exists x, In x xs /\ f x = Raise e.
Proof.
  induction xs as [|x xs IH]; simpl; intros H; [discriminate|].
  destruct (f x) as [b|e'|] eqn:Ef; simpl in H; try discriminate.
  - destruct (map_each f xs) as [bs|e'|]; simpl in H; try discriminate.
    destruct (IH H) as (x' & Hin & Hx'). exists x'. split; [now right | exact Hx'].
  - exists x. split; [now left | congruence].
Qed.

Lemma getitem_Raise {A : Type} (xs : list A) (i : nat) (e : exn) :
  getitem xs i = Raise e -> e = IndexError.
Proof. unfold getitem. destruct (nth_error xs i); congruence. Qed.

Lemma assign_row_Raise (width : nat) (cells : list Q) (e : exn) :
  assign_row width cells = Raise e -> e = ValueError.
Proof.
  unfold assign_row. destruct (length cells =? width)%nat; [discriminate|].
  destruct cells as [|c [|c' cells]]; congruence.
Qed.

Lemma merge_train_Raise (x : list (list Q)) (y : list Q) (e : exn) :
  merge_train x y = Raise e -> e = IndexError \/ e = ValueError.
Proof.
  unfold merge_train. destruct (getitem x 0) as [first|e'|] eqn:G; simpl; intros H.
  - apply map_each_Raise_inv in H. destruct H as (i & _ & H).
    destruct (getitem x i) as [xi|e'|] eqn:Gx; simpl in H; try discriminate.
    + destruct (getitem y i) as [yi|e'|] eqn:Gy; simpl in H; try discriminate.
      * right. eapply assign_row_Raise, H.
      * left. injection H as <-. eapply getitem_Raise, Gy.
    + left. injection H as <-. eapply getitem_Raise, Gx.
  - left. injection H as <-. eapply getitem_Raise, G.
  - discriminate.
Qed.

Lemma count_correct_unfitted (self : Tree) (x : list (list Q)) (y : list Q) :
  root_node self = None -> x <> [] ->
  count_correct self x y = Raise AttributeError.
Proof.
  intros Hroot Hne. unfold count_correct. destruct x as [|r x]; [congruence|].
  simpl. unfold getitem at 1. simpl. rewrite Hroot. reflexivity.
Qed.

(** C9 fails as stated: [fit] builds a tree from two rows and three labels
    without reporting the mismatch, it accepts a negative stopping
    criterion, and [score] and [predict] on a tree that was never fitted
    raise the interpreter's [AttributeError]. *)
Lemma fit_accepts_malformed_input :
  (exists self',
      fit first_seen (Tree_init 0) two_x three_y 1 = (self', Ok tt) /\
      length two_x <> length three_y /\
      root_node self' = Some (Leaf [(0, 2%nat)])) /\
  (exists self',
      fit first_seen (Tree_init 0) four_x four_y (-1) = (self', Ok tt) /\
      stopping_criteria self' = -1 /\
      root_node self' = Some four_rows_tree) /\
  score (Tree_init 0) four_x four_y = Raise AttributeError /\
  predict (Tree_init 0) four_x four_y = Raise AttributeError.
Proof.
  split; [|split; [|split]].
  - eexists. split; [vm_compute; reflexivity|]. split; [discriminate | reflexivity].
  - eexists. split; [vm_compute; reflexivity|]. split; reflexivity.
  - reflexivity.
  - reflexivity.
Qed.

(** C9, amended: neither [fit] validates anything itself.  [Tree.fit]
    either raises while it merges [X] and [y] ([IndexError] or numpy's
    [ValueError]) and then leaves the tree exactly as it was, or it returns
    after storing both the stopping criterion and the root, so no partially
    built tree is ever stored.  Zero rows raise [IndexError]; fewer labels
    than rows raise; a non-empty rectangular [X] with a label for every row
    is fitted whatever the stopping criterion and however many labels are
    left over.  [RandomForest.fit] raises [IndexError] on zero rows and
    numpy's [ValueError] when [X] and [y] differ in length.  [score] and
    [predict] on a tree that has no root raise [AttributeError] when [X] has
    rows. *)
Theorem fit_all_or_nothing :
  (forall order self x y sc,
      (exists e, fit order self x y sc = (self, Raise e) /\
                 (e = IndexError \/ e = ValueError)) \/
      (exists root,
          fit order self x y sc =
          (mkTree (resolved_criteria sc (length x)) (Some root) (feature_indices self),
           Ok tt) /\
          x <> [] /\ (length x <= length y)%nat)) /\
  (forall order self y sc, fit order self [] y sc = (self, Raise IndexError)) /\
  (forall order self x y sc,
      (length y < length x)%nat -> exists e, fit order self x y sc = (self, Raise e)) /\
  (forall order self F x y sc,
      x <> [] -> Forall (fun r => length r = F) x -> (length x <= length y)%nat ->
      exists root,
        fit order self x y sc =
        (mkTree (resolved_criteria sc (length x)) (Some root) (feature_indices self),
         Ok tt)) /\
  (forall order draws self y, forest_fit order draws self [] y = Raise IndexError) /\
  (forall order draws self x y,
      x <> [] -> length y <> length x ->
      forest_fit order draws self x y = Raise ValueError) /\
  (forall self x y,
      root_node self = None -> x <> [] ->
      score self x y = Raise AttributeError /\
      predict self x y = Raise AttributeError).
Proof.
  assert (A : forall order self x y sc,
      (exists e, fit order self x y sc = (self, Raise e) /\
                 (e = IndexError \/ e = ValueError)) \/
      (exists root,
          fit order self x y sc =
          (mkTree (resolved_criteria sc (length x)) (Some root) (feature_indices self),
           Ok tt) /\
          x <> [] /\ (length x <= length y)%nat)).
  { intros order self x y sc.
    destruct (fit_outcome order self x y sc)
      as [(e & He & Hfit)|(m & root & Hm & _ & Hfit)].
    - left. exists e. split; [exact Hfit | eapply merge_train_Raise, He].
    - right. destruct (merge_train_Ok_inv x y m Hm) as (Hne & _ & Hlen & L & _).
      exists root. rewrite L in Hfit. split; [exact Hfit|]. split; assumption. }
  split; [exact A|]. split; [reflexivity|]. split; [|split; [|split; [|split]]].
  - intros order self x y sc Hlt.
    destruct (A order self x y sc) as [(e & He & _)|(root & _ & _ & Hlen)];
      [eauto | lia].
  - intros order self F x y sc Hne Hrect Hlen.
    destruct (merge_train_total F x y Hne Hrect Hlen) as (m & Hm).
    destruct (fit_outcome order self x y sc)
      as [(e & He & _)|(m' & root & Hm' & _ & Hfit)]; [congruence|].
    destruct (merge_train_Ok_inv x y m' Hm') as (_ & _ & _ & L & _).
    exists root. rewrite L in Hfit. exact Hfit.
  - reflexivity.
  - intros order draws self x y Hne Hlen. unfold forest_fit.
    destruct x as [|r x]; [congruence|]. unfold getitem at 1. simpl nth_error.
    cbn [bind]. unfold get_random_subsets, concatenate_column.
    apply Nat.eqb_neq in Hlen. rewrite Hlen. reflexivity.
  - intros self x y Hroot Hne. unfold score, predict.
    rewrite (count_correct_unfitted self x y Hroot Hne). split; reflexivity.
Qed.

(** ** The prediction matrix of the forest *)

(** As [for_each_visited], the step also knowing where it stands in [xs]. *)
Lemma for_each_prefix {A S : Type} (I : list A -> S -> Prop)
  (xs : list A) (body : S -> A -> result S) (s s' : S) :
  I [] s ->
  (forall pre x post s1 s2,
      xs = pre ++ x :: post -> I pre s1 -> body s1 x = Ok s2 -> I (pre ++ [x]) s2) ->
  for_each xs body s = Ok s' ->
  I xs s'.
Proof.
  intros H0 Hstep.
  assert (G : forall cur pre s1,
             xs = pre ++ cur -> I pre s1 -> for_each cur body s1 = Ok s' ->
             I (pre ++ cur) s').
  { induction cur as [|x cur IH]; simpl; intros pre s1 E H1 H.
    - injection H as <-. now rewrite app_nil_r.
    - inv_bind H. replace (pre ++ x :: cur) with ((pre ++ [x]) ++ cur)
        by (rewrite <- app_assoc; reflexivity).
      apply (IH (pre ++ [x]) v); [|eapply Hstep; eassumption|exact H].
      rewrite <- app_assoc. exact E. }
  apply (G xs [] s eq_refl H0).
Qed.

Lemma map_each_length {A B : Type} (f : A -> result B) (xs : list A) (ys : list B) :
  map_each f xs = Ok ys -> length ys = length xs.
Proof.
  intros H. apply map_each_Ok_inv in H. symmetry. eapply Forall2_length, H.
Qed.

Lemma Forall2_nth_both {A B : Type} (R : A -> B -> Prop) (xs : list A) (ys : list B)
  (j : nat) (dx : A) (dy : B) :
  Forall2 R xs ys -> (j < length xs)%nat -> R (nth j xs dx) (nth j ys dy).
Proof.
  intros H. revert j. induction H as [|a b xs ys Hab _ IH]; simpl; intros j Hj; [lia|].
  destruct j as [|j]; [exact Hab | apply IH; lia].
Qed.

Lemma tree_votes_length (tree : Tree) (x : list (list Q)) (p : list Q) :
  tree_votes tree x = Ok p -> length p = length x.
Proof.
  unfold tree_votes, random_forest_predict, take_columns. intros H.
  inv_bind H. inv_bind H.
  apply map_each_length in H. apply map_each_length in Hv0.
  rewrite H. exact Hv0.
Qed.

Lemma set_nth_app {A : Type} (l1 l2 : list A) (a v : A) :
  set_nth (length l1) v (l1 ++ a :: l2) = l1 ++ v :: l2.
Proof. induction l1 as [|b l1 IH]; simpl; [reflexivity | now rewrite IH]. Qed.

Lemma set_column_seq (i : nat) (g : nat -> list Q) (p : list Q) (start : nat) :
  set_column i p (map g (seq start (length p))) =
  map (fun j => set_nth i (nth (j - start) p 0) (g j)) (seq start (length p)).
Proof.
  revert start. induction p as [|v p IH]; intros start; [reflexivity|].
  simpl length. simpl seq. simpl map. simpl set_column.
  rewrite Nat.sub_diag. simpl nth. f_equal.
  rewrite IH. apply map_ext_in. intros j Hj. apply in_seq in Hj.
  replace (j - start)%nat with (S (j - S start)) by lia. reflexivity.
Qed.

Lemma repeat_map_seq {A : Type} (v : A) (n start : nat) :
  repeat v n = map (fun _ => v) (seq start n).
Proof.
  revert start. induction n as [|n IH]; intros start; simpl; [reflexivity|].
  now rewrite <- IH.
Qed.

Lemma collect_predictions_Ok_inv (forest : list Tree) (x predictions : list (list Q)) :
  collect_predictions forest x = Ok predictions ->
  exists per_tree,
    Forall2 (fun tree p => tree_votes tree x = Ok p) forest per_tree /\
    predictions = map (votes_of_row per_tree) (seq 0 (length x)).
Proof.
  unfold collect_predictions. intros H. inv_bind H. injection H as <-.
  set (T := length forest) in *. set (M := length x) in *.
  apply (for_each_prefix
           (fun visited (st : nat * list (list Q)) =>
              exists per_tree,
                Forall2 (fun tree p => tree_votes tree x = Ok p) visited per_tree /\
                fst st = length visited /\
                snd st = map (fun j => votes_of_row per_tree j
                                       ++ repeat 0 (T - length visited))
                             (seq 0 M))) in Hv.
  - destruct Hv as (per_tree & HF & _ & Hs). exists per_tree. split; [exact HF|].
    rewrite Hs. apply map_ext. intros j. fold T. rewrite Nat.sub_diag. simpl.
    apply app_nil_r.
  - exists []. split; [constructor|]. split; [reflexivity|]. simpl.
    rewrite Nat.sub_0_r. apply repeat_map_seq.
  - intros pre tree post [i preds] s2 Exs (per_tree & HF & Hi & Hp) Hbody.
    simpl in Hi, Hp. subst i preds.
    assert (Hvotes : exists p, tree_votes tree x = Ok p /\
                               s2 = (S (length pre),
                                     set_column (length pre) p
                                       (map (fun j => votes_of_row per_tree j
                                                      ++ repeat 0 (T - length pre))
                                            (seq 0 M)))).
    { unfold tree_votes. inv_bind Hbody. inv_bind Hbody. inv_bind Hbody.
      injection Hbody as <-. rewrite Hv0. simpl. rewrite Hv1. simpl. eauto. }
    destruct Hvotes as (p & Hp & ->).
    exists (per_tree ++ [p]). split; [|split].
    + apply Forall2_app; [exact HF | repeat constructor; exact Hp].
    + simpl. rewrite length_app. simpl. lia.
    + simpl. pose proof (tree_votes_length tree x p Hp) as Lp. fold M in Lp.
      rewrite <- Lp. rewrite set_column_seq. apply map_ext_in. intros j Hj.
      rewrite Nat.sub_0_r.
      assert (LT : (T - length pre = S (T - length (pre ++ [tree])))%nat).
      { unfold T. rewrite Exs, !length_app. simpl. lia. }
      rewrite LT. simpl repeat.
      assert (Lv : length (votes_of_row per_tree j) = length pre).
      { unfold votes_of_row. rewrite length_map. symmetry. eapply Forall2_length, HF. }
      rewrite <- Lv at 1. rewrite set_nth_app.
      unfold votes_of_row. rewrite map_app. simpl. rewrite <- app_assoc. reflexivity.
Qed.

(** ** The vote *)

Lemma unique_insert_fst (v : Q) (u : list (Q * nat)) (e : Q * nat) :
  In e (unique_insert v u) -> fst e = v \/ exists e', In e' u /\ fst e' = fst e.
Proof.
  induction u as [|[k c] u IH]; simpl; intros H.
  - destruct H as [<-|[]]. now left.
  - destruct (Qeq_bool v k).
    + destruct H as [<-|H]; right.
      * exists (k, c). split; [now left | reflexivity].
      * exists e. split; [now right | reflexivity].
    + destruct (Qle_bool v k).
      * destruct H as [<-|H]; [now left|]. right. exists e. split; [exact H | reflexivity].
      * destruct H as [<-|H].
        -- right. exists (k, c). split; [now left | reflexivity].
        -- destruct (IH H) as [E|(e' & He' & E)]; [now left|].
           right. exists e'. split; [now right | exact E].
Qed.

Lemma ascending_unique_insert (v : Q) (u : list (Q * nat)) :
  ascending u -> ascending (unique_insert v u).
Proof.
  unfold ascending. induction u as [|[k c] u IH]; simpl; intros H.
  - repeat constructor.
  - apply StronglySorted_inv in H. destruct H as [Hu Hk].
    destruct (Qeq_bool v k) eqn:Eeq.
    + constructor; assumption.
    + destruct (Qle_bool v k) eqn:Ele.
      * apply Qle_bool_iff in Ele. apply Qeq_bool_false_iff in Eeq.
        assert (Hlt : v < k).
        { apply Qnot_le_lt. intros C. apply Eeq. now apply Qle_antisym. }
        constructor; [constructor; assumption|].
        constructor; [exact Hlt|].
        revert Hk. apply Forall_impl. intros e He. simpl in *. lra.
      * assert (Hlt : k < v).
        { apply Qnot_le_lt. intros C. apply Qle_bool_iff in C. congruence. }
        constructor; [apply IH; exact Hu|].
        apply Forall_forall. intros e He.
        destruct (unique_insert_fst v u e He) as [->|(e' & He' & <-)]; [exact Hlt|].
        rewrite Forall_forall in Hk. apply Hk, He'.
Qed.

Lemma ascending_sorted_hist (a : list Q) : ascending (sorted_hist a).
Proof.
  induction a as [|v a IH]; simpl; [constructor|].
  apply ascending_unique_insert, IH.
Qed.

Lemma lookup_above (l : Q) (u : list (Q * nat)) :
  Forall (fun e => l < fst e) u -> lookup l u = 0%nat.
Proof.
  induction 1 as [|[k c] u Hk _ IH]; simpl; [reflexivity|].
  simpl in Hk. destruct (Qeq_bool k l) eqn:E; [|exact IH].
  apply Qeq_bool_iff in E. lra.
Qed.

Lemma lookup_unique_insert (v l : Q) (u : list (Q * nat)) :
  ascending u ->
  lookup l (unique_insert v u) = ((if Qeq_bool v l then 1 else 0) + lookup l u)%nat.
Proof.
  unfold ascending. induction u as [|[k c] u IH]; simpl; intros H.
  - destruct (Qeq_bool v l); reflexivity.
  - apply StronglySorted_inv in H. destruct H as [Hu Hk].
    destruct (Qeq_bool v k) eqn:Eeq.
    + apply Qeq_bool_iff in Eeq. simpl.
      destruct (Qeq_bool k l) eqn:Ekl.
      * apply Qeq_bool_iff in Ekl.
        rewrite (proj2 (Qeq_bool_iff v l)) by (rewrite Eeq; exact Ekl). reflexivity.
      * apply Qeq_bool_false_iff in Ekl.
        rewrite (proj2 (Qeq_bool_false_iff v l)); [reflexivity|].
        intros C. apply Ekl. rewrite <- Eeq. exact C.
    + apply Qeq_bool_false_iff in Eeq. destruct (Qle_bool v k) eqn:Ele.
      * apply Qle_bool_iff in Ele. simpl.
        destruct (Qeq_bool v l) eqn:Evl; [|reflexivity].
        apply Qeq_bool_iff in Evl.
        rewrite (proj2 (Qeq_bool_false_iff k l)) by (intros C; apply Eeq; lra).
        rewrite lookup_above; [reflexivity|].
        revert Hk. apply Forall_impl. intros e He. simpl in He. lra.
      * simpl. destruct (Qeq_bool k l) eqn:Ekl.
        -- apply Qeq_bool_iff in Ekl.
           rewrite (proj2 (Qeq_bool_false_iff v l)); [reflexivity|].
           intros C. apply Eeq. lra.
        -- apply IH. exact Hu.
Qed.

Lemma lookup_sorted_hist (l : Q) (a : list Q) :
  lookup l (sorted_hist a) = occurrences l a.
Proof.
  induction a as [|v a IH]; simpl; [reflexivity|].
  rewrite lookup_unique_insert by apply ascending_sorted_hist.
  rewrite IH. unfold occurrences. simpl. destruct (Qeq_bool v l); reflexivity.
Qed.

Lemma ascending_nodup (u : list (Q * nat)) : ascending u -> NoDupA Qeq (keys u).
Proof.
  unfold ascending. induction 1 as [|[k c] u _ IH Hk]; simpl; constructor; [|exact IH].
  intros H. apply InA_alt in H. destruct H as (k' & E & Hin).
  unfold keys in Hin. apply in_map_iff in Hin. destruct Hin as (e & <- & He).
  rewrite Forall_forall in Hk. specialize (Hk e He). simpl in Hk. lra.
Qed.

Lemma ascending_after (before after : list (Q * nat)) (x : Q * nat) :
  ascending (before ++ x :: after) -> Forall (fun e => fst x < fst e) after.
Proof.
  unfold ascending. induction before as [|b before IH]; simpl; intros H;
    apply StronglySorted_inv in H; destruct H as [Hs Hall]; [exact Hall | apply IH, Hs].
Qed.

Lemma sorted_hist_entry (a : list Q) (k : Q) (c : nat) :
  In (k, c) (sorted_hist a) -> In k a /\ (0 < c)%nat.
Proof.
  intros H.
  assert (Hc : lookup k (sorted_hist a) = c).
  { apply lookup_entry; [apply ascending_nodup, ascending_sorted_hist | exact H]. }
  revert k c H Hc. induction a as [|v a IH]; simpl; intros k c H Hc; [contradiction|].
  destruct (unique_insert_fst v (sorted_hist a) (k, c) H) as [E|((k', c') & He' & E)];
    simpl in E.
  - subst k. split; [now left|].
    rewrite lookup_unique_insert in Hc by apply ascending_sorted_hist.
    rewrite (proj2 (Qeq_bool_iff v v)) in Hc by reflexivity. lia.
  - subst k'. destruct (IH k c' He') as [Hin _].
    { apply lookup_entry; [apply ascending_nodup, ascending_sorted_hist | exact He']. }
    split; [now right|].
    rewrite lookup_unique_insert in Hc by apply ascending_sorted_hist.
    assert (0 < lookup k (sorted_hist a))%nat; [|lia].
    rewrite (lookup_entry _ _ _ (ascending_nodup _ (ascending_sorted_hist a)) He').
    destruct (IH k c' He'); [|assumption].
    apply lookup_entry; [apply ascending_nodup, ascending_sorted_hist | exact He'].
Qed.

Lemma lookup_positive (l : Q) (u : list (Q * nat)) :
  (0 < lookup l u)%nat -> exists k, In (k, lookup l u) u /\ k == l.
Proof.
  induction u as [|[k c] u IH]; simpl; intros H; [lia|].
  destruct (Qeq_bool k l) eqn:E.
  - exists k. split; [now left | now apply Qeq_bool_iff].
  - destruct (IH H) as (k' & Hin & Ek). exists k'. split; [now right | exact Ek].
Qed.

Lemma occurrences_positive (v : Q) (a : list Q) : In v a -> (0 < occurrences v a)%nat.
Proof.
  unfold occurrences. induction a as [|x a IH]; simpl; intros H; [contradiction|].
  destruct H as [->|H].
  - rewrite (proj2 (Qeq_bool_iff v v)) by reflexivity. simpl. lia.
  - destruct (Qeq_bool x v); simpl; [lia | apply IH, H].
Qed.

(** The first entry of the sorted histogram with the highest count is the
    least of the most frequent values. *)
Lemma first_maximum_plurality (a : list Q) (w : Q) :
  first_maximum (sorted_hist a) w -> plurality_lowest a w.
Proof.
  intros (before & c & after & E & Hb & Ha).
  pose proof (ascending_sorted_hist a) as Hasc.
  pose proof (ascending_nodup _ Hasc) as Hnd.
  assert (Hw : In (w, c) (sorted_hist a))
    by (rewrite E; apply in_or_app; right; now left).
  assert (Hcw : occurrences w a = c).
  { rewrite <- lookup_sorted_hist. apply lookup_entry; assumption. }
  assert (Hle : forall k c', In (k, c') (sorted_hist a) -> (c' <= c)%nat).
  { intros k c' Hin. rewrite E in Hin. apply in_app_or in Hin.
    rewrite Forall_forall in Hb, Ha. destruct Hin as [Hin|[Hin|Hin]].
    - specialize (Hb _ Hin). simpl in Hb. lia.
    - injection Hin as _ <-. lia.
    - specialize (Ha _ Hin). exact Ha. }
  split; [apply (sorted_hist_entry a w c Hw)|]. split.
  - intros v. rewrite Hcw, <- lookup_sorted_hist.
    destruct (Nat.eq_0_gt_0_cases (lookup v (sorted_hist a))) as [Z|P]; [lia|].
    destruct (lookup_positive v _ P) as (k & Hin & _). eapply Hle, Hin.
  - intros v Hv Hocc. rewrite Hcw in Hocc.
    pose proof (occurrences_positive v a Hv) as P.
    rewrite <- lookup_sorted_hist in Hocc, P.
    destruct (lookup_positive v _ P) as (k & Hin & Ek). rewrite Hocc in Hin.
    rewrite E in Hin. apply in_app_or in Hin. destruct Hin as [Hin|[Hin|Hin]].
    + rewrite Forall_forall in Hb. specialize (Hb _ Hin). simpl in Hb. lia.
    + injection Hin as <-. rewrite Ek. apply Qle_refl.
    + rewrite E in Hasc. apply ascending_after in Hasc.
      rewrite Forall_forall in Hasc. specialize (Hasc _ Hin). simpl in Hasc.
      rewrite <- Ek. apply Qlt_le_weak, Hasc.
Qed.

Lemma vote_scan_spec (u : list (Q * nat)) (j top_votes top_index : nat) :
  (Forall (fun e => (snd e <= top_votes)%nat) u /\
   vote_scan (map snd u) j top_votes top_index = top_index) \/
  (exists before k c after,
      u = before ++ (k, c) :: after /\
      (top_votes < c)%nat /\
      Forall (fun e => (snd e < c)%nat) before /\
      Forall (fun e => (snd e <= c)%nat) after /\
      vote_scan (map snd u) j top_votes top_index = (j + length before)%nat).
Proof.
  revert j top_votes top_index.
  induction u as [|[k c0] u IH]; intros j tv ti; simpl.
  - left. split; [constructor | reflexivity].
  - destruct (tv <? c0)%nat eqn:E.
    + apply Nat.ltb_lt in E. right.
      destruct (IH (S j) c0 j)
        as [[Hall Hr]|(before & l & c & after & -> & Hc & Hb & Ha & Hr)].
      * exists [], k, c0, u. simpl. rewrite Nat.add_0_r.
        repeat split; try assumption. constructor.
      * exists ((k, c0) :: before), l, c, after. simpl.
        repeat split; try assumption; try lia. constructor; [simpl; lia | exact Hb].
    + apply Nat.ltb_ge in E.
      destruct (IH (S j) tv ti)
        as [[Hall Hr]|(before & l & c & after & -> & Hc & Hb & Ha & Hr)].
      * left. split; [constructor; [simpl; lia | exact Hall] | exact Hr].
      * right. exists ((k, c0) :: before), l, c, after. simpl.
        repeat split; try assumption; try lia. constructor; [simpl; lia | exact Hb].
Qed.

Lemma sorted_hist_nonempty (a : list Q) : a <> [] -> sorted_hist a <> [].
Proof.
  destruct a as [|v a]; [congruence|]. intros _. simpl.
  destruct (sorted_hist a) as [|[k c] u]; simpl; [discriminate|].
  destruct (Qeq_bool v k); [discriminate|]. destruct (Qle_bool v k); discriminate.
Qed.

(** [vote] on the predictions of at least one tree. *)
Lemma vote_spec (a : list Q) :
  a <> [] -> exists w, vote a = Ok w /\ first_maximum (sorted_hist a) w.
Proof.
  intros Hne. unfold vote, np_unique. fold (sorted_hist a). simpl fst. simpl snd.
  pose proof (sorted_hist_nonempty a Hne) as Hu.
  destruct (length (map fst (sorted_hist a)) =? 1)%nat eqn:E1.
  - apply Nat.eqb_eq in E1. rewrite length_map in E1.
    destruct (sorted_hist a) as [|[k c] [|e u]] eqn:Es; try discriminate.
    exists k. split; [reflexivity|]. exists [], c, []. repeat split; constructor.
  - destruct (vote_scan_spec (sorted_hist a) 0 0 0)
      as [[Hall _]|(before & k & c & after & E & _ & Hb & Ha & ->)].
    + exfalso. destruct (sorted_hist a) as [|[k c] u] eqn:Es; [congruence|].
      assert (Hin : In (k, c) (sorted_hist a)) by (rewrite Es; now left).
      apply sorted_hist_entry in Hin. inversion Hall; subst. simpl in *. lia.
    + exists k. split.
      * rewrite E. simpl. rewrite map_app. simpl.
        rewrite (getitem_Ok _ _ 0).
        -- f_equal. rewrite app_nth2; rewrite length_map; [|lia].
           rewrite Nat.sub_diag. reflexivity.
        -- rewrite length_app, length_map. simpl. lia.
      * exists before, c, after. repeat split; assumption.
Qed.

Lemma vote_Ok_inv (a : list Q) (w : Q) : vote a = Ok w -> plurality_lowest a w.
Proof.
  intros H. destruct a as [|v a]; [discriminate|].
  destruct (vote_spec (v :: a)) as (w' & Hw' & M); [discriminate|].
  rewrite H in Hw'. injection Hw' as <-. apply first_maximum_plurality, M.
Qed.

(** ** C2: the majority vote of the forest *)

Example voting_forest_predicts :
  forest_predict voting_forest [[7]; [8]] = Ok [1; 1].
Proof. vm_compute. reflexivity. Qed.

(** C2: when [RandomForest.predict] returns, its answer for each row of the
    matrix is the vote over the labels the trees predicted for that row
    (each tree on the columns it was trained on): [np.unique] gives the
    distinct labels in ascending order with the number of their
    occurrences, and the answer is the first label of that order whose
    count is the highest, that is the label with the highest count and,
    among the labels that reach that count, the smallest one.  The votes
    [0, 1, 1] give 1 and the tie [0, 1] gives 0. *)
Theorem forest_predict_majority_vote (self : RandomForest) (x : list (list Q))
  (out : list Q) :
  forest_predict self x = Ok out ->
  (exists per_tree,
      Forall2 (fun tree p => tree_votes tree x = Ok p) (the_forest self) per_tree /\
      length out = length x /\
      forall j, (j < length x)%nat ->
                vote (votes_of_row per_tree j) = Ok (nth j out 0) /\
                np_unique (votes_of_row per_tree j)
                = (map fst (sorted_hist (votes_of_row per_tree j)),
                   map snd (sorted_hist (votes_of_row per_tree j))) /\
                ascending (sorted_hist (votes_of_row per_tree j)) /\
                (forall l, lookup l (sorted_hist (votes_of_row per_tree j))
                           = occurrences l (votes_of_row per_tree j)) /\
                first_maximum (sorted_hist (votes_of_row per_tree j)) (nth j out 0) /\
                plurality_lowest (votes_of_row per_tree j) (nth j out 0)) /\
  vote [0; 1; 1] = Ok 1 /\
  vote [0; 1] = Ok 0.
Proof.
  intros H. split; [|split; reflexivity].
  unfold forest_predict in H. inv_bind H.
  apply collect_predictions_Ok_inv in Hv. destruct Hv as (per_tree & HF & ->).
  exists per_tree. split; [exact HF|].
  pose proof (map_each_length _ _ _ H) as L. rewrite length_map, length_seq in L.
  split; [exact L|]. intros j Hj.
  apply map_each_Ok_inv in H.
  assert (Hv : vote (votes_of_row per_tree j) = Ok (nth j out 0)).
  { pose proof (Forall2_nth_both _ _ _ j [] 0 H) as N.
    rewrite length_map, length_seq in N. specialize (N Hj).
    rewrite (nth_indep _ [] (votes_of_row per_tree 0)) in N
      by (rewrite length_map, length_seq; exact Hj).
    rewrite (map_nth (votes_of_row per_tree)), seq_nth in N by exact Hj.
    exact N. }
  split; [exact Hv|]. split; [reflexivity|].
  split; [apply ascending_sorted_hist|].
  split; [intros l; apply lookup_sorted_hist|].
  assert (M : first_maximum (sorted_hist (votes_of_row per_tree j)) (nth j out 0)).
  { destruct (votes_of_row per_tree j) as [|v a] eqn:E; [discriminate|].
    destruct (vote_spec (v :: a)) as (w & Hw & M); [discriminate|].
    rewrite Hv in Hw. injection Hw as <-. exact M. }
  split; [exact M | apply first_maximum_plurality, M].
Qed.

Lemma forest_predict_majority_vote_witness :
  (exists per_tree,
      Forall2 (fun tree p => tree_votes tree [[7]; [8]] = Ok p)
              (the_forest voting_forest) per_tree /\
      length [1; 1] = length [[7]; [8]] /\
      forall j, (j < length [[7]; [8]])%nat ->
                vote (votes_of_row per_tree j) = Ok (nth j [1; 1] 0) /\
                np_unique (votes_of_row per_tree j)
                = (map fst (sorted_hist (votes_of_row per_tree j)),
                   map snd (sorted_hist (votes_of_row per_tree j))) /\
                ascending (sorted_hist (votes_of_row per_tree j)) /\
                (forall l, lookup l (sorted_hist (votes_of_row per_tree j))
                           = occurrences l (votes_of_row per_tree j)) /\
                first_maximum (sorted_hist (votes_of_row per_tree j)) (nth j [1; 1] 0) /\
                plurality_lowest (votes_of_row per_tree j) (nth j [1; 1] 0)) /\
  vote [0; 1; 1] = Ok 1 /\
  vote [0; 1] = Ok 0.
Proof.
  apply (forest_predict_majority_vote voting_forest [[7]; [8]] [1; 1]).
  vm_compute. reflexivity.
Defined.

(** ** C8: the length of the predictions *)

Lemma map_each_exists {A B : Type} (f : A -> result B) (xs : list A) :
  (forall x, In x xs -> exists y, f x = Ok y) -> exists ys, map_each f xs = Ok ys.
Proof.
  induction xs as [|x xs IH]; simpl; intros H; [eauto|].
  destruct (H x (or_introl eq_refl)) as (y & ->). simpl.
  destruct IH as (ys & ->); [intros x' Hx'; apply H; now right|]. simpl. eauto.
Qed.

Lemma random_forest_predict_total (F : nat) (tree : Tree) (root : Node)
  (X : list (list Q)) :
  root_node tree = Some root -> well_formed F root ->
  Forall (fun r => F <= length r)%nat X ->
  exists v, random_forest_predict tree X = Ok v /\ length v = length X.
Proof.
  intros Hroot Hwf HX. unfold random_forest_predict. rewrite Hroot.
  destruct (map_each_exists (fun xi => classify_root xi (Some root)) X) as (v & Hv).
  - intros r Hr. rewrite Forall_forall in HX. simpl.
    destruct (classify_well_formed F r root Hwf (HX r Hr)) as (d & _ & -> & _). eauto.
  - exists v. split; [exact Hv | eapply map_each_length, Hv].
Qed.

Lemma take_columns_total (F : nat) (X : list (list Q)) (idx : list nat) :
  Forall (fun j => j < F)%nat idx -> Forall (fun r => F <= length r)%nat X ->
  take_columns X idx = Ok (map (fun r => map (fun j => nth j r 0) idx) X).
Proof.
  intros Hidx HX. unfold take_columns. apply map_each_total. intros r Hr.
  apply map_each_total. intros j Hj. apply getitem_Ok.
  rewrite Forall_forall in Hidx, HX. specialize (Hidx j Hj). specialize (HX r Hr). lia.
Qed.

Section Fitted.

Variable order : set_order.

(** What [Tree.fit] leaves in the tree when it returns. *)
Lemma fit_well_formed (F : nat) (self tree : Tree) (x : list (list Q)) (y : list Q)
  (sc : Q) :
  fit order self x y sc = (tree, Ok tt) ->
  Forall (fun r => length r = F) x ->
  exists root, root_node tree = Some root /\ well_formed F root /\
               feature_indices tree = feature_indices self.
Proof.
  intros Hfit Hx.
  destruct (fit_outcome order self x y sc)
    as [(e & _ & Hf)|(m & root & Hm & Hb & Hf)]; rewrite Hf in Hfit; [discriminate|].
  injection Hfit as <-.
  destruct (merge_train_Ok_inv x y m Hm) as (Hne & Hmne & _ & _ & Hrect).
  assert (HF : length (hd [] x) = F).
  { destruct x as [|r x]; [congruence|]. inversion Hx; assumption. }
  rewrite HF in Hrect. exists root. split; [reflexivity|]. split; [|reflexivity].
  eapply Built_well_formed; [eapply build_Built, Hb | exact Hrect | exact Hmne].
Qed.

Lemma tree_votes_total (F : nat) (tree : Tree) (X : list (list Q)) :
  fitted_in_forest order F tree -> Forall (fun r => F <= length r)%nat X ->
  exists p, tree_votes tree X = Ok p.
Proof.
  intros (tree0 & idx & xs & ys & sc & Hidx & Hxs & Hfit) HX.
  destruct (fit_well_formed (length idx) _ _ _ _ _ Hfit Hxs) as (root & Hroot & Hwf & Hfi).
  unfold tree_votes. rewrite Hfi. simpl.
  rewrite (take_columns_total F X idx Hidx HX). simpl.
  destruct (random_forest_predict_total (length idx) tree root
              (map (fun r => map (fun j => nth j r 0) idx) X) Hroot Hwf)
    as (p & Hp & _).
  - apply Forall_map. apply Forall_forall. intros r _. rewrite length_map. lia.
  - eauto.
Qed.

Lemma forest_predict_total (F : nat) (self : RandomForest) (X : list (list Q)) :
  the_forest self <> [] ->
  Forall (fitted_in_forest order F) (the_forest self) ->
  Forall (fun r => F <= length r)%nat X ->
  exists v, forest_predict self X = Ok v /\ length v = length X.
Proof.
  intros Hne Hfit HX. unfold forest_predict.
  assert (Hc : exists predictions, collect_predictions (the_forest self) X = Ok predictions).
  { unfold collect_predictions.
    destruct (for_each_total (the_forest self)
                (fun (st : nat * list (list Q)) tree =>
                   let '(i, predictions) := st in
                   idx <- match feature_indices tree with
                          | Some idx => Ok idx
                          | None => Raise AttributeError
                          end ;;
                   x_idx <- take_columns X idx ;;
                   prediction <- random_forest_predict tree x_idx ;;
                   Ok (S i, set_column i prediction predictions))
                (0%nat, repeat (repeat 0 (length (the_forest self))) (length X)))
      as (st & ->); [|simpl; eauto].
    intros [i preds] tree Htree. rewrite Forall_forall in Hfit.
    destruct (tree_votes_total F tree X (Hfit tree Htree) HX) as (p & Hp).
    unfold tree_votes in Hp. inv_bind Hp. inv_bind Hp.
    rewrite Hv. simpl. rewrite Hv0. simpl. rewrite Hp. simpl. eauto. }
  destruct Hc as (predictions & Hc). rewrite Hc. simpl.
  destruct (collect_predictions_Ok_inv _ _ _ Hc) as (per_tree & HF & ->).
  destruct (map_each_exists vote (map (votes_of_row per_tree) (seq 0 (length X))))
    as (v & Hv).
  - intros a Ha. apply in_map_iff in Ha. destruct Ha as (j & <- & _).
    destruct (vote_spec (votes_of_row per_tree j)) as (w & Hw & _); [|eauto].
    unfold votes_of_row. pose proof (Forall2_length HF) as L.
    destruct per_tree; [|discriminate].
    destruct (the_forest self); [congruence | discriminate].
  - exists v. split; [exact Hv|].
    rewrite (map_each_length _ _ _ Hv), length_map, length_seq. reflexivity.
Qed.

End Fitted.

(** ** [RandomForest.fit] *)

Lemma seq_split_index (n i : nat) (pre post : list nat) :
  seq 0 n = pre ++ i :: post -> i = length pre /\ (length pre < n)%nat.
Proof.
  intros E.
  assert (L : (length pre < n)%nat).
  { apply (f_equal (@length nat)) in E. rewrite length_seq, length_app in E.
    simpl in E. lia. }
  split; [|exact L].
  apply (f_equal (fun l => nth (length pre) l 0%nat)) in E.
  rewrite seq_nth, nth_middle in E by exact L. simpl in E. congruence.
Qed.

Lemma set_nth_length {A : Type} (i : nat) (v : A) (l : list A) :
  length (set_nth i v l) = length l.
Proof.
  revert i. induction l as [|a l IH]; intros [|i]; simpl; try reflexivity.
  now rewrite IH.
Qed.

Lemma nth_set_nth_eq {A : Type} (i : nat) (v d : A) (l : list A) :
  (i < length l)%nat -> nth i (set_nth i v l) d = v.
Proof.
  revert i. induction l as [|a l IH]; intros [|i]; simpl; intros H; try lia.
  - reflexivity.
  - apply IH. lia.
Qed.

Lemma nth_set_nth_neq {A : Type} (i j : nat) (v d : A) (l : list A) :
  i <> j -> nth j (set_nth i v l) d = nth j l d.
Proof.
  revert i j. induction l as [|a l IH]; intros [|i] [|j]; simpl; intros H;
    try reflexivity; try congruence.
  apply IH. congruence.
Qed.

Lemma getitem_In {A : Type} (xs : list A) (i : nat) (x : A) :
  getitem xs i = Ok x -> In x xs.
Proof.
  unfold getitem. destruct (nth_error xs i) eqn:E; [|discriminate].
  intros H. injection H as <-. eapply nth_error_In, E.
Qed.

Lemma take_columns_width (x x' : list (list Q)) (idx : list nat) :
  take_columns x idx = Ok x' -> Forall (fun r => length r = length idx) x'.
Proof.
  unfold take_columns. intros H. apply map_each_Ok_inv in H.
  induction H as [|r r' x x' Hr _ IH]; constructor; [|exact IH].
  eapply map_each_length, Hr.
Qed.

(** When [RandomForest.fit] returns, every tree of the forest is in the
    state the loop body leaves it in. *)
Lemma forest_fit_fitted (order : set_order) (draws : random_draws)
  (self0 self : RandomForest) (x : list (list Q)) (y : list Q) (F : nat) :
  forest_fit order draws self0 x y = Ok self ->
  length (the_forest self0) = n_trees self0 ->
  Forall (Forall (fun j => j < F)%nat) (feature_choices draws) ->
  length (the_forest self) = n_trees self0 /\
  Forall (fitted_in_forest order F) (the_forest self).
Proof.
  unfold forest_fit. intros H Hlen Hdraws.
  inv_bind_as H row0 Hrow0. inv_bind_as H subsets Hsubsets.
  inv_bind_as H forest Hloop. injection H as <-. simpl.
  apply (for_each_prefix
           (fun visited forest =>
              length forest = n_trees self0 /\
              forall j, (j < length visited)%nat ->
                        fitted_in_forest order F (nth j forest (Tree_init 0)))) in Hloop.
  - destruct Hloop as [L Hall]. split; [exact L|].
    apply Forall_forall. intros tree Hin.
    destruct (In_nth _ _ (Tree_init 0) Hin) as (j & Hj & <-).
    apply Hall. rewrite length_seq. lia.
  - split; [exact Hlen | simpl; intros j Hj; lia].
  - intros pre i post f1 f2 Exs [L Hall] Hbody.
    destruct (seq_split_index _ _ _ _ Exs) as [-> Hi].
    inv_bind_as Hbody subset Hsubset. inv_bind_as Hbody idx Hidx.
    inv_bind_as Hbody tree Htree. inv_bind_as Hbody x_subset Hx.
    destruct (fit order (set_feature_indices tree idx) x_subset (snd subset)
                (forest_stopping_criteria self0)) as [tree' [[]| |]] eqn:Hfit;
      try discriminate.
    injection Hbody as <-. split; [rewrite set_nth_length; exact L|].
    intros j Hj. rewrite length_app in Hj. simpl in Hj.
    destruct (Nat.eq_dec (length pre) j) as [<-|Hne].
    + rewrite nth_set_nth_eq by lia.
      exists tree, idx, x_subset, (snd subset), (forest_stopping_criteria self0).
      split; [|split; [eapply take_columns_width; eassumption | exact Hfit]].
      rewrite Forall_forall in Hdraws. apply Hdraws. eapply getitem_In, Hidx.
    + rewrite nth_set_nth_neq by exact Hne. apply Hall. lia.
Qed.

Example forest_fit_then_predict :
  exists self,
    forest_fit first_seen training_draws (RandomForest_init 3 None 1) training_x four_y
    = Ok self /\
    forest_predict self [[1; 10]; [4; 40]; [3; 0]] = Ok [0; 1; 0].
Proof. eexists. split; vm_compute; reflexivity. Qed.

(** C8 fails as stated for the single tree: [Tree.predict] takes the labels
    as well, prints the accuracy and returns [None], not a label vector. *)
Lemma tree_predict_returns_none :
  exists self',
    fit first_seen (Tree_init 0) four_x four_y 1 = (self', Ok tt) /\
    predict self' four_x four_y = Ok (mkPrinted 4 4 (400 # 4), PyNone) /\
    ~ (exists line v, predict self' four_x four_y = Ok (line, PyArray v) /\
                      length v = length four_x).
Proof.
  eexists. split; [vm_compute; reflexivity|].
  split; [vm_compute; reflexivity|].
  intros (line & v & H & _). vm_compute in H. discriminate.
Qed.

(** C8, amended: for a forest that [RandomForest.fit] has fitted on a
    matrix with [F] columns (at least one tree, the feature indices drawn
    from [range(F)]), [RandomForest.predict] applied to an [M]-by-[F] matrix
    returns a label vector of length [M].  For a single fitted tree the
    label vector of length [M] is what [random_forest_predict] returns;
    [Tree.predict] returns [None] whenever it returns. *)
Theorem predict_returns_one_label_per_row :
  (forall order draws F self0 x y self X,
      forest_fit order draws self0 x y = Ok self ->
      (0 < n_trees self0)%nat ->
      length (the_forest self0) = n_trees self0 ->
      Forall (fun r => length r = F) x ->
      Forall (Forall (fun j => j < F)%nat) (feature_choices draws) ->
      Forall (fun r => length r = F) X ->
      exists v, forest_predict self X = Ok v /\ length v = length X) /\
  (forall order F self0 x y sc self X,
      fit order self0 x y sc = (self, Ok tt) ->
      Forall (fun r => length r = F) x ->
      Forall (fun r => length r = F) X ->
      exists v, random_forest_predict self X = Ok v /\ length v = length X) /\
  (forall self X y out, predict self X y = Ok out -> snd out = PyNone).
Proof.
  split; [|split].
  - intros order draws F self0 x y self X Hfit Hn Hlen _ Hdraws HX.
    destruct (forest_fit_fitted order draws self0 self x y F Hfit Hlen Hdraws)
      as [L Hall].
    apply (forest_predict_total order F self X).
    + destruct (the_forest self); [simpl in L; lia | discriminate].
    + exact Hall.
    + revert HX. apply Forall_impl. intros r ->. lia.
  - intros order F self0 x y sc self X Hfit Hx HX.
    destruct (fit_well_formed order F self0 self x y sc Hfit Hx) as (root & Hroot & Hwf & _).
    apply (random_forest_predict_total F self root X Hroot Hwf).
    revert HX. apply Forall_impl. intros r ->. lia.
  - intros self X y out H. unfold predict in H. inv_bind H. inv_bind H.
    injection H as <-. reflexivity.
Qed.

(** * Further properties of the code *)

(** ** [class_counts] *)

Lemma class_counts_from_no_timeout (rows : list row) (counts : dict) :
  class_counts_from counts rows <> Timeout.
Proof.
  revert counts. induction rows as [|r rows IH]; simpl; intros counts; [discriminate|].
  unfold label. destruct (rev r) as [|l t]; simpl; [discriminate | apply IH].
Qed.

Lemma class_counts_from_Raise_row (rows : list row) (counts : dict) (e : exn) :
  class_counts_from counts rows = Raise e -> Exists (fun r => r = []) rows.
Proof.
  revert counts. induction rows as [|r rows IH]; simpl; intros counts H; [discriminate|].
  destruct r as [|a r]; [now constructor|].
  rewrite label_last in H by discriminate. simpl in H.
  constructor 2. eapply IH, H.
Qed.

(** X1: for rows that all have a label cell, [class_counts] returns a
    histogram whose keys are the distinct labels in the order of their first
    occurrence, each once; the count of a label is the number of rows that
    carry it, every count is positive, and the counts sum to the number of
    rows. *)
Theorem class_counts_histogram (rows : list row) :
  Forall (fun r => r <> []) rows ->
  exists d,
    class_counts rows = Ok d /\
    keys d = distinct_labels rows /\
    NoDupA Qeq (keys d) /\
    (forall l, lookup l d = occurrences l (labels rows)) /\
    Forall (fun kc => (0 < snd kc)%nat) d /\
    total d = length rows.
Proof.
  intros H. exists (count_into [] (labels rows)).
  split; [apply class_counts_spec, H|].
  split; [apply keys_count_into|].
  split; [apply nodup_count_into; constructor|].
  split; [intros l; apply lookup_count_into; constructor|].
  split; [apply positive_count_into; constructor|].
  rewrite total_count_into. unfold labels. rewrite length_map. reflexivity.
Qed.

Lemma class_counts_histogram_witness :
  exists d,
    class_counts four_rows = Ok d /\
    keys d = distinct_labels four_rows /\
    NoDupA Qeq (keys d) /\
    (forall l, lookup l d = occurrences l (labels four_rows)) /\
    Forall (fun kc => (0 < snd kc)%nat) d /\
    total d = length four_rows.
Proof.
  apply (class_counts_histogram four_rows). repeat constructor; discriminate.
Defined.

(** X2: [class_counts] fails exactly when some row has no cell, and then
    with [IndexError] (from [row[-1]]); it raises nothing else. *)
Theorem class_counts_raises_on_empty_row (rows : list row) :
  (Forall (fun r => r <> []) rows /\ exists d, class_counts rows = Ok d) \/
  (Exists (fun r => r = []) rows /\ class_counts rows = Raise IndexError).
Proof.
  destruct (class_counts rows) as [d|e|] eqn:H.
  - left. split; [|eauto]. apply class_counts_from_Ok_inv in H. apply H.
  - right. split; [eapply class_counts_from_Raise_row, H|].
    f_equal. eapply class_counts_from_Raise, H.
  - exfalso. eapply class_counts_from_no_timeout, H.
Qed.

(** ** [Tree.partition] *)

Lemma partition_no_timeout (rows : list row) (q : Question) :
  partition rows q <> Timeout.
Proof.
  induction rows as [|r rows IH]; simpl; [discriminate|].
  unfold match_, getitem. destruct (nth_error r (feature q)); simpl; [|discriminate].
  destruct (partition rows q) as [[t f]| |]; simpl; try congruence.
  destruct (Qle_bool (value q) q0); discriminate.
Qed.

Lemma partition_Raise (rows : list row) (q : Question) (e : exn) :
  partition rows q = Raise e ->
  e = IndexError /\ Exists (fun r => (length r <= feature q)%nat) rows.
Proof.
  induction rows as [|r rows IH]; simpl; intros H; [discriminate|].
  unfold match_, getitem in H. destruct (nth_error r (feature q)) eqn:E; simpl in H.
  - destruct (partition rows q) as [[t f]|e'|]; simpl in H.
    + destruct (Qle_bool (value q) q0); discriminate.
    + injection H as <-. destruct (IH eq_refl) as [-> Hex].
      split; [reflexivity | now constructor 2].
    + discriminate.
  - injection H as <-. split; [reflexivity|]. constructor.
    now apply nth_error_None.
Qed.

(** X3: [partition] either raises [IndexError], exactly when some row is
    too short for the question's feature, or returns the rows that match
    the question and the rows that do not, each in the order of [rows]:
    every row lands on exactly one side and no row is lost or added. *)
Theorem partition_splits_rows (rows : list row) (q : Question) :
  (Forall (fun r => feature q < length r)%nat rows /\
   exists t f,
     partition rows q = Ok (t, f) /\
     t = filter (goes_true q) rows /\
     f = filter (fun r => negb (goes_true q r)) rows /\
     (length t + length f = length rows)%nat /\
     Forall (fun r => match_ q r = Ok true) t /\
     Forall (fun r => match_ q r = Ok false) f /\
     (forall r, In r rows <-> In r t \/ In r f)) \/
  (Exists (fun r => length r <= feature q)%nat rows /\
   partition rows q = Raise IndexError).
Proof.
  destruct (partition rows q) as [[t f]|e|] eqn:H.
  - left. destruct (partition_Ok_inv rows q t f H) as (Hall & Et & Ef).
    split; [exact Hall|]. exists t, f. split; [reflexivity|].
    split; [exact Et|]. split; [exact Ef|].
    split; [eapply partition_lengths, H|].
    rewrite Forall_forall in Hall.
    split; [|split].
    + apply Forall_forall. intros r Hr. rewrite Et in Hr. apply filter_In in Hr.
      destruct Hr as [Hin Hg]. rewrite (match_Ok q r (Hall r Hin)), Hg. reflexivity.
    + apply Forall_forall. intros r Hr. rewrite Ef in Hr. apply filter_In in Hr.
      destruct Hr as [Hin Hg]. rewrite (match_Ok q r (Hall r Hin)).
      apply negb_true_iff in Hg. rewrite Hg. reflexivity.
    + intros r. rewrite Et, Ef, !filter_In. destruct (goes_true q r); simpl; intuition congruence.
  - right. destruct (partition_Raise rows q e H) as [-> Hex]. split; [exact Hex | reflexivity].
  - exfalso. eapply partition_no_timeout, H.
Qed.

(** ** [Node.top_pick] *)

(** X4: [top_pick] returns the class 0 when no entry of the histogram has
    a positive count, in particular on the empty histogram; otherwise it
    returns a key, the first in insertion order whose count is the
    highest. *)
Theorem top_pick_first_highest (d : dict) :
  (Forall (fun kc => snd kc = 0%nat) d -> top_pick d = 0) /\
  (Exists (fun kc => (0 < snd kc)%nat) d ->
   first_maximum d (top_pick d) /\ In (top_pick d) (keys d)).
Proof.
  unfold top_pick.
  destruct (top_pick_loop_spec d 0 0%nat)
    as [[Hall Hr]|(before & l & c & after & E & Hc & Hb & Ha & Hr)].
  - split; [intros _; exact Hr|]. intros Hex. exfalso.
    apply Exists_exists in Hex. destruct Hex as (kc & Hin & Hpos).
    rewrite Forall_forall in Hall. specialize (Hall kc Hin). lia.
  - split.
    + intros Hz. exfalso. rewrite Forall_forall in Hz.
      assert (Hin : In (l, c) d) by (rewrite E; apply in_or_app; right; now left).
      specialize (Hz _ Hin). simpl in Hz. lia.
    + intros _. rewrite Hr.
      assert (M : first_maximum d l) by (exists before, c, after; repeat split; assumption).
      split; [exact M | apply first_maximum_key, M].
Qed.

(** ** [Tree.gini] and [Tree.info_gain] *)

Lemma occurrences_Permutation (k : Q) (l l' : list Q) :
  Permutation l l' -> occurrences k l = occurrences k l'.
Proof.
  unfold occurrences. induction 1 as [|x l l' _ IH|x y l|l l' l'' _ IH1 _ IH2]; simpl.
  - reflexivity.
  - destruct (Qeq_bool x k); simpl; congruence.
  - destruct (Qeq_bool x k), (Qeq_bool y k); reflexivity.
  - congruence.
Qed.

(** The formula does not see the order of the rows. *)
Lemma gini_formula_Permutation (rows rows' : list row) :
  rows <> [] -> Permutation rows rows' ->
  gini_formula rows' == gini_formula rows.
Proof.
  intros N P.
  assert (N' : rows' <> []).
  { intros ->. apply Permutation_sym, Permutation_nil in P. contradiction. }
  rewrite (gini_formula_sum_squares rows N), (gini_formula_sum_squares rows' N').
  unfold len. rewrite <- (Permutation_length P).
  set (K := first_seen_list (labels rows)).
  assert (ND : NoDupA Qeq K) by apply first_seen_from_distinct.
  assert (PL : Permutation (labels rows) (labels rows'))
    by (apply Permutation_map; exact P).
  assert (Cov : forall x, In x (labels rows) -> InA Qeq x K).
  { intros x Hx. destruct (first_seen_complete _ _ Hx) as (y & Hy & E).
    apply InA_alt. exists y. split; [symmetry; exact E | exact Hy]. }
  rewrite (sum_squares_over_keys K (labels rows) ND Cov).
  rewrite (sum_squares_over_keys K (labels rows') ND)
    by (intros x Hx; apply Cov; eapply Permutation_in; [apply Permutation_sym, PL | exact Hx]).
  unfold square_occurrences.
  rewrite (map_ext _ (fun k => (occurrences k (labels rows)
                                * occurrences k (labels rows))%nat))
    by (intros k; rewrite (occurrences_Permutation k _ _ PL); reflexivity).
  reflexivity.
Qed.

(** X7: [gini] depends on the order of the rows only through rounding: the
    impurities of a row set of at most [2^50] rows and of a permutation of
    it differ by at most the sum of their error bounds. *)
Theorem gini_permutation (rows rows' : list row) (g : Q) :
  Permutation rows rows' ->
  rows <> [] ->
  (Z.of_nat (length rows) <= 2 ^ 50)%Z ->
  gini rows = Ok g ->
  exists g',
    gini rows' = Ok g' /\
    Qabs (g' - g) <= gini_error_bound rows + gini_error_bound rows'.
Proof.
  intros P N Hn Hg.
  assert (Hrows : Forall (fun r => r <> []) rows).
  { unfold gini in Hg. inv_bind_as Hg d Hd. apply class_counts_from_Ok_inv in Hd. apply Hd. }
  assert (Hrows' : Forall (fun r => r <> []) rows') by (eapply Permutation_Forall; eassumption).
  assert (N' : rows' <> []).
  { intros ->. apply Permutation_sym, Permutation_nil in P. contradiction. }
  assert (Hn' : (Z.of_nat (length rows') <= 2 ^ 50)%Z)
    by (rewrite <- (Permutation_length P); exact Hn).
  destruct (gini_total rows' Hrows') as (g' & Hg' & _).
  exists g'. split; [exact Hg'|].
  pose proof (gini_error rows g N Hn Hg) as E.
  pose proof (gini_error rows' g' N' Hn' Hg') as E'.
  rewrite (gini_formula_Permutation rows rows' N P) in E'.
  apply Qabs_Qle_condition in E. apply Qabs_Qle_condition in E'.
  apply Qabs_Qle_condition.
  set (G := gini_formula rows) in *.
  set (e := gini_error_bound rows) in *. set (e' := gini_error_bound rows') in *.
  clearbody G e e'. clear - E E'. lra.
Qed.

Lemma gini_permutation_witness :
  exists g',
    gini three_rows_permuted = Ok g' /\
    Qabs (g' - (8006399337547549 # 18014398509481984))
    <= gini_error_bound three_rows + gini_error_bound three_rows_permuted.
Proof.
  apply (gini_permutation three_rows three_rows_permuted).
  - apply Permutation_sym. apply (Permutation_cons_app [[1; 0]; [2; 0]] [] [3; 1]).
    rewrite app_nil_r. apply Permutation_refl.
  - discriminate.
  - vm_compute. discriminate.
  - vm_compute. reflexivity.
Defined.

(** The two orders of [three_rows] do round differently. *)
Lemma gini_permutation_rounds_differently :
  exists g g',
    Permutation three_rows three_rows_permuted /\
    gini three_rows = Ok g /\ gini three_rows_permuted = Ok g' /\ g' < g.
Proof.
  eexists _, _. split.
  - apply Permutation_sym. apply (Permutation_cons_app [[1; 0]; [2; 0]] [] [3; 1]).
    rewrite app_nil_r. apply Permutation_refl.
  - split; [vm_compute; reflexivity|]. split; [vm_compute; reflexivity|].
    vm_compute. reflexivity.
Qed.

(** ** [Tree.find_best_split]: ties and failures *)





(** The gains compared are the binary64 ones.  On [descending_rows], with
    the values of the column visited in ascending order, the splits
    [feature 0 >= 2] and [feature 0 >= 3] both gain 1/9 on exact numbers;
    the code computes a larger float for the first, and returns it although
    it visits the second later. *)
Lemma find_best_split_rounded_gains_differ :
  exists g0 v2 v3,
    gini descending_rows = Ok g0 /\
    candidates (fun _ => [1; 2; 3]) descending_rows
    = [mkQuestion 0 1; mkQuestion 0 2; mkQuestion 0 3] /\
    eligible_gain (Tree_init 1) descending_rows g0 (mkQuestion 0 2) = Ok (Some v2) /\
    eligible_gain (Tree_init 1) descending_rows g0 (mkQuestion 0 3) = Ok (Some v3) /\
    v3 < v2 /\
    find_best_split (fun _ => [1; 2; 3]) (Tree_init 1) descending_rows
    = Ok (v2, Some (mkQuestion 0 2)).
Proof.
  eexists _, _, _. split; [vm_compute; reflexivity|].
  split; [reflexivity|].
  split; [vm_compute; reflexivity|]. split; [vm_compute; reflexivity|].
  split; vm_compute; reflexivity.
Qed.

(** *** What makes the search fail *)

Lemma fails_with_IndexError_bind {A B : Type} (m : result A) (k : A -> result B) :
  fails_with_IndexError m ->
  (forall a, m = Ok a -> fails_with_IndexError (k a)) ->
  fails_with_IndexError (bind m k).
Proof.
  destruct m as [a|e|]; simpl; intros Hm Hk; [now apply Hk | exact Hm | exact Hm].
Qed.

Lemma fails_with_IndexError_for_each {A S : Type} (xs : list A)
  (body : S -> A -> result S) (s : S) :
  (forall s1 x, In x xs -> fails_with_IndexError (body s1 x)) ->
  fails_with_IndexError (for_each xs body s).
Proof.
  revert s. induction xs as [|x xs IH]; simpl; intros s H; [exact I|].
  apply fails_with_IndexError_bind; [apply H; now left|].
  intros s' _. apply IH. intros s1 x' Hx'. apply H. now right.
Qed.

Lemma fails_with_IndexError_map_each {A B : Type} (f : A -> result B) (xs : list A) :
  (forall x, In x xs -> fails_with_IndexError (f x)) ->
  fails_with_IndexError (map_each f xs).
Proof.
  induction xs as [|x xs IH]; simpl; intros H; [exact I|].
  apply fails_with_IndexError_bind; [apply H; now left|].
  intros y _. apply fails_with_IndexError_bind; [apply IH; intros; apply H; now right|].
  intros ys _. exact I.
Qed.

Lemma fails_with_IndexError_getitem {A : Type} (xs : list A) (i : nat) :
  fails_with_IndexError (getitem xs i).
Proof. unfold getitem. destruct (nth_error xs i); simpl; [exact I | reflexivity]. Qed.

Lemma fails_with_IndexError_gini (rows : list row) : fails_with_IndexError (gini rows).
Proof.
  destruct (class_counts rows) as [d|e|] eqn:E.
  - apply class_counts_from_Ok_inv in E. destruct E as [Hne _].
    destruct (gini_total rows Hne) as (g & -> & _). exact I.
  - unfold gini. rewrite E. simpl. eapply class_counts_from_Raise, E.
  - exfalso. eapply class_counts_from_no_timeout, E.
Qed.

Lemma fails_with_IndexError_partition (rows : list row) (q : Question) :
  fails_with_IndexError (partition rows q).
Proof.
  destruct (partition rows q) as [tf|e|] eqn:E; simpl.
  - exact I.
  - eapply partition_Raise, E.
  - eapply partition_no_timeout, E.
Qed.

Lemma fails_with_IndexError_info_gain (left right : list row) (g0 : Q) :
  left <> [] \/ right <> [] -> fails_with_IndexError (info_gain left right g0).
Proof.
  intros H. unfold info_gain.
  rewrite fdiv_Ok by (apply round64_nonzero, len_plus_nonzero; exact H). cbn [bind].
  apply fails_with_IndexError_bind; [apply fails_with_IndexError_gini|].
  intros gl _. apply fails_with_IndexError_bind; [apply fails_with_IndexError_gini|].
  intros gr _. exact I.
Qed.

Lemma fails_with_IndexError_consider (self : Tree) (rows : list row) (g0 : Q)
  (st : Q * option Question) (q : Question) :
  rows <> [] -> fails_with_IndexError (consider self rows g0 st q).
Proof.
  intros Hne. unfold consider.
  apply fails_with_IndexError_bind; [apply fails_with_IndexError_partition|].
  intros [t f] Hp.
  destruct (Qlt_bool (len t) (stopping_criteria self)
            || Qlt_bool (len f) (stopping_criteria self)); [exact I|].
  apply fails_with_IndexError_bind.
  - apply fails_with_IndexError_info_gain.
    apply partition_lengths in Hp.
    destruct t; [right | left; discriminate].
    destruct f; [|discriminate]. destruct rows; [congruence | simpl in Hp; lia].
  - intros g _. destruct (Qle_bool (fst st) g); exact I.
Qed.

Lemma fails_with_IndexError_find_best_split (order : set_order) (self : Tree)
  (rows : list row) :
  fails_with_IndexError (find_best_split order self rows).
Proof.
  unfold find_best_split.
  apply fails_with_IndexError_bind; [apply fails_with_IndexError_gini|].
  intros g0 _.
  apply fails_with_IndexError_bind; [apply fails_with_IndexError_getitem|].
  intros row0 Hrow0.
  assert (Hne : rows <> []) by (intros ->; discriminate).
  apply fails_with_IndexError_for_each. intros s1 col _.
  apply fails_with_IndexError_bind.
  - apply fails_with_IndexError_map_each. intros r _.
    apply fails_with_IndexError_getitem.
  - intros c _. apply fails_with_IndexError_for_each. intros s2 val _.
    apply fails_with_IndexError_consider, Hne.
Qed.

Lemma searchable_rows_nonempty (rows : list row) :
  searchable rows -> Forall (fun r => r <> []) rows.
Proof. intros [_ H]. revert H. apply Forall_impl. tauto. Qed.

Lemma searchable_eligible_gain (self : Tree) (rows : list row) (g0 : Q) (q : Question) :
  searchable rows -> (feature q < n_features rows)%nat ->
  exists og, eligible_gain self rows g0 q = Ok og.
Proof.
  intros Hs Hq. pose proof (searchable_rows_nonempty rows Hs) as Hrows.
  destruct Hs as [Hne Hall]. unfold eligible_gain.
  assert (Hp : partition rows q =
               Ok (filter (goes_true q) rows, filter (fun r => negb (goes_true q r)) rows)).
  { apply partition_Ok. revert Hall. apply Forall_impl. intros r [_ L]. lia. }
  rewrite Hp. cbn [bind].
  set (t := filter (goes_true q) rows) in *.
  set (f := filter (fun r => negb (goes_true q r)) rows) in *.
  destruct (Qlt_bool (len t) (stopping_criteria self)
            || Qlt_bool (len f) (stopping_criteria self)); [eauto|].
  destruct (partition_Forall _ _ _ _ _ Hp Hrows) as [Ht Hf].
  pose proof (partition_lengths _ _ _ _ Hp) as L.
  destruct (info_gain_total t f g0 Ht Hf) as (v & ->).
  - destruct t; [right | left; discriminate].
    destruct f; [|discriminate]. destruct rows; [congruence | simpl in L; lia].
  - simpl. eauto.
Qed.

Lemma searchable_find_best_split (order : set_order) (self : Tree) (rows : list row) :
  searchable rows -> exists st, find_best_split order self rows = Ok st.
Proof.
  intros Hs. pose proof (searchable_rows_nonempty rows Hs) as Hrows.
  pose proof Hs as [Hne Hall]. unfold find_best_split.
  destruct (gini_total rows Hrows) as (g0 & -> & _). cbn [bind].
  assert (Hg : getitem rows 0 = Ok (hd [] rows))
    by (destruct rows; [congruence | reflexivity]).
  rewrite Hg. cbn [bind].
  change (length (hd [] rows) - 1)%nat with (n_features rows).
  apply for_each_total. intros s1 col Hcol. apply in_seq in Hcol.
  rewrite (map_each_total _ (fun r => nth col r 0)).
  - cbn [bind]. apply for_each_total. intros s2 val _.
    rewrite consider_eligible_gain.
    destruct (searchable_eligible_gain self rows g0 (mkQuestion col val) Hs)
      as (og & ->); [simpl; lia|]. simpl. eauto.
  - intros r' Hr'. apply getitem_Ok.
    rewrite Forall_forall in Hall. destruct (Hall r' Hr') as [_ L]. lia.
Qed.

Lemma find_best_split_Ok_searchable (order : set_order) (self : Tree)
  (rows : list row) (st : Q * option Question) :
  find_best_split order self rows = Ok st -> searchable rows.
Proof.
  unfold find_best_split. intros H.
  inv_bind_as H g0 Hg. inv_bind_as H row0 Hrow0.
  assert (Hfirst : rows <> [] /\ row0 = hd [] rows).
  { destruct rows as [|r rows]; [discriminate|]. unfold getitem in Hrow0.
    simpl in Hrow0. injection Hrow0 as <-. split; [discriminate | reflexivity]. }
  destruct Hfirst as [Hne ->]. split; [exact Hne|].
  assert (Hrows : Forall (fun r => r <> []) rows).
  { unfold gini in Hg. inv_bind_as Hg d Hd.
    apply class_counts_from_Ok_inv in Hd. tauto. }
  change (length (hd [] rows) - 1)%nat with (n_features rows) in H.
  assert (Hcols : forall col, In col (seq 0 (n_features rows)) ->
                              Forall (fun r => col < length r)%nat rows).
  { refine (for_each_visited
              (fun cols (_ : Q * option Question) =>
                 forall col, In col cols -> Forall (fun r => col < length r)%nat rows)
              _ _ _ _ _ _ H).
    - intros col [].
    - intros pre col s1 s2 Ipre Hbody col' Hin. inv_bind_as Hbody c Hc.
      apply column_Ok_inv in Hc. destruct Hc as [_ Hall].
      apply in_app_or in Hin.
      destruct Hin as [Hin|[<-|[]]]; [now apply Ipre | exact Hall]. }
  rewrite Forall_forall in Hrows |- *. intros r Hr. split; [now apply Hrows|].
  destruct (n_features rows) as [|k] eqn:En; [lia|].
  assert (Hk : In k (seq 0 (S k))) by (apply in_seq; lia).
  specialize (Hcols k Hk). rewrite Forall_forall in Hcols.
  specialize (Hcols r Hr). lia.
Qed.

(** X9: [find_best_split] returns a pair exactly when there is a first row,
    no row is empty and every row has a cell in each feature column of the
    first row; on any other input it raises [IndexError], and it raises
    nothing else. *)
Theorem find_best_split_raises_only_IndexError (order : set_order) (self : Tree)
  (rows : list row) :
  (searchable rows /\ exists st, find_best_split order self rows = Ok st) \/
  (~ searchable rows /\ find_best_split order self rows = Raise IndexError).
Proof.
  pose proof (fails_with_IndexError_find_best_split order self rows) as F.
  destruct (find_best_split order self rows) as [st|e|] eqn:E; simpl in F.
  - left. split; [eapply find_best_split_Ok_searchable, E | eauto].
  - right. subst e. split; [|reflexivity].
    intros Hs. destruct (searchable_find_best_split order self rows Hs) as (st & Hst).
    congruence.
  - contradiction.
Qed.

(** ** [Tree.build]: where the recursion stops *)

(** No split of rows that share one label gains anything: a side is empty,
    or both sides have impurity 0 as the parent has. *)
Lemma info_gain_pure (rows : list row) (q : Question) (t f : list row)
  (k g0 v : Q) :
  rows <> [] ->
  (forall r, In r rows -> last r 0 == k) ->
  gini rows = Ok g0 ->
  partition rows q = Ok (t, f) ->
  info_gain t f g0 = Ok v ->
  v == 0.
Proof.
  intros Hne Hk Hg Hp Hv.
  destruct (partition_empty_side _ _ _ _ Hp) as [Et Ef].
  destruct (partition_Ok_inv _ _ _ _ Hp) as (_ & Eqt & Eqf).
  assert (Ct : t = [] \/ t <> []) by (destruct t; [left | right]; congruence).
  destruct Ct as [Zt|Nt].
  { rewrite Zt, (Et Zt) in Hv.
    destruct (info_gain_empty_left rows g0 Hne Hg) as (v' & Hv' & Z).
    rewrite Hv' in Hv. injection Hv as <-. exact Z. }
  assert (Cf : f = [] \/ f <> []) by (destruct f; [left | right]; congruence).
  destruct Cf as [Zf|Nf].
  { rewrite Zf, (Ef Zf) in Hv.
    destruct (info_gain_empty_right rows g0 Hne Hg) as (v' & Hv' & Z).
    rewrite Hv' in Hv. injection Hv as <-. exact Z. }
  pose proof (gini_pure rows k g0 Hne Hk Hg) as Z0.
  unfold info_gain in Hv. inv_bind_as Hv pl Hpl. inv_bind_as Hv gl Hgl.
  inv_bind_as Hv gr Hgr. injection Hv as <-.
  assert (Zl : gl == 0).
  { apply (gini_pure t k gl Nt); [|exact Hgl].
    intros r Hr. apply Hk. rewrite Eqt in Hr. apply filter_In in Hr. apply Hr. }
  assert (Zr : gr == 0).
  { apply (gini_pure f k gr Nf); [|exact Hgr].
    intros r Hr. apply Hk. rewrite Eqf in Hr. apply filter_In in Hr. apply Hr. }
  unfold fsub, fmul.
  rewrite (round64_Qeq (pl * gl) 0) by (rewrite Zl; ring). rewrite round64_0.
  rewrite (round64_Qeq (g0 - 0) 0) by (rewrite Z0; ring). rewrite round64_0.
  rewrite (round64_Qeq (round64 (1 - pl) * gr) 0) by (rewrite Zr; ring).
  rewrite round64_0.
  rewrite (round64_Qeq (0 - 0) 0) by ring. rewrite round64_0. reflexivity.
Qed.

(** X10: rows that all carry the same label are never split: whatever the
    stopping criterion and however many candidate splits pass it, [build]
    returns the leaf that counts all the rows under the label of the first
    row. *)
Theorem build_pure_rows_leaf (order : set_order) (self : Tree) (fuel : nat)
  (rows : list row) (k : Q) :
  searchable rows ->
  (forall r, In r rows -> last r 0 == k) ->
  build order (S fuel) self rows = Ok (Leaf [(last (hd [] rows) 0, length rows)]).
Proof.
  intros Hs Hk. pose proof (searchable_rows_nonempty rows Hs) as Hrows.
  destruct (searchable_find_best_split order self rows Hs) as ([gain question] & Hf).
  destruct (find_best_split_Ok_inv order self rows _ Hf)
    as (g0 & Hg & Hne & H0 & _ & Hb).
  simpl in H0, Hb.
  assert (Hz : gain == 0).
  { destruct question as [q|].
    - destruct Hb as [_ He]. unfold eligible_gain in He.
      inv_bind_as He tf Hp. destruct tf as [t f].
      destruct (Qlt_bool (len t) (stopping_criteria self)
                || Qlt_bool (len f) (stopping_criteria self)); [discriminate|].
      inv_bind_as He v Hv. injection He as ->.
      eapply info_gain_pure; eassumption.
    - destruct Hb as [-> _]. reflexivity. }
  simpl. rewrite Hf. cbn [bind].
  apply Qeq_bool_iff in Hz. rewrite Hz.
  unfold Node_init. simpl.
  rewrite (class_counts_pure rows k Hne Hrows Hk). reflexivity.
Qed.

Lemma build_pure_rows_leaf_witness :
  build first_seen 1 (Tree_init 1) two_alike_rows = Ok (Leaf [(0, 2%nat)]).
Proof.
  apply (build_pure_rows_leaf first_seen (Tree_init 1) 0 two_alike_rows 0).
  - split; [discriminate|]. repeat constructor; simpl; try discriminate; lia.
  - intros r [<-|[<-|[]]]; reflexivity.
Defined.

(** X11: when [stopping_criteria] exceeds half the number of rows, no
    candidate split can leave that many rows on both sides: the search
    returns [(0, None)] and [build] returns a single leaf with the
    histogram of all the rows. *)
Theorem build_floor_above_half_leaf (order : set_order) (self : Tree) (fuel : nat)
  (rows : list row) :
  searchable rows ->
  len rows < 2 * stopping_criteria self ->
  exists predictions,
    class_counts rows = Ok predictions /\
    find_best_split order self rows = Ok (0, None) /\
    build order (S fuel) self rows = Ok (Leaf predictions).
Proof.
  intros Hs Hhalf. pose proof (searchable_rows_nonempty rows Hs) as Hrows.
  destruct (searchable_find_best_split order self rows Hs) as ([gain question] & Hf).
  destruct (find_best_split_Ok_inv order self rows _ Hf)
    as (g0 & Hg & Hne & H0 & _ & Hb).
  simpl in H0, Hb.
  assert (E : gain = 0 /\ question = None).
  { destruct question as [q|].
    - exfalso. destruct Hb as [_ He]. unfold eligible_gain in He.
      inv_bind_as He tf Hp. destruct tf as [t f].
      destruct (Qlt_bool (len t) (stopping_criteria self)) eqn:Et; [discriminate|].
      destruct (Qlt_bool (len f) (stopping_criteria self)) eqn:Ef; [discriminate|].
      apply Qlt_bool_false_iff in Et. apply Qlt_bool_false_iff in Ef.
      apply partition_lengths in Hp.
      assert (L : len rows == len t + len f).
      { unfold len. rewrite <- Hp. apply (count_Q_plus (length t) (length f)). }
      lra.
    - destruct Hb as [-> _]. split; reflexivity. }
  destruct E as [-> ->].
  exists (count_into [] (labels rows)).
  split; [apply class_counts_spec, Hrows|]. split; [exact Hf|].
  simpl. rewrite Hf. cbn [bind]. simpl.
  unfold Node_init. simpl. rewrite (class_counts_spec rows Hrows). reflexivity.
Qed.

Lemma build_floor_above_half_leaf_witness :
  exists predictions,
    class_counts four_rows = Ok predictions /\
    find_best_split first_seen (Tree_init 3) four_rows = Ok (0, None) /\
    build first_seen 1 (Tree_init 3) four_rows = Ok (Leaf predictions).
Proof.
  apply (build_floor_above_half_leaf first_seen (Tree_init 3) 0 four_rows).
  - split; [discriminate|]. repeat constructor; simpl; try discriminate; lia.
  - reflexivity.
Defined.

(** ** [Tree.build]: the tree is greedy *)



(** The gain tested against 0 is the binary64 one.  On [balanced_rows] the
    split [feature 1 >= 1] leaves the label proportions unchanged, a gain of
    0 on exact numbers; the code computes [2^-55], which is not 0, and
    [build] splits where the exact gain would give a single leaf. *)
Lemma build_splits_on_rounded_gain :
  gini_formula balanced_rows
  - (1 # 2) * gini_formula [[0; 1; 1]; [1; 1; 0]; [1; 1; 0]]
  - (1 # 2) * gini_formula [[0; 0; 0]; [0; 0; 0]; [1; 0; 1]] == 0 /\
  partition balanced_rows (mkQuestion 1 1)
  = Ok ([[0; 1; 1]; [1; 1; 0]; [1; 1; 0]], [[0; 0; 0]; [0; 0; 0]; [1; 0; 1]]) /\
  find_best_split first_seen (Tree_init 1) balanced_rows
  = Ok (1 # 36028797018963968, Some (mkQuestion 1 1)) /\
  build first_seen 6 (Tree_init 1) balanced_rows
  = Ok (Decision (Some (mkQuestion 1 1))
          (Some (Decision (Some (mkQuestion 0 1))
                   (Some (Leaf [(0, 2%nat)])) (Some (Leaf [(1, 1%nat)]))))
          (Some (Decision (Some (mkQuestion 0 1))
                   (Some (Leaf [(1, 1%nat)])) (Some (Leaf [(0, 2%nat)]))))).
Proof.
  split; [vm_compute; reflexivity|]. split; [vm_compute; reflexivity|].
  split; vm_compute; reflexivity.
Qed.

(** ** The leaves of a built tree *)

Lemma Built_rows (order : set_order) (self : Tree) (rows : list row) (node : Node) :
  Built order self rows node -> rows <> [] /\ Forall (fun r => r <> []) rows.
Proof.
  intros H.
  assert (S : exists st, find_best_split order self rows = Ok st)
    by (destruct H; eauto).
  destruct S as (st & Hst). apply find_best_split_Ok_searchable in Hst.
  split; [apply Hst | apply searchable_rows_nonempty, Hst].
Qed.

Lemma labels_length (rows : list row) : length (labels rows) = length rows.
Proof. unfold labels. apply length_map. Qed.

Lemma list_sum_map_app {A : Type} (f : A -> nat) (l1 l2 : list A) :
  list_sum (map f (l1 ++ l2)) = (list_sum (map f l1) + list_sum (map f l2))%nat.
Proof. rewrite map_app. apply list_sum_app. Qed.

(** X13: the leaves of a tree [build] returns share out the rows it was
    given: for every label, the counts the leaves record add up to the number
    of rows with that label; the totals of the leaves add up to the number of
    rows; no leaf is empty, so there are at most as many leaves as rows. *)
Theorem build_leaves_share_rows (order : set_order) (self : Tree) (fuel : nat)
  (rows : list row) (node : Node) :
  build order fuel self rows = Ok node ->
  (forall l, list_sum (map (lookup l) (leaves node)) = occurrences l (labels rows)) /\
  list_sum (map total (leaves node)) = length rows /\
  Forall (fun d => (0 < total d)%nat) (leaves node) /\
  (length (leaves node) <= length rows)%nat.
Proof.
  intros H. apply build_Built in H.
  induction H as [rows gain question d Hf Hz Hc
                 |rows gain q t f tn fn Hf Hnz Hp _ IHt _ IHf].
  - assert (B : Built order self rows (Leaf d)) by (eapply Built_leaf; eassumption).
    destruct (Built_rows _ _ _ _ B) as [Hne _].
    apply class_counts_from_Ok_inv in Hc. destruct Hc as [_ ->]. simpl.
    assert (T : total (count_into [] (labels rows)) = length rows)
      by (rewrite total_count_into, labels_length; reflexivity).
    assert (L : (0 < length rows)%nat) by (destruct rows; [congruence | simpl; lia]).
    split; [|split; [|split]].
    + intros l. rewrite lookup_count_into by constructor. simpl. lia.
    + rewrite T. lia.
    + constructor; [rewrite T; exact L | constructor].
    + lia.
  - destruct IHt as (Lt & Tt & Pt & Nt). destruct IHf as (Lf & Tf & Pf & Nf).
    pose proof (partition_lengths _ _ _ _ Hp) as L.
    apply partition_Ok_inv in Hp. destruct Hp as (_ & Et & Ef). simpl.
    split; [|split; [|split]].
    + intros l. rewrite list_sum_map_app, Lt, Lf, Et, Ef.
      symmetry. apply occurrences_filter_split.
    + rewrite list_sum_map_app, Tt, Tf. exact L.
    + apply Forall_app. split; assumption.
    + rewrite length_app. lia.
Qed.

Lemma build_leaves_share_rows_witness :
  (forall l, list_sum (map (lookup l) (leaves four_rows_tree))
             = occurrences l (labels four_rows)) /\
  list_sum (map total (leaves four_rows_tree)) = length four_rows /\
  Forall (fun d => (0 < total d)%nat) (leaves four_rows_tree) /\
  (length (leaves four_rows_tree) <= length four_rows)%nat.
Proof.
  apply (build_leaves_share_rows first_seen (Tree_init 1) 4 four_rows four_rows_tree).
  vm_compute. reflexivity.
Defined.

(** X14: every leaf of a tree [build] returns from at least
    [stopping_criteria] rows holds at least [stopping_criteria] rows. *)
Theorem build_leaves_hold_floor (order : set_order) (self : Tree) (fuel : nat)
  (rows : list row) (node : Node) :
  build order fuel self rows = Ok node ->
  stopping_criteria self <= len rows ->
  Forall (fun d => stopping_criteria self <= count_Q (total d)) (leaves node).
Proof.
  intros H. apply build_Built in H.
  induction H as [rows gain question d Hf Hz Hc
                 |rows gain q t f tn fn Hf Hnz Hp _ IHt _ IHf]; intros Hsc.
  - apply class_counts_from_Ok_inv in Hc. destruct Hc as [_ ->]. simpl.
    constructor; [|constructor].
    rewrite total_count_into, labels_length. exact Hsc.
  - destruct (accepted_split order self rows gain (Some q) Hf Hnz)
      as (q' & t' & f' & Eq & _ & Hp' & St & Sf & _).
    injection Eq as <-. rewrite Hp in Hp'. injection Hp' as <- <-.
    simpl. apply Forall_app. split; [apply IHt, St | apply IHf, Sf].
Qed.

Lemma build_leaves_hold_floor_witness :
  Forall (fun d => 2 <= count_Q (total d)) (leaves four_rows_tree).
Proof.
  apply (build_leaves_hold_floor first_seen (Tree_init 2) 4 four_rows four_rows_tree).
  - vm_compute. reflexivity.
  - vm_compute. discriminate.
Defined.

(** ** Where the training rows end *)

Lemma Built_routes_row (order : set_order) (self : Tree) (rows : list row)
  (node : Node) (r : row) :
  Built order self rows node -> In r rows ->
  exists d,
    leaf_for r node = Ok d /\
    classify r node = Ok (top_pick d) /\
    In d (leaves node) /\
    (0 < lookup (last r 0%Q) d)%nat.
Proof.
  intros H. revert r.
  induction H as [rows gain question d Hf Hz Hc
                 |rows gain q t f tn fn Hf Hnz Hp _ IHt _ IHf]; intros r Hr.
  - apply class_counts_from_Ok_inv in Hc. destruct Hc as [_ ->].
    exists (count_into [] (labels rows)). simpl.
    split; [reflexivity|]. split; [reflexivity|]. split; [now left|].
    rewrite lookup_count_into by constructor. simpl.
    apply occurrences_positive. unfold labels.
    apply (in_map (fun r => last r 0)), Hr.
  - apply partition_Ok_inv in Hp. destruct Hp as (Hall & Et & Ef).
    rewrite Forall_forall in Hall. simpl.
    rewrite (match_Ok q r (Hall r Hr)). cbn [bind].
    destruct (goes_true q r) eqn:G.
    + destruct (IHt r) as (d & H1 & H2 & H3 & H4).
      { rewrite Et. apply filter_In. split; assumption. }
      exists d. split; [exact H1|]. split; [exact H2|].
      split; [apply in_or_app; now left | exact H4].
    + destruct (IHf r) as (d & H1 & H2 & H3 & H4).
      { rewrite Ef. apply filter_In. split; [assumption | now rewrite G]. }
      exists d. split; [exact H1|]. split; [exact H2|].
      split; [apply in_or_app; now right | exact H4].
Qed.

Lemma match_prefix (q : Question) (r extra : row) :
  (feature q < length r)%nat -> match_ q (r ++ extra) = match_ q r.
Proof.
  intros H. unfold match_, getitem. rewrite nth_error_app1 by exact H. reflexivity.
Qed.

(** The descent reads the feature cells only. *)
Lemma leaf_for_prefix (F : nat) (r extra : row) (node : Node) :
  well_formed F node -> (F <= length r)%nat ->
  leaf_for (r ++ extra) node = leaf_for r node /\
  classify (r ++ extra) node = classify r node.
Proof.
  intros H Hlen. induction H as [d Hne Hpos|q tn fn Hq _ IHt _ IHf].
  - split; reflexivity.
  - simpl. rewrite (match_prefix q r extra) by lia.
    destruct (match_ q r) as [[|]| |]; simpl; try (split; reflexivity).
    + exact IHt.
    + exact IHf.
Qed.

Lemma last_repeat (c : Q) (n : nat) : last (repeat c (S n)) 0 = c.
Proof.
  induction n as [|n IH]; [reflexivity|].
  change (repeat c (S (S n))) with (c :: repeat c (S n)).
  change (last (c :: repeat c (S n)) 0)
    with (match repeat c (S n) with [] => c | _ :: _ => last (repeat c (S n)) 0 end).
  simpl repeat at 1. exact IH.
Qed.

Lemma assign_row_label (width : nat) (xi : list Q) (yi : Q) (r : row) :
  assign_row (S width) (xi ++ [yi]) = Ok r -> last r 0 = yi.
Proof.
  unfold assign_row. destruct (length (xi ++ [yi]) =? S width)%nat.
  - intros H. injection H as <-. apply last_last.
  - destruct xi as [|a xi]; simpl.
    + intros H. injection H as <-. apply (last_repeat yi width).
    + destruct xi; discriminate.
Qed.

Lemma map_nth_seq_firstn (y : list Q) (n : nat) :
  (n <= length y)%nat -> map (fun i => nth i y 0) (seq 0 n) = firstn n y.
Proof.
  revert n. induction y as [|a y IH]; intros n Hn.
  - simpl in Hn. assert (n = 0%nat) by lia. subst n. reflexivity.
  - destruct n as [|n]; [reflexivity|].
    simpl in Hn. simpl. rewrite <- seq_shift, map_map. simpl.
    f_equal. apply IH. lia.
Qed.

(** The label column of the merged matrix is [y], cut to the rows of [x]. *)
Lemma merge_train_labels (x : list (list Q)) (y : list Q) (m : list row) :
  merge_train x y = Ok m -> labels m = firstn (length x) y.
Proof.
  intros H. pose proof (merge_train_Ok_inv x y m H) as (_ & _ & Ly & _ & _).
  rewrite <- (map_nth_seq_firstn y (length x) Ly).
  unfold merge_train in H. inv_bind_as H row0 Hrow0. apply map_each_Ok_inv in H.
  unfold labels. induction H as [|i r idxs rs Hi _ IH]; [reflexivity|].
  simpl. rewrite IH. f_equal.
  inv_bind_as Hi xi Hxi. inv_bind_as Hi yi Hyi.
  apply (getitem_Ok_inv _ _ _ 0) in Hyi. destruct Hyi as [_ ->].
  rewrite Nat.add_1_r in Hi. apply assign_row_label in Hi. exact Hi.
Qed.

(** On a matrix [x] whose rows have the same length, row [i] of the merged
    matrix is [x[i]] followed by [y[i]]. *)
Lemma merge_train_rows (F : nat) (x : list (list Q)) (y : list Q) (m : list row) :
  merge_train x y = Ok m -> Forall (fun r => length r = F) x ->
  m = map (fun i => nth i x [] ++ [nth i y 0]) (seq 0 (length x)).
Proof.
  intros H Hx. unfold merge_train in H. inv_bind_as H row0 Hrow0.
  assert (L0 : length row0 = F).
  { apply getitem_In in Hrow0. rewrite Forall_forall in Hx. now apply Hx. }
  apply map_each_Ok_inv in H.
  induction H as [|i r idxs rs Hi _ IH]; [reflexivity|].
  simpl. rewrite <- IH. f_equal.
  inv_bind_as Hi xi Hxi. inv_bind_as Hi yi Hyi.
  assert (Lxi : length xi = F).
  { apply getitem_In in Hxi. rewrite Forall_forall in Hx. now apply Hx. }
  apply (getitem_Ok_inv _ _ _ []) in Hxi. destruct Hxi as [_ Exi].
  apply (getitem_Ok_inv _ _ _ 0) in Hyi. destruct Hyi as [_ Eyi].
  unfold assign_row in Hi.
  assert (E : (length (xi ++ [yi]) =? length row0 + 1)%nat = true).
  { apply Nat.eqb_eq. rewrite length_app. simpl. lia. }
  rewrite E in Hi. injection Hi as <-. rewrite Exi, Eyi. reflexivity.
Qed.

(** X15: after a successful [fit] on samples of equal length, every training
    sample [x[i]] is classified at a leaf whose histogram counts its own
    label [y[i]] at least once: the sample went down the tree, when the tree
    was built, by the answers [classify] reads from it. *)
Theorem fit_routes_training_samples (order : set_order) (self self' : Tree)
  (F : nat) (x : list (list Q)) (y : list Q) (sc : Q) (i : nat) :
  fit order self x y sc = (self', Ok tt) ->
  Forall (fun r => length r = F) x ->
  (i < length x)%nat ->
  exists root d,
    root_node self' = Some root /\
    In d (leaves root) /\
    leaf_for (nth i x []) root = Ok d /\
    classify_root (nth i x []) (root_node self') = Ok (top_pick d) /\
    (0 < lookup (nth i y 0%Q) d)%nat.
Proof.
  intros Hfit Hx Hi.
  destruct (fit_outcome order self x y sc) as [(e & _ & E)|(m & root & Hm & Hb & E)];
    [rewrite E in Hfit; discriminate|].
  rewrite E in Hfit. injection Hfit as <-.
  pose proof (merge_train_Ok_inv x y m Hm) as (Hxne & Hmne & _ & _ & Hrect).
  assert (EF : length (hd [] x) = F).
  { destruct x as [|r0 x]; [congruence|]. now inversion Hx. }
  rewrite EF in Hrect.
  apply build_Built in Hb.
  pose proof (Built_well_formed _ _ F _ _ Hb Hrect Hmne) as Hwf.
  assert (Hin : In (nth i x [] ++ [nth i y 0]) m).
  { rewrite (merge_train_rows F x y m Hm Hx).
    apply (in_map (fun i => nth i x [] ++ [nth i y 0])). apply in_seq. lia. }
  destruct (Built_routes_row _ _ _ _ _ Hb Hin) as (d & H1 & H2 & H3 & H4).
  assert (Li : (F <= length (nth i x []))%nat).
  { rewrite Forall_forall in Hx. rewrite (Hx (nth i x [])); [lia|]. now apply nth_In. }
  destruct (leaf_for_prefix F (nth i x []) [nth i y 0] root Hwf Li) as [P1 P2].
  rewrite last_last in H4.
  exists root, d. simpl. split; [reflexivity|]. split; [exact H3|].
  split; [rewrite <- P1; exact H1|]. split; [rewrite <- P2; exact H2 | exact H4].
Qed.

Lemma fit_routes_training_samples_witness :
  exists root d,
    root_node (mkTree 1 (Some four_rows_tree) None) = Some root /\
    In d (leaves root) /\
    leaf_for (nth 2 four_x []) root = Ok d /\
    classify_root (nth 2 four_x []) (root_node (mkTree 1 (Some four_rows_tree) None))
    = Ok (top_pick d) /\
    (0 < lookup (nth 2 four_y 0%Q) d)%nat.
Proof.
  apply (fit_routes_training_samples first_seen (Tree_init 0)
           (mkTree 1 (Some four_rows_tree) None) 1 four_x four_y 1 2).
  - vm_compute. reflexivity.
  - repeat constructor.
  - simpl. lia.
Defined.

Lemma Built_classify_label (order : set_order) (self : Tree) (rows : list row)
  (node : Node) (sample : row) (c : Q) :
  Built order self rows node -> classify sample node = Ok c -> In c (labels rows).
Proof.
  intros H. revert c.
  induction H as [rows gain question d Hf Hz Hc
                 |rows gain q t f tn fn Hf Hnz Hp _ IHt _ IHf]; intros c Hcl.
  - assert (B : Built order self rows (Leaf d)) by (eapply Built_leaf; eassumption).
    destruct (Built_rows _ _ _ _ B) as [Hne _].
    apply class_counts_from_Ok_inv in Hc. destruct Hc as [_ ->].
    simpl in Hcl. injection Hcl as <-.
    pose proof (top_pick_first_maximum (count_into [] (labels rows))) as M.
    apply first_maximum_key in M.
    + rewrite keys_count_into in M. simpl in M.
      eapply first_seen_from_sound, M.
    + apply count_into_nonempty. right. destruct rows; [congruence | discriminate].
    + apply positive_count_into. constructor.
  - apply partition_Ok_inv in Hp. destruct Hp as (_ & Et & Ef).
    simpl in Hcl. inv_bind_as Hcl b Hb.
    assert (S : forall p, In c (labels (filter p rows)) -> In c (labels rows)).
    { intros p Hin. unfold labels in *. apply in_map_iff in Hin.
      destruct Hin as (r & <- & Hr). apply filter_In in Hr.
      apply (in_map (fun r => last r 0)). tauto. }
    destruct b.
    + apply (S (goes_true q)). rewrite <- Et. apply IHt, Hcl.
    + apply (S (fun r => negb (goes_true q r))). rewrite <- Ef. apply IHf, Hcl.
Qed.

(** X16: a fitted tree predicts training labels only: whatever sample
    [classify] is given, the class it returns is an entry of the [y] the
    tree was fitted on. *)
Theorem fit_predicts_training_labels (order : set_order) (self self' : Tree)
  (x : list (list Q)) (y : list Q) (sc : Q) (sample : row) (c : Q) :
  fit order self x y sc = (self', Ok tt) ->
  classify_root sample (root_node self') = Ok c ->
  In c y.
Proof.
  intros Hfit Hc.
  destruct (fit_outcome order self x y sc) as [(e & _ & E)|(m & root & Hm & Hb & E)];
    [rewrite E in Hfit; discriminate|].
  rewrite E in Hfit. injection Hfit as <-. simpl in Hc.
  apply build_Built in Hb.
  pose proof (Built_classify_label _ _ _ _ _ _ Hb Hc) as Hin.
  rewrite (merge_train_labels x y m Hm) in Hin.
  rewrite <- (firstn_skipn (length x) y). apply in_or_app. now left.
Qed.

Lemma fit_predicts_training_labels_witness : In (1 # 1) four_y.
Proof.
  apply (fit_predicts_training_labels first_seen (Tree_init 0)
           (mkTree 1 (Some four_rows_tree) None) four_x four_y 1 [7] 1).
  - vm_compute. reflexivity.
  - vm_compute. reflexivity.
Defined.

(** ** [Tree.score] and [RandomForest.score] *)

Lemma for_each_ext {A S : Type} (xs : list A) (body1 body2 : S -> A -> result S) (s : S) :
  (forall s1 x, body1 s1 x = body2 s1 x) ->
  for_each xs body1 s = for_each xs body2 s.
Proof.
  intros H. revert s. induction xs as [|x xs IH]; intros s; simpl; [reflexivity|].
  rewrite H. destruct (body2 s x); simpl; [apply IH | reflexivity | reflexivity].
Qed.












(** X19: a forest as [__init__] leaves it cannot predict: with at least one
    tree, [predict] and [score] raise [AttributeError] at the first tree,
    which has no [feature_indices] yet; with no tree at all, [predict]
    raises [IndexError] on the first row, whose votes are empty. *)
Theorem forest_predict_before_fit (n : nat) (max_features : option nat)
  (stopping_criteria : Q) (r : list Q) (x : list (list Q)) (y : list Q) :
  forest_predict (RandomForest_init (S n) max_features stopping_criteria) x
  = Raise AttributeError /\
  forest_score (RandomForest_init (S n) max_features stopping_criteria) x y
  = Raise AttributeError /\
  forest_predict (RandomForest_init 0 max_features stopping_criteria) (r :: x)
  = Raise IndexError.
Proof.
  assert (P : forest_predict (RandomForest_init (S n) max_features stopping_criteria) x
              = Raise AttributeError) by reflexivity.
  split; [exact P|]. split.
  - unfold forest_score. rewrite P. reflexivity.
  - reflexivity.
Qed.

(** ** [get_random_subsets] *)

Lemma take_rows_Ok_inv {A : Type} (a : list A) (idx : list nat) (b : list A) (d : A) :
  take_rows a idx = Ok b ->
  Forall (fun i => i < length a)%nat idx /\ b = map (fun i => nth i a d) idx.
Proof.
  unfold take_rows. intros H. apply map_each_Ok_inv in H.
  induction H as [|i r idxs rs Hi _ IH]; [split; [constructor | reflexivity]|].
  apply (getitem_Ok_inv _ _ _ d) in Hi. destruct Hi as [L ->].
  destruct IH as [Hall ->]. split; [now constructor | reflexivity].
Qed.

Lemma take_rows_Ok {A : Type} (a : list A) (idx : list nat) (d : A) :
  Forall (fun i => i < length a)%nat idx ->
  take_rows a idx = Ok (map (fun i => nth i a d) idx).
Proof.
  intros H. unfold take_rows. apply map_each_total. intros i Hi.
  apply getitem_Ok. rewrite Forall_forall in H. now apply H.
Qed.

Lemma nth_concatenated (X : list (list Q)) (y : list Q) (i : nat) :
  length y = length X -> (i < length X)%nat ->
  nth i (map (fun xy => fst xy ++ [snd xy]) (combine X y)) [] = nth i X [] ++ [nth i y 0].
Proof.
  intros L Hi.
  rewrite (nth_indep _ [] ((fun xy : list Q * Q => fst xy ++ [snd xy]) ([], 0)))
    by (rewrite length_map, length_combine; lia).
  rewrite (map_nth (fun xy : list Q * Q => fst xy ++ [snd xy])).
  rewrite combine_nth by (symmetry; exact L). reflexivity.
Qed.

(** The subsets, read off the draws: subset [k] holds, for every index [j]
    of the [k]-th choice, the row of [X] that the shuffle left at place [j],
    and in [y] the label of that same row. *)
Lemma get_random_subsets_Ok_inv (draws : random_draws) (X : list (list Q))
  (y : list Q) (n_subsets : nat) (replacements : bool)
  (subsets : list (list (list Q) * list Q)) :
  get_random_subsets draws X y n_subsets replacements = Ok subsets ->
  length y = length X /\
  Forall (fun i => i < length X)%nat (shuffle_order draws) /\
  length subsets = n_subsets /\
  forall k, (k < n_subsets)%nat ->
    exists idx,
      getitem (row_choices draws) k = Ok idx /\
      Forall (fun j => j < length (shuffle_order draws))%nat idx /\
      nth k subsets ([], []) =
      (map (fun j => nth (nth j (shuffle_order draws) 0%nat) X []) idx,
       map (fun j => nth (nth j (shuffle_order draws) 0%nat) y 0) idx).
Proof.
  unfold get_random_subsets. intros H.
  inv_bind_as H X_y HXy. inv_bind_as H shuffled Hsh.
  unfold concatenate_column in HXy.
  destruct (length y =? length X)%nat eqn:L; [|discriminate].
  apply Nat.eqb_eq in L. injection HXy as <-.
  apply (take_rows_Ok_inv _ _ _ []) in Hsh. destruct Hsh as [Hs ->].
  rewrite length_map, length_combine, L, Nat.min_id in Hs.
  split; [exact L|]. split; [exact Hs|].
  pose proof (map_each_length _ _ _ H) as Ln. rewrite length_seq in Ln.
  split; [exact Ln|]. intros k Hk.
  apply map_each_Ok_inv in H.
  pose proof (Forall2_nth_both _ _ _ k 0%nat ([], []) H) as Hnth.
  rewrite length_seq in Hnth. specialize (Hnth Hk).
  rewrite seq_nth in Hnth by exact Hk. simpl in Hnth.
  inv_bind_as Hnth idx Hidx. inv_bind_as Hnth chosen Hch.
  apply (take_rows_Ok_inv _ _ _ []) in Hch. destruct Hch as [Hj ->].
  rewrite length_map in Hj.
  exists idx. split; [exact Hidx|]. split; [exact Hj|].
  injection Hnth as <-. rewrite !map_map. rewrite Forall_forall in Hj, Hs.
  f_equal; apply map_ext_in; intros j Hin.
  - rewrite (nth_indep _ [] (nth 0 (map (fun xy : list Q * Q => fst xy ++ [snd xy])
                                        (combine X y)) []))
      by (rewrite length_map; now apply Hj).
    rewrite (map_nth (fun i => nth i (map (fun xy : list Q * Q => fst xy ++ [snd xy])
                                         (combine X y)) [])).
    rewrite nth_concatenated; [apply removelast_last | exact L |].
    apply Hs, nth_In, Hj, Hin.
  - rewrite (nth_indep _ [] (nth 0 (map (fun xy : list Q * Q => fst xy ++ [snd xy])
                                        (combine X y)) []))
      by (rewrite length_map; now apply Hj).
    rewrite (map_nth (fun i => nth i (map (fun xy : list Q * Q => fst xy ++ [snd xy])
                                         (combine X y)) [])).
    rewrite nth_concatenated; [apply last_last | exact L |].
    apply Hs, nth_In, Hj, Hin.
Qed.

(** X20: every subset [get_random_subsets] returns pairs each sampled row
    with its own label: the subset has as many labels as rows, and the row
    and the label at any position are a row of [X] and the entry of [y] at
    the same index.  There are [n_subsets] subsets, and [y] has exactly one
    label for each row of [X]. *)
Theorem get_random_subsets_pairs_rows_with_labels (draws : random_draws)
  (X : list (list Q)) (y : list Q) (n_subsets : nat) (replacements : bool)
  (subsets : list (list (list Q) * list Q)) :
  get_random_subsets draws X y n_subsets replacements = Ok subsets ->
  length subsets = n_subsets /\
  length y = length X /\
  Forall (fun s =>
            length (snd s) = length (fst s) /\
            forall j, (j < length (fst s))%nat ->
                      exists i, (i < length X)%nat /\
                                nth j (fst s) [] = nth i X [] /\
                                nth j (snd s) 0 = nth i y 0)
         subsets.
Proof.
  intros H. apply get_random_subsets_Ok_inv in H.
  destruct H as (L & Hs & Ln & Hk). split; [exact Ln|]. split; [exact L|].
  apply Forall_forall. intros s Hin.
  destruct (In_nth _ _ ([], []) Hin) as (k & Hlt & <-).
  rewrite Ln in Hlt. destruct (Hk k Hlt) as (idx & _ & Hj & ->). simpl.
  rewrite !length_map. split; [reflexivity|]. intros j Hjlt.
  rewrite Forall_forall in Hj, Hs.
  assert (Hi : (nth j idx 0 < length (shuffle_order draws))%nat)
    by (apply Hj, nth_In, Hjlt).
  exists (nth (nth j idx 0%nat) (shuffle_order draws) 0%nat).
  split; [apply Hs, nth_In, Hi|]. split.
  - rewrite (nth_indep _ [] (nth (nth 0 (shuffle_order draws) 0%nat) X []))
      by (rewrite length_map; exact Hjlt).
    rewrite (map_nth (fun j => nth (nth j (shuffle_order draws) 0%nat) X [])).
    reflexivity.
  - rewrite (nth_indep _ 0 (nth (nth 0 (shuffle_order draws) 0%nat) y 0))
      by (rewrite length_map; exact Hjlt).
    rewrite (map_nth (fun j => nth (nth j (shuffle_order draws) 0%nat) y 0)).
    reflexivity.
Qed.

Lemma get_random_subsets_pairs_rows_with_labels_witness :
  length [([[4; 40]; [2; 20]], [1; 0]); ([[4; 40]; [4; 40]], [1; 1])] = 2%nat /\
  length four_y = length training_x /\
  Forall (fun s =>
            length (snd s) = length (fst s) /\
            forall j, (j < length (fst s))%nat ->
                      exists i, (i < length training_x)%nat /\
                                nth j (fst s) [] = nth i training_x [] /\
                                nth j (snd s) 0 = nth i four_y 0)
         [([[4; 40]; [2; 20]], [1; 0]); ([[4; 40]; [4; 40]], [1; 1])].
Proof.
  apply (get_random_subsets_pairs_rows_with_labels
           (mkDraws [3; 1; 0; 2]%nat [[0; 1]; [0; 0]]%nat []) training_x four_y 2 false).
  vm_compute. reflexivity.
Defined.

Lemma get_random_subsets_Ok (draws : random_draws) (X : list (list Q)) (y : list Q)
  (n_subsets : nat) (replacements : bool) :
  length y = length X ->
  Forall (fun i => i < length X)%nat (shuffle_order draws) ->
  (n_subsets <= length (row_choices draws))%nat ->
  Forall (Forall (fun j => j < length (shuffle_order draws))%nat) (row_choices draws) ->
  exists subsets, get_random_subsets draws X y n_subsets replacements = Ok subsets.
Proof.
  intros L Hs Hn Hrows. unfold get_random_subsets, concatenate_column.
  rewrite (proj2 (Nat.eqb_eq _ _) L). cbn [bind].
  rewrite (take_rows_Ok _ _ ([] : row)) by
    (rewrite length_map, length_combine, L, Nat.min_id; exact Hs).
  cbn [bind]. apply map_each_exists. intros k Hk. apply in_seq in Hk.
  rewrite (getitem_Ok _ k []) by lia. cbn [bind].
  rewrite (take_rows_Ok _ _ ([] : row)).
  - cbn [bind]. eauto.
  - rewrite length_map. rewrite Forall_forall in Hrows. apply Hrows.
    apply nth_In. lia.
Qed.

(** ** [RandomForest.fit] returns *)

Lemma for_each_total_inv {A S : Type} (I : S -> Prop) (xs : list A)
  (body : S -> A -> result S) (s : S) :
  I s ->
  (forall s1 x, In x xs -> I s1 -> exists s2, body s1 x = Ok s2 /\ I s2) ->
  exists s', for_each xs body s = Ok s' /\ I s'.
Proof.
  revert s. induction xs as [|x xs IH]; intros s Hs Hstep; simpl; [eauto|].
  destruct (Hstep s x (or_introl eq_refl) Hs) as (s2 & -> & H2). simpl.
  apply IH; [exact H2|]. intros s1 x' Hx'. apply Hstep. now right.
Qed.

Lemma fit_returns (order : set_order) (self : Tree) (F : nat) (x : list (list Q))
  (y : list Q) (sc : Q) :
  x <> [] -> Forall (fun r => length r = F) x -> (length x <= length y)%nat ->
  exists self', fit order self x y sc = (self', Ok tt).
Proof.
  intros Hne Hx Hy.
  destruct (merge_train_total F x y Hne Hx Hy) as (m & Hm).
  destruct (fit_outcome order self x y sc) as [(e & E & _)|(m' & root & _ & _ & E)].
  - rewrite Hm in E. discriminate.
  - eauto.
Qed.

(** X21: [RandomForest.fit] returns on a matrix [x] with at least one row
    and one column, rows of equal length and one label for each row, when
    the forest holds its [n_trees] trees and the random numbers are ones
    numpy can hand out: a shuffle of the row indices, for every tree a
    choice of as many row indices as there are rows, and a choice of
    [max_features] column indices.  The forest it leaves has the same number
    of trees, each fitted, and records the number of features it used. *)
Theorem forest_fit_returns (order : set_order) (draws : random_draws)
  (self : RandomForest) (F : nat) (x : list (list Q)) (y : list Q) :
  x <> [] ->
  (0 < F)%nat ->
  Forall (fun r => length r = F) x ->
  length y = length x ->
  length (the_forest self) = n_trees self ->
  length (shuffle_order draws) = length x ->
  Forall (fun i => i < length x)%nat (shuffle_order draws) ->
  (n_trees self <= length (row_choices draws))%nat ->
  Forall (numpy_choice (length x) (length x) true) (row_choices draws) ->
  (n_trees self <= length (feature_choices draws))%nat ->
  Forall (numpy_choice F (match max_features self with
                          | Some (S k) => S k
                          | _ => Nat.sqrt F
                          end) true) (feature_choices draws) ->
  exists self',
    forest_fit order draws self x y = Ok self' /\
    n_trees self' = n_trees self /\
    max_features self' = Some (match max_features self with
                               | Some (S k) => S k
                               | _ => Nat.sqrt F
                               end) /\
    forest_stopping_criteria self' = forest_stopping_criteria self /\
    length (the_forest self') = n_trees self /\
    Forall (fun tree => exists root idx,
                root_node tree = Some root /\ feature_indices tree = Some idx)
           (the_forest self').
Proof.
  intros Hne HF Hx Ly Lf Ls Hs Hnr Hrows Hnf Hfeat.
  assert (Hrows' : Forall (Forall (fun j => j < length (shuffle_order draws))%nat)
                          (row_choices draws)).
  { revert Hrows. apply Forall_impl. intros idx (_ & H & _). now rewrite Ls. }
  assert (Hfeat' : Forall (Forall (fun j => j < F)%nat) (feature_choices draws)).
  { revert Hfeat. apply Forall_impl. intros idx (_ & H & _). exact H. }
  destruct (get_random_subsets_Ok draws x y (n_trees self) true Ly Hs Hnr Hrows')
    as (subsets & Hsub).
  pose proof (get_random_subsets_Ok_inv _ _ _ _ _ _ Hsub) as (_ & _ & Ln & Hk).
  assert (Hloop : exists forest,
             for_each (seq 0 (n_trees self))
               (fun forest i =>
                  subset <- getitem subsets i ;;
                  idx <- getitem (feature_choices draws) i ;;
                  tree <- getitem forest i ;;
                  x_subset <- take_columns (fst subset) idx ;;
                  match fit order (set_feature_indices tree idx) x_subset (snd subset)
                          (forest_stopping_criteria self) with
                  | (tree', Ok _) => Ok (set_nth i tree' forest)
                  | (_, Raise e) => Raise e
                  | (_, Timeout) => Timeout
                  end)
               (the_forest self) = Ok forest /\
             length forest = n_trees self).
  { apply (for_each_total_inv (fun forest => length forest = n_trees self));
      [exact Lf|].
    intros forest i Hi Lforest. apply in_seq in Hi.
    rewrite (getitem_Ok subsets i ([], [])) by lia. cbn [bind].
    rewrite (getitem_Ok (feature_choices draws) i []) by lia. cbn [bind].
    rewrite (getitem_Ok forest i (Tree_init 0)) by lia. cbn [bind].
    destruct (Hk i) as (ridx & Hridx & Hj & ->); [lia|]. cbn [fst snd].
    set (fidx := nth i (feature_choices draws) []).
    assert (Hfidx : Forall (fun j => j < F)%nat fidx).
    { rewrite Forall_forall in Hfeat'. apply Hfeat'. apply nth_In. lia. }
    assert (Hridx' : ridx <> []).
    { apply getitem_In in Hridx. rewrite Forall_forall in Hrows.
      destruct (Hrows ridx Hridx) as (Lr & _ & _).
      intros ->. simpl in Lr. destruct x; [congruence | discriminate]. }
    rewrite (take_columns_total F).
    - cbn [bind].
      destruct (fit_returns order (set_feature_indices (nth i forest (Tree_init 0)) fidx)
                  (length fidx)
                  (map (fun r => map (fun j => nth j r 0) fidx)
                       (map (fun j => nth (nth j (shuffle_order draws) 0%nat) x []) ridx))
                  (map (fun j => nth (nth j (shuffle_order draws) 0%nat) y 0) ridx)
                  (forest_stopping_criteria self)) as (tree' & ->).
      + destruct ridx; [congruence | discriminate].
      + apply Forall_forall. intros r Hr. apply in_map_iff in Hr.
        destruct Hr as (r0 & <- & _). apply length_map.
      + rewrite !length_map. lia.
      + eexists. split; [reflexivity|]. rewrite set_nth_length. exact Lforest.
    - exact Hfidx.
    - apply Forall_forall. intros r Hr. apply in_map_iff in Hr.
      destruct Hr as (j & <- & Hjin). rewrite Forall_forall in Hj, Hs, Hx.
      rewrite (Hx (nth (nth j (shuffle_order draws) 0%nat) x [])); [lia|].
      apply nth_In, Hs, nth_In, Hj, Hjin. }
  destruct Hloop as (forest & Hloop & Lforest).
  assert (E : forest_fit order draws self x y =
              Ok (mkRandomForest (n_trees self)
                    (Some (match max_features self with
                           | Some (S k) => S k
                           | _ => Nat.sqrt F
                           end))
                    (forest_stopping_criteria self) forest)).
  { unfold forest_fit.
    assert (G : getitem x 0 = Ok (hd [] x)) by (destruct x; [congruence | reflexivity]).
    rewrite G. cbn [bind]. rewrite Hsub. cbn [bind]. rewrite Hloop. cbn [bind].
    assert (EF : length (hd [] x) = F).
    { destruct x as [|r0 x]; [congruence|]. now inversion Hx. }
    rewrite EF. reflexivity. }
  eexists. split; [exact E|]. simpl.
  split; [reflexivity|]. split; [reflexivity|]. split; [reflexivity|].
  split; [exact Lforest|].
  destruct (forest_fit_fitted order draws self _ x y F E Lf Hfeat') as [_ Hall].
  simpl in Hall. revert Hall. apply Forall_impl.
  intros tree (tree0 & idx & x_subset & y_subset & sc & _ & Hw & Hfit).
  destruct (fit_well_formed order (length idx) _ _ _ _ _ Hfit Hw)
    as (root & Hroot & _ & Hfi).
  exists root, idx. split; [exact Hroot | exact Hfi].
Qed.

Lemma forest_fit_returns_witness :
  exists self',
    forest_fit first_seen training_draws (RandomForest_init 3 None 1) training_x four_y
    = Ok self' /\
    n_trees self' = 3%nat /\
    max_features self' = Some 1%nat /\
    forest_stopping_criteria self' = 1 /\
    length (the_forest self') = 3%nat /\
    Forall (fun tree => exists root idx,
                root_node tree = Some root /\ feature_indices tree = Some idx)
           (the_forest self').
Proof.
  apply (forest_fit_returns first_seen training_draws (RandomForest_init 3 None 1)
           2 training_x four_y).
  - discriminate.
  - lia.
  - repeat constructor.
  - reflexivity.
  - reflexivity.
  - reflexivity.
  - repeat constructor.
  - simpl. lia.
  - repeat constructor; discriminate.
  - simpl. lia.
  - repeat constructor; discriminate.
Defined.

(** ** The vote: order of the trees, majorities, unanimity *)

Lemma plurality_lowest_unique (a : list Q) (w w' : Q) :
  plurality_lowest a w -> plurality_lowest a w' -> w' == w.
Proof.
  intros (Hin & Hmax & Hlow) (Hin' & Hmax' & Hlow').
  pose proof (Hmax w') as H1. pose proof (Hmax' w) as H2.
  assert (E : occurrences w' a = occurrences w a) by lia.
  apply Qle_antisym.
  - apply Hlow'; [exact Hin | symmetry; exact E].
  - apply Hlow; [exact Hin' | exact E].
Qed.

Lemma plurality_lowest_Permutation (a a' : list Q) (w : Q) :
  Permutation a a' -> plurality_lowest a w -> plurality_lowest a' w.
Proof.
  intros P (Hin & Hmax & Hlow). split; [|split].
  - eapply Permutation_in; eassumption.
  - intros v. rewrite <- !(occurrences_Permutation _ a a' P). apply Hmax.
  - intros v Hv. rewrite <- !(occurrences_Permutation _ a a' P).
    apply Hlow. eapply Permutation_in; [symmetry; exact P | exact Hv].
Qed.

(** X22: the vote on a row does not depend on the order of the trees: on a
    permutation of the predictions [vote] returns the same class. *)
Theorem vote_order_independent (a a' : list Q) (w : Q) :
  Permutation a a' ->
  vote a = Ok w ->
  exists w', vote a' = Ok w' /\ w' == w.
Proof.
  intros P H.
  assert (Hne : a' <> []).
  { intros ->. apply Permutation_sym, Permutation_nil in P. subst a. discriminate. }
  destruct (vote_spec a' Hne) as (w' & Hw' & M).
  exists w'. split; [exact Hw'|].
  apply (plurality_lowest_unique a').
  - eapply plurality_lowest_Permutation; [exact P | apply vote_Ok_inv, H].
  - apply first_maximum_plurality, M.
Qed.

Lemma vote_order_independent_witness :
  exists w', vote [1; 0; 1] = Ok w' /\ w' == 1.
Proof.
  apply (vote_order_independent [0; 1; 1] [1; 0; 1] 1).
  - apply perm_swap.
  - reflexivity.
Defined.

Lemma occurrences_two (v w : Q) (a : list Q) :
  ~ w == v -> (occurrences v a + occurrences w a <= length a)%nat.
Proof.
  intros Hne. unfold occurrences. induction a as [|x a IH]; simpl; [lia|].
  destruct (Qeq_bool x v) eqn:Ev, (Qeq_bool x w) eqn:Ew; simpl; try lia.
  exfalso. apply Qeq_bool_iff in Ev. apply Qeq_bool_iff in Ew.
  apply Hne. rewrite <- Ew. exact Ev.
Qed.

(** X23: a class predicted by more than half of the trees wins the vote. *)
Theorem vote_follows_majority (a : list Q) (v : Q) :
  (length a < 2 * occurrences v a)%nat ->
  exists w, vote a = Ok w /\ w == v.
Proof.
  intros Hmaj.
  assert (Hne : a <> []) by (intros ->; simpl in Hmaj; lia).
  destruct (vote_spec a Hne) as (w & Hw & M).
  exists w. split; [exact Hw|].
  apply first_maximum_plurality in M. destruct M as (_ & Hmax & _).
  destruct (Qeq_dec w v) as [E|E]; [exact E|].
  pose proof (occurrences_two v w a E). specialize (Hmax v). lia.
Qed.

Lemma vote_follows_majority_witness :
  exists w, vote [2; 1; 0; 1; 1] = Ok w /\ w == 1.
Proof.
  apply (vote_follows_majority [2; 1; 0; 1; 1] 1).
  vm_compute. lia.
Defined.

Lemma sorted_hist_repeat (v : Q) (n : nat) :
  sorted_hist (repeat v (S n)) = [(v, S n)].
Proof.
  induction n as [|n IH]; [reflexivity|].
  change (sorted_hist (repeat v (S (S n))))
    with (unique_insert v (sorted_hist (repeat v (S n)))).
  rewrite IH. simpl. rewrite (proj2 (Qeq_bool_iff v v)) by reflexivity. reflexivity.
Qed.

Lemma vote_repeat (v : Q) (n : nat) : vote (repeat v (S n)) = Ok v.
Proof.
  unfold vote, np_unique. fold (sorted_hist (repeat v (S n))).
  rewrite sorted_hist_repeat. reflexivity.
Qed.

Lemma Forall2_same_right {A B : Type} (R : A -> B -> Prop) (xs : list A)
  (ys : list B) (b : B) :
  (forall x y, In x xs -> R x y -> y = b) -> Forall2 R xs ys ->
  ys = repeat b (length xs).
Proof.
  intros H F. induction F as [|x y xs ys Hxy _ IH]; [reflexivity|].
  simpl. rewrite (H x y (or_introl eq_refl) Hxy). f_equal.
  apply IH. intros x' y' Hin. apply H. now right.
Qed.

Lemma collect_predictions_total (forest : list Tree) (x : list (list Q)) :
  Forall (fun tree => exists p, tree_votes tree x = Ok p) forest ->
  exists predictions, collect_predictions forest x = Ok predictions.
Proof.
  intros H. unfold collect_predictions.
  destruct (for_each_total forest
              (fun (st : nat * list (list Q)) tree =>
                 let '(i, predictions) := st in
                 idx <- match feature_indices tree with
                        | Some idx => Ok idx
                        | None => Raise AttributeError
                        end ;;
                 x_idx <- take_columns x idx ;;
                 prediction <- random_forest_predict tree x_idx ;;
                 Ok (S i, set_column i prediction predictions))
              (0%nat, repeat (repeat 0 (length forest)) (length x))) as (st & ->).
  - intros [i predictions] tree Hin. rewrite Forall_forall in H.
    destruct (H tree Hin) as (p & Hp). unfold tree_votes in Hp.
    inv_bind_as Hp idx Hidx. inv_bind_as Hp x_idx Hx.
    rewrite Hidx. cbn [bind]. rewrite Hx. cbn [bind]. rewrite Hp. cbn [bind]. eauto.
  - simpl. eauto.
Qed.

(** X24: when every tree of a forest predicts the same classes [p] for the
    rows of [x], the forest predicts [p]. *)
Theorem forest_predict_unanimous (self : RandomForest) (x : list (list Q))
  (p : list Q) :
  the_forest self <> [] ->
  Forall (fun tree => tree_votes tree x = Ok p) (the_forest self) ->
  forest_predict self x = Ok p.
Proof.
  intros Hne Hall. unfold forest_predict.
  destruct (collect_predictions_total (the_forest self) x) as (predictions & Hc).
  { revert Hall. apply Forall_impl. eauto. }
  rewrite Hc. cbn [bind].
  apply collect_predictions_Ok_inv in Hc. destruct Hc as (per_tree & HF & ->).
  assert (E : per_tree = repeat p (length (the_forest self))).
  { apply (Forall2_same_right (fun tree q => tree_votes tree x = Ok q) _ _ p);
      [|exact HF].
    intros tree q Hin Hq. rewrite Forall_forall in Hall.
    rewrite (Hall tree Hin) in Hq. now injection Hq. }
  assert (Lp : length p = length x).
  { destruct (the_forest self) as [|tree forest]; [congruence|].
    inversion Hall; subst. eapply tree_votes_length; eassumption. }
  rewrite (map_each_total vote (fun a => hd 0 a)).
  - f_equal. rewrite map_map. rewrite <- Lp.
    transitivity (firstn (length p) p); [|apply firstn_all].
    rewrite <- (map_nth_seq_firstn p (length p)) by lia.
    apply map_ext. intros j. unfold votes_of_row. rewrite E.
    destruct (the_forest self) as [|tree forest]; [congruence|]. reflexivity.
  - intros a Ha. apply in_map_iff in Ha. destruct Ha as (j & <- & _).
    unfold votes_of_row. rewrite E.
    destruct (the_forest self) as [|tree forest]; [congruence|].
    simpl length. rewrite map_repeat. rewrite vote_repeat. reflexivity.
Qed.

Lemma forest_predict_unanimous_witness :
  forest_predict
    (mkRandomForest 2 (Some 1%nat) 1
       [mkTree 1 (Some four_rows_tree) (Some [0%nat]);
        mkTree 1 (Some (Leaf [(1, 3%nat)])) (Some [0%nat])])
    [[3]; [4]]
  = Ok [1; 1].
Proof.
  apply (forest_predict_unanimous
           (mkRandomForest 2 (Some 1%nat) 1
              [mkTree 1 (Some four_rows_tree) (Some [0%nat]);
               mkTree 1 (Some (Leaf [(1, 3%nat)])) (Some [0%nat])])
           [[3]; [4]] [1; 1]).
  - discriminate.
  - repeat constructor.
Defined.

(** ** [Tree.fit]: what it reads and what it overwrites *)

Lemma map_each_ext_in {A B : Type} (f g : A -> result B) (xs : list A) :
  (forall x, In x xs -> f x = g x) -> map_each f xs = map_each g xs.
Proof.
  induction xs as [|x xs IH]; intros H; simpl; [reflexivity|].
  rewrite (H x) by now left. rewrite IH by (intros; apply H; now right). reflexivity.
Qed.

Lemma getitem_firstn {A : Type} (l : list A) (n i : nat) :
  (i < n)%nat -> getitem (firstn n l) i = getitem l i.
Proof.
  unfold getitem. revert n i. induction l as [|a l IH]; intros n i H.
  - rewrite firstn_nil. reflexivity.
  - destruct n as [|n]; [lia|]. destruct i as [|i]; [reflexivity|].
    simpl. apply IH. lia.
Qed.

(** X25: [fit] reads only the first [len(x)] labels: any further entries of
    [y] are ignored, silently, and leave the outcome and the tree
    unchanged. *)
Theorem fit_ignores_surplus_labels (order : set_order) (self : Tree)
  (x : list (list Q)) (y : list Q) (sc : Q) :
  fit order self x y sc = fit order self x (firstn (length x) y) sc.
Proof.
  assert (E : merge_train x (firstn (length x) y) = merge_train x y).
  { unfold merge_train. destruct (getitem x 0) as [row0| |]; simpl; try reflexivity.
    apply map_each_ext_in. intros i Hi. apply in_seq in Hi.
    rewrite getitem_firstn by lia. reflexivity. }
  unfold fit. rewrite E. reflexivity.
Qed.

Lemma consider_stopping_criteria (self1 self2 : Tree) (rows : list row) (g0 : Q)
  (st : Q * option Question) (q : Question) :
  stopping_criteria self1 = stopping_criteria self2 ->
  consider self1 rows g0 st q = consider self2 rows g0 st q.
Proof. intros H. unfold consider. rewrite H. reflexivity. Qed.

Lemma find_best_split_stopping_criteria (order : set_order) (self1 self2 : Tree)
  (rows : list row) :
  stopping_criteria self1 = stopping_criteria self2 ->
  find_best_split order self1 rows = find_best_split order self2 rows.
Proof.
  intros H. unfold find_best_split.
  destruct (gini rows) as [g0| |]; simpl; try reflexivity.
  destruct (getitem rows 0) as [row0| |]; simpl; try reflexivity.
  apply for_each_ext. intros s1 col.
  destruct (map_each (fun r => getitem r col) rows) as [c| |]; simpl; try reflexivity.
  apply for_each_ext. intros s2 val. apply consider_stopping_criteria, H.
Qed.

(** [build] reads nothing of the tree but its stopping criterion. *)
Lemma build_stopping_criteria (order : set_order) (self1 self2 : Tree) (fuel : nat)
  (rows : list row) :
  stopping_criteria self1 = stopping_criteria self2 ->
  build order fuel self1 rows = build order fuel self2 rows.
Proof.
  intros H. revert rows. induction fuel as [|fuel IH]; intros rows; [reflexivity|].
  simpl. rewrite (find_best_split_stopping_criteria order self1 self2 rows H).
  destruct (find_best_split order self2 rows) as [[gain question]| |]; simpl;
    try reflexivity.
  destruct (Qeq_bool gain 0); [reflexivity|].
  destruct question as [q|]; simpl; [|reflexivity].
  destruct (partition rows q) as [[t f]| |]; simpl; try reflexivity.
  rewrite (IH t), (IH f). reflexivity.
Qed.

(** X26: a successful [fit] overwrites whatever the tree held: the stopping
    criterion and the root it leaves are those any other tree would get from
    the same call, only [feature_indices] is kept; fitting the fitted tree
    again on the same data leaves it as it is. *)
Theorem fit_overwrites_tree (order : set_order) (self self' : Tree)
  (x : list (list Q)) (y : list Q) (sc : Q) :
  fit order self x y sc = (self', Ok tt) ->
  (forall other,
      fit order other x y sc =
      (mkTree (stopping_criteria self') (root_node self') (feature_indices other),
       Ok tt)) /\
  fit order self' x y sc = (self', Ok tt).
Proof.
  intros Hfit.
  assert (G : forall other,
             fit order other x y sc =
             (mkTree (stopping_criteria self') (root_node self') (feature_indices other),
              Ok tt)).
  { intros other.
    destruct (fit_outcome order self x y sc) as [(e & _ & E)|(m & root & Hm & Hb & E)];
      [rewrite E in Hfit; discriminate|].
    rewrite E in Hfit. injection Hfit as <-.
    destruct (fit_outcome order other x y sc)
      as [(e & Hm' & _)|(m' & root' & Hm' & Hb' & E')];
      [rewrite Hm in Hm'; discriminate|].
    rewrite Hm in Hm'. injection Hm' as <-.
    rewrite (build_stopping_criteria order _
               (set_stopping_criteria self (resolved_criteria sc (length m))))
      in Hb' by reflexivity.
    rewrite Hb in Hb'. injection Hb' as <-. rewrite E'. reflexivity. }
  split; [exact G|].
  rewrite (G self').
  destruct (fit_outcome order self x y sc) as [(e & _ & E)|(m & root & Hm & Hb & E)];
    [rewrite E in Hfit; discriminate|].
  rewrite E in Hfit. injection Hfit as <-. reflexivity.
Qed.

Lemma fit_overwrites_tree_witness :
  (forall other,
      fit first_seen other four_x four_y 1 =
      (mkTree 1 (Some four_rows_tree) (feature_indices other), Ok tt)) /\
  fit first_seen (mkTree 1 (Some four_rows_tree) None) four_x four_y 1
  = (mkTree 1 (Some four_rows_tree) None, Ok tt).
Proof.
  apply (fit_overwrites_tree first_seen (Tree_init 0)
           (mkTree 1 (Some four_rows_tree) None) four_x four_y 1).
  vm_compute. reflexivity.
Defined.

(** ** The forest predicts training labels only *)

Lemma Forall2_In_r {A B : Type} (R : A -> B -> Prop) (xs : list A) (ys : list B)
  (y : B) :
  Forall2 R xs ys -> In y ys -> exists x, In x xs /\ R x y.
Proof.
  induction 1 as [|x0 y0 xs ys Hxy _ IH]; intros Hin; [contradiction|].
  destruct Hin as [<-|Hin].
  - exists x0. split; [now left | exact Hxy].
  - destruct (IH Hin) as (x' & Hx' & HR). exists x'. split; [now right | exact HR].
Qed.

(** Every tree of a fitted forest was fitted on labels drawn from [y]. *)
Lemma forest_fit_labels (order : set_order) (draws : random_draws)
  (self0 self : RandomForest) (x : list (list Q)) (y : list Q) :
  forest_fit order draws self0 x y = Ok self ->
  length (the_forest self0) = n_trees self0 ->
  Forall (fun tree =>
            exists tree0 x_subset y_subset sc,
              fit order tree0 x_subset y_subset sc = (tree, Ok tt) /\
              incl y_subset y)
         (the_forest self).
Proof.
  unfold forest_fit. intros H Hlen.
  inv_bind_as H row0 Hrow0. inv_bind_as H subsets Hsubsets.
  inv_bind_as H forest Hloop. injection H as <-. simpl.
  pose proof (get_random_subsets_Ok_inv _ _ _ _ _ _ Hsubsets) as (Ly & Hs & Ln & Hk).
  apply (for_each_prefix
           (fun visited forest =>
              length forest = n_trees self0 /\
              forall j, (j < length visited)%nat ->
                        exists tree0 x_subset y_subset sc,
                          fit order tree0 x_subset y_subset sc
                          = (nth j forest (Tree_init 0), Ok tt) /\
                          incl y_subset y)) in Hloop.
  - destruct Hloop as [L Hall].
    apply Forall_forall. intros tree Hin.
    destruct (In_nth _ _ (Tree_init 0) Hin) as (j & Hj & <-).
    apply Hall. rewrite length_seq. lia.
  - split; [exact Hlen | simpl; intros j Hj; lia].
  - intros pre i post f1 f2 Exs [L Hall] Hbody.
    destruct (seq_split_index _ _ _ _ Exs) as [-> Hi].
    inv_bind_as Hbody subset Hsubset. inv_bind_as Hbody idx Hidx.
    inv_bind_as Hbody tree Htree. inv_bind_as Hbody x_subset Hx.
    destruct (fit order (set_feature_indices tree idx) x_subset (snd subset)
                (forest_stopping_criteria self0)) as [tree' [[]| |]] eqn:Hfit;
      try discriminate.
    injection Hbody as <-. split; [rewrite set_nth_length; exact L|].
    intros j Hj. rewrite length_app in Hj. simpl in Hj.
    destruct (Nat.eq_dec (length pre) j) as [<-|Hne].
    + rewrite nth_set_nth_eq by lia.
      exists (set_feature_indices tree idx), x_subset, (snd subset),
        (forest_stopping_criteria self0).
      split; [exact Hfit|].
      destruct (Hk (length pre) Hi) as (ridx & _ & Hj' & E).
      apply (getitem_Ok_inv _ _ _ ([], [])) in Hsubset. destruct Hsubset as [_ ->].
      rewrite E. simpl. intros c Hc. apply in_map_iff in Hc.
      destruct Hc as (k & <- & Hkin). apply nth_In. rewrite Ly.
      rewrite Forall_forall in Hj', Hs. apply Hs, nth_In, Hj', Hkin.
    + rewrite nth_set_nth_neq by exact Hne. apply Hall. lia.
Qed.

(** X27: a fitted forest predicts training labels only: every class
    [predict] returns, for whatever rows, is an entry of the [y] the forest
    was fitted on. *)
Theorem forest_predicts_training_labels (order : set_order) (draws : random_draws)
  (self0 self : RandomForest) (x : list (list Q)) (y : list Q)
  (X : list (list Q)) (out : list Q) :
  forest_fit order draws self0 x y = Ok self ->
  length (the_forest self0) = n_trees self0 ->
  forest_predict self X = Ok out ->
  Forall (fun c => In c y) out.
Proof.
  intros Hfit Hlen Hp.
  pose proof (forest_fit_labels order draws self0 self x y Hfit Hlen) as Htrees.
  unfold forest_predict in Hp. inv_bind_as Hp predictions Hc.
  apply collect_predictions_Ok_inv in Hc. destruct Hc as (per_tree & HF & ->).
  apply map_each_Ok_inv in Hp.
  apply Forall_forall. intros c Hcin.
  destruct (Forall2_In_r _ _ _ _ Hp Hcin) as (a & Ha & Hv).
  apply in_map_iff in Ha. destruct Ha as (j & <- & Hj). apply in_seq in Hj.
  apply vote_Ok_inv in Hv. destruct Hv as (Hin & _).
  unfold votes_of_row in Hin. apply in_map_iff in Hin.
  destruct Hin as (p & <- & Hpin).
  destruct (Forall2_In_r _ _ _ _ HF Hpin) as (tree & Htree & Hvotes).
  rewrite Forall_forall in Htrees.
  destruct (Htrees tree Htree) as (tree0 & xs & ys & sc & Hfit1 & Hincl).
  pose proof (tree_votes_length tree X p Hvotes) as Lp.
  unfold tree_votes in Hvotes. inv_bind_as Hvotes idx Hidx.
  inv_bind_as Hvotes x_idx Hx. unfold random_forest_predict in Hvotes.
  pose proof (map_each_length _ _ _ Hvotes) as Lx.
  apply map_each_Ok_inv in Hvotes.
  pose proof (Forall2_nth_both _ _ _ j [] 0 Hvotes) as Hcl.
  assert (Hjx : (j < length x_idx)%nat).
  { apply (Nat.lt_le_trans _ (length p)); [rewrite Lp; lia | rewrite Lx; apply Nat.le_refl]. }
  specialize (Hcl Hjx).
  destruct (fit_outcome order tree0 xs ys sc) as [(e & _ & E)|(m & root & Hm & Hb & E)];
    [rewrite E in Hfit1; discriminate|].
  rewrite E in Hfit1. injection Hfit1 as <-. simpl in Hcl.
  apply build_Built in Hb.
  pose proof (Built_classify_label _ _ _ _ _ _ Hb Hcl) as Hlab.
  rewrite (merge_train_labels xs ys m Hm) in Hlab.
  apply Hincl. rewrite <- (firstn_skipn (length xs) ys). apply in_or_app. now left.
Qed.

Lemma forest_predicts_training_labels_witness :
  Forall (fun c => In c four_y) [0; 1; 0].
Proof.
  apply (forest_predicts_training_labels first_seen training_draws
           (RandomForest_init 3 None 1) training_forest
           training_x four_y [[1; 10]; [4; 40]; [3; 0]] [0; 1; 0]).
  - vm_compute. reflexivity.
  - reflexivity.
  - vm_compute. reflexivity.
Defined.

(** ** [Tree.predict] and [Tree.classify]: what they read *)




(** X29: a tree fitted on samples of [F] cells reads the first [F] cells of
    a sample only: [classify] returns a class for every sample with at
    least [F] cells, and cells after these (a label column left in place,
    say) do not change it. *)
Theorem classify_reads_training_columns (order : set_order) (self self' : Tree)
  (F : nat) (x : list (list Q)) (y : list Q) (sc : Q) (sample extra : row) :
  fit order self x y sc = (self', Ok tt) ->
  Forall (fun r => length r = F) x ->
  (F <= length sample)%nat ->
  exists c,
    classify_root sample (root_node self') = Ok c /\
    classify_root (sample ++ extra) (root_node self') = Ok c.
Proof.
  intros Hfit Hx Hlen.
  destruct (fit_well_formed order F self self' x y sc Hfit Hx)
    as (root & Hroot & Hwf & _).
  rewrite Hroot. simpl.
  destruct (classify_well_formed F sample root Hwf Hlen) as (d & _ & Hc & _).
  destruct (leaf_for_prefix F sample extra root Hwf Hlen) as [_ P].
  exists (top_pick d). split; [exact Hc | rewrite P; exact Hc].
Qed.

Lemma classify_reads_training_columns_witness :
  exists c,
    classify_root [3] (root_node (mkTree 1 (Some four_rows_tree) None)) = Ok c /\
    classify_root ([3] ++ [0; 9]) (root_node (mkTree 1 (Some four_rows_tree) None))
    = Ok c.
Proof.
  apply (classify_reads_training_columns first_seen (Tree_init 0)
           (mkTree 1 (Some four_rows_tree) None) 1 four_x four_y 1 [3] [0; 9]).
  - vm_compute. reflexivity.
  - repeat constructor.
  - simpl. lia.
Defined.
